(** * Bio.MultiProc.copen: process handles, the live registry and the SIGTERM hook

    A shallow embedding of [Bio/MultiProc/copen.py].  The module forks child
    processes and wraps each one in a file-like handle.  The embedding keeps
    the interpreter state the module touches (the handle objects, the list
    [_active], the disposition of SIGTERM) and a small model of the operating
    system (the process table, a millisecond clock and the log of the system
    calls that matter: signals sent, children reaped, handlers installed).

    Python functions become computations in a state-and-exception monad
    over that world. *)

From stdpp Require Import gmap strings list fin_maps.
From Stdlib Require Import ZArith Ascii String.

Open Scope Z_scope.
Open Scope string_scope.

(** ** Python values and exceptions *)

Set Warnings "-register-all".

(** The Python values the module handles. *)
Inductive pyobj :=
| PyNone
| PyInt (n : Z)
| PyStr (s : string)
| PyList (l : list pyobj)
| PyTuple (l : list pyobj)
| PyGlobal (name : string)                     (* a class, by qualified name *)
| PyInst (cls : string) (args : list pyobj)    (* an instance built from its args *)
| PyFile (fd : nat) (closed : bool).           (* a file object *)

(** What [sys.exc_info()] gives in the child, with the traceback already
    passed through [traceback.extract_tb]: class name, value, trace. *)
Definition excinfo : Type := string * pyobj * pyobj.

Inductive pyexc :=
| Raised (etype value : pyobj)      (* [raise etype, value] *)
| TypeError (what : string)
| ValueError (what : string)
| AttributeError (attr : string)
| OSError (errno : string)
| UnpicklingError (payload : string).

(** The payload codec ([pickle.dumps(_, 1)] and [pickle.loads]) is a library
    the module imports; the embedding takes it as an interface. *)
Class Codec := {
  dumps : pyobj → excinfo + string;
  loads : string → pyexc + pyobj
}.

(** ** The operating system *)

Definition SIGKILL : Z := 9.
Definition SIGTERM : Z := 15.

(** One forked child.  Times are absolute, in milliseconds. *)
Record child := Child {
  c_reaped : bool;                 (* its exit status was collected *)
  c_end : option (nat * Z);        (* when it ends, with which wait status;
                                      [None]: it runs for ever *)
  c_out : string;                  (* unread content of its stdout pipe at EOF *)
  c_err : string;                  (* the same for its stderr pipe *)
  c_ready : option nat;            (* first write to stdout before the end *)
  c_on_term : option (nat * Z)     (* reaction to SIGTERM: it ends that many
                                      ms later with that wait status;
                                      [None]: the signal has no effect *)
}.

Definition ended (t : nat) (c : child) : bool :=
  match c_end c with
  | Some (te, _) => bool_decide (te ≤ t)%nat
  | None => false
  end.

(** When the stdout pipe first becomes readable: at the first write, or
    when every write end is closed. *)
Definition ready_time (c : child) : option nat :=
  match c_ready c, c_end c with
  | Some tr, Some (te, _) => Some (Nat.min tr te)
  | Some tr, None => Some tr
  | None, Some (te, _) => Some te
  | None, None => None
  end.

Definition readable (t : nat) (c : child) : bool :=
  match ready_time c with
  | Some tr => bool_decide (tr ≤ t)%nat
  | None => false
  end.

Inductive stream := Stdout | Stderr.

(** A Python file object over the read end of a pipe. *)
Record fileobj := File {
  f_fd : nat;
  f_pid : nat;
  f_stream : stream;
  f_closed : bool
}.

Inductive handler :=
| SIG_DFL                        (* the default action: the process ends *)
| SIG_IGN
| PyHandler (name : string)      (* some Python callable of the program *)
| Handle_sigterm.                (* this module's [_handle_sigterm] *)

Inductive event :=
| EvKill (pid : nat) (sig : Z)         (* os.kill succeeded *)
| EvReap (pid : nat) (ind : Z)         (* os.waitpid collected a status *)
| EvInstall (sig : Z) (h : handler)    (* signal.signal *)
| EvCall (h : handler) (sig : Z).      (* a signal handler was run *)

(** ** The handle object *)

Record handle := Handle {
  pid : nat;
  status : option Z;
  killsig : option Z;
  _start : nat;
  _end : option nat;
  _cread : fileobj;
  _errread : option fileobj;
  _output : list string;
  _done : bool;
  _closed : bool
}.

(** ** The world *)

Record world := World {
  procs : gmap nat child;          (* process table: the children of this process *)
  heap : gmap nat handle;          (* _CommandHandle objects, by identity *)
  _active : list nat;              (* the module global [_active] *)
  now : nat;                       (* time.time(), in ms *)
  trace : list event;              (* system calls so far, oldest first *)
  sigterm_disp : option handler;   (* signal.getsignal(SIGTERM) *)
  _PREV_SIGTERM : option handler;  (* the module global [_PREV_SIGTERM] *)
  next_id : nat                    (* next pid, object identity and descriptor *)
}.

Definition set_procs (f : gmap nat child → gmap nat child) (w : world) : world :=
  World (f (procs w)) (heap w) (_active w) (now w) (trace w) (sigterm_disp w) (_PREV_SIGTERM w) (next_id w).
Definition set_heap (f : gmap nat handle → gmap nat handle) (w : world) : world :=
  World (procs w) (f (heap w)) (_active w) (now w) (trace w) (sigterm_disp w) (_PREV_SIGTERM w) (next_id w).
Definition set_active (f : list nat → list nat) (w : world) : world :=
  World (procs w) (heap w) (f (_active w)) (now w) (trace w) (sigterm_disp w) (_PREV_SIGTERM w) (next_id w).
Definition set_now (f : nat → nat) (w : world) : world :=
  World (procs w) (heap w) (_active w) (f (now w)) (trace w) (sigterm_disp w) (_PREV_SIGTERM w) (next_id w).
Definition log (e : event) (w : world) : world :=
  World (procs w) (heap w) (_active w) (now w) (trace w ++ [e]) (sigterm_disp w) (_PREV_SIGTERM w) (next_id w).
Definition set_disp (h : option handler) (w : world) : world :=
  World (procs w) (heap w) (_active w) (now w) (trace w) h (_PREV_SIGTERM w) (next_id w).
Definition set_prev (h : option handler) (w : world) : world :=
  World (procs w) (heap w) (_active w) (now w) (trace w) (sigterm_disp w) h (next_id w).
Definition bump_id (w : world) : world :=
  World (procs w) (heap w) (_active w) (now w) (trace w) (sigterm_disp w) (_PREV_SIGTERM w) (S (next_id w)).

(** ** The monad: state, exceptions, and calls that never return *)

Inductive result (A : Type) :=
| Ret (a : A)
| Exc (e : pyexc)
| Hang.
Arguments Ret {A} a.
Arguments Exc {A} e.
Arguments Hang {A}.

Definition M (A : Type) : Type := world → result A * world.

Definition ret {A} (a : A) : M A := fun w => (Ret a, w).
Definition raise {A} (e : pyexc) : M A := fun w => (Exc e, w).
Definition hang {A} : M A := fun w => (Hang, w).
Definition bind {A B} (m : M A) (k : A → M B) : M B :=
  fun w => match m w with
           | (Ret a, w') => k a w'
           | (Exc e, w') => (Exc e, w')
           | (Hang, w') => (Hang, w')
           end.
Definition get : M world := fun w => (Ret w, w).
Definition modify (f : world → world) : M unit := fun w => (Ret tt, f w).

(** [try: m  except OSError: k] *)
Definition except_OSError {A} (m : M A) (k : M A) : M A :=
  fun w => match m w with
           | (Exc (OSError _), w') => k w'
           | r => r
           end.

#[global] Instance M_ret : MRet M := @ret.
#[global] Instance M_bind : MBind M := λ A B k m, bind m k.

(** ** System calls *)

Definition time_time : M nat := fun w => (Ret (now w), w).
Definition time_sleep (ms : nat) : M unit := modify (set_now (fun t => t + ms)%nat).

(** A child the process still has: in the table and not yet reaped. *)
Definition live_child (p : nat) (w : world) : option child :=
  match procs w !! p with
  | Some c => if c_reaped c then None else Some c
  | None => None
  end.

Definition reap (c : child) : child :=
  Child true (c_end c) (c_out c) (c_err c) (c_ready c) (c_on_term c).
Definition end_at (t : nat) (ind : Z) (c : child) : child :=
  Child (c_reaped c) (Some (t, ind)) (c_out c) (c_err c) (c_ready c) (c_on_term c).
Definition drain (s : stream) (c : child) : child :=
  match s with
  | Stdout => Child (c_reaped c) (c_end c) "" (c_err c) (c_ready c) (c_on_term c)
  | Stderr => Child (c_reaped c) (c_end c) (c_out c) "" (c_ready c) (c_on_term c)
  end.

(** [os.waitpid(p, os.WNOHANG)] *)
Definition waitpid_nohang (p : nat) : M (nat * Z) :=
  w ← get;
  match live_child p w with
  | None => raise (OSError "ECHILD")
  | Some c =>
      match c_end c with
      | Some (te, ind) =>
          if bool_decide (te ≤ now w)%nat
          then modify (set_procs <[p := reap c]>) ;; modify (log (EvReap p ind)) ;;
               ret (p, ind)
          else ret (0%nat, 0)
      | None => ret (0%nat, 0)
      end
  end.

(** [os.waitpid(p, 0)]: blocks until the child has ended. *)
Definition waitpid_block (p : nat) : M (nat * Z) :=
  w ← get;
  match live_child p w with
  | None => raise (OSError "ECHILD")
  | Some c =>
      match c_end c with
      | Some (te, ind) =>
          modify (set_now (Nat.max te)) ;;
          modify (set_procs <[p := reap c]>) ;; modify (log (EvReap p ind)) ;;
          ret (p, ind)
      | None => hang
      end
  end.

(** [os.kill(p, sig)] for the two signals the module sends.  A signal to a
    child that has already ended (a zombie) is delivered to nobody. *)
Definition os_kill (p : nat) (sig : Z) : M unit :=
  w ← get;
  match live_child p w with
  | None => raise (OSError "ESRCH")
  | Some c =>
      modify (log (EvKill p sig)) ;;
      if ended (now w) c then ret tt
      else if bool_decide (sig = SIGKILL)
      then modify (set_procs <[p := end_at (now w) SIGKILL c]>)
      else match c_on_term c with
           | Some (d, ind) =>
               match c_end c with
               | Some (te, _) =>
                   if bool_decide (te ≤ now w + d)%nat then ret tt
                   else modify (set_procs <[p := end_at (now w + d) ind c]>)
               | None => modify (set_procs <[p := end_at (now w + d) ind c]>)
               end
           | None => ret tt
           end
  end.

(** [signal.signal(SIGTERM, h)] and [signal.getsignal(SIGTERM)] *)
Definition signal_signal (h : handler) : M unit :=
  modify (set_disp (Some h)) ;; modify (log (EvInstall SIGTERM h)).
Definition signal_getsignal : M (option handler) :=
  w ← get; mret (sigterm_disp w).

(** *** Pipes and file objects *)

Definition closed_file {A} : M A := raise (ValueError "I/O operation on closed file").

Definition file_fileno (f : fileobj) : M nat :=
  if f_closed f then closed_file else mret (f_fd f).

Definition pipe_content (s : stream) (c : child) : string :=
  match s with Stdout => c_out c | Stderr => c_err c end.

(** [f.read()]: everything up to end of file, which comes when the writer
    has ended; the content is consumed. *)
Definition file_read (f : fileobj) : M string :=
  if f_closed f then closed_file
  else
    w ← get;
    match procs w !! f_pid f with
    | None => mret ""
    | Some c =>
        match c_end c with
        | None => hang
        | Some (te, _) =>
            modify (set_now (Nat.max te)) ;;
            modify (set_procs <[f_pid f := drain (f_stream f) c]>) ;;
            mret (pipe_content (f_stream f) c)
        end
    end.

Definition newline : ascii := ascii_of_nat 10.

(** Cut a text after each newline, keeping the newlines, as
    [file.readlines] does. *)
Fixpoint splitlines (s : string) : list string :=
  match s with
  | EmptyString => []
  | String c s' =>
      if bool_decide (c = newline) then String c EmptyString :: splitlines s'
      else match splitlines s' with
           | [] => [String c EmptyString]
           | l :: ls => String c l :: ls
           end
  end.

Definition file_readlines (f : fileobj) : M (list string) :=
  s ← file_read f; mret (splitlines s).

Definition file_close (f : fileobj) : fileobj :=
  File (f_fd f) (f_pid f) (f_stream f) true.

(** [select.select([f], [], [])]: blocks until [f] is readable. *)
Definition select_block (f : fileobj) : M unit :=
  w ← get;
  match procs w !! f_pid f with
  | None => mret tt
  | Some c =>
      match ready_time c with
      | Some tr => modify (set_now (Nat.max tr))
      | None => hang
      end
  end.

(** [select.select([f], [], [], 0)[0]]: is [f] readable now? *)
Definition select_now (f : fileobj) : M bool :=
  w ← get;
  match procs w !! f_pid f with
  | None => mret true
  | Some c => mret (readable (now w) c)
  end.

(** ** Objects and attributes *)

Definition with_status (v : option Z) (o : handle) : handle :=
  Handle (pid o) v (killsig o) (_start o) (_end o) (_cread o) (_errread o)
         (_output o) (_done o) (_closed o).
Definition with_killsig (v : option Z) (o : handle) : handle :=
  Handle (pid o) (status o) v (_start o) (_end o) (_cread o) (_errread o)
         (_output o) (_done o) (_closed o).
Definition with_end (v : option nat) (o : handle) : handle :=
  Handle (pid o) (status o) (killsig o) (_start o) v (_cread o) (_errread o)
         (_output o) (_done o) (_closed o).
Definition with_cread (v : fileobj) (o : handle) : handle :=
  Handle (pid o) (status o) (killsig o) (_start o) (_end o) v (_errread o)
         (_output o) (_done o) (_closed o).
Definition with_errread (v : option fileobj) (o : handle) : handle :=
  Handle (pid o) (status o) (killsig o) (_start o) (_end o) (_cread o) v
         (_output o) (_done o) (_closed o).
Definition with_output (v : list string) (o : handle) : handle :=
  Handle (pid o) (status o) (killsig o) (_start o) (_end o) (_cread o) (_errread o)
         v (_done o) (_closed o).
Definition with_done (v : bool) (o : handle) : handle :=
  Handle (pid o) (status o) (killsig o) (_start o) (_end o) (_cread o) (_errread o)
         (_output o) v (_closed o).
Definition with_closed (v : bool) (o : handle) : handle :=
  Handle (pid o) (status o) (killsig o) (_start o) (_end o) (_cread o) (_errread o)
         (_output o) (_done o) v.

(** [self.attr = v] *)
Definition setattr (self : nat) (f : handle → handle) : M unit :=
  modify (set_heap (alter f self)).

(** Reading the attributes of [self]. *)
Definition getself (self : nat) : M handle :=
  w ← get;
  match heap w !! self with
  | Some o => mret o
  | None => raise (AttributeError "_CommandHandle instance has no such attribute")
  end.

(** [l.remove(x)], guarded by [x in l] at each call site. *)
Fixpoint list_remove_first (x : nat) (l : list nat) : list nat :=
  match l with
  | [] => []
  | y :: l' => if bool_decide (y = x) then l' else y :: list_remove_first x l'
  end.

(** [if _active and self in _active: _active.remove(self)] *)
Definition unregister (self : nat) : M unit :=
  w ← get;
  if bool_decide (_active w ≠ []) && bool_decide (self ∈ _active w)
  then modify (set_active (list_remove_first self))
  else mret tt.

(** [etype, value, tb = error] *)
Definition unpack3 (error : pyobj) : pyexc + (pyobj * pyobj * pyobj) :=
  match error with
  | PyTuple [a; b; c] | PyList [a; b; c] => inr (a, b, c)
  | PyTuple _ | PyList _ => inl (ValueError "wrong number of values to unpack")
  | PyStr (String a (String b (String c EmptyString))) =>
      inr (PyStr (String a EmptyString), PyStr (String b EmptyString),
           PyStr (String c EmptyString))
  | PyStr _ => inl (ValueError "wrong number of values to unpack")
  | _ => inl (TypeError "unpack non-sequence")
  end.

(** [raise etype, value]: only a class can be raised this way. *)
Definition raise_with {A} (etype value : pyobj) : M A :=
  match etype with
  | PyGlobal _ => raise (Raised etype value)
  | _ => raise (TypeError "exceptions must be classes, instances, or string objects")
  end.

Definition wait_signal (ind : Z) : Z := Z.land ind 255.     (* ind & 0xff *)
Definition wait_status (ind : Z) : Z := Z.shiftr ind 8.     (* ind >> 8 *)

Module _CommandHandle.

(** [_CommandHandle(pid, cread, errread)].  The new object's identity
    is the result. *)
Definition __init__ (pid : nat) (cread : fileobj) (errread : option fileobj) : M nat :=
  w ← get;
  let self := next_id w in
  modify bump_id ;;
  modify (set_active (λ l, (l ++ [self])%list)) ;;
  t ← time_time;
  modify (set_heap <[self := Handle pid None None t None cread errread [] false false]>) ;;
  mret self.

(** The grace period after SIGTERM: 0.5 s. *)
Definition grace : nat := 500.

(** The polling loop of [_kill]: [Some r] when the loop returns [r],
    [None] when its condition fails.  Each round sleeps 100 ms, so
    the rounds [fuel] allows are never used up when [fuel] is at least
    the length of the grace period in ms. *)
Fixpoint _kill_loop (fuel : nat) (p : nat) (end_ : nat) : M (option Z) :=
  t ← time_time;
  if bool_decide (t < end_)%nat then
    match fuel with
    | O => hang
    | S fuel' =>
        r ← waitpid_nohang p;
        if bool_decide (r.1 = p) then mret (Some (wait_signal r.2))
        else time_sleep 100 ;; _kill_loop fuel' p end_
    end
  else mret None.

Definition _kill (self : nat) : M (option Z) :=
  o ← getself self;
  except_OSError
    (r ← waitpid_nohang (pid o);
     if bool_decide (r.1 = pid o) then mret (Some 0)       (* died *)
     else
       os_kill (pid o) SIGTERM ;;
       t ← time_time;
       let end_ := (t + grace)%nat in
       r ← _kill_loop grace (pid o) end_;
       match r with
       | Some sig => mret (Some sig)
       | None => os_kill (pid o) SIGKILL ;; mret (Some SIGKILL)
       end)
    (mret None).

Definition close (self : nat) : M unit :=
  w ← get;
  match heap w !! self with
  | None => mret tt                (* not hasattr(self, '_closed') *)
  | Some o =>
      if _closed o then mret tt
      else
        unregister self ;;
        (if negb (_done o) then
           k ← _kill self;
           setattr self (with_killsig k) ;;
           t ← time_time;
           setattr self (with_end (Some t)) ;;
           setattr self (with_status None) ;;
           setattr self (with_killsig (Some SIGTERM)) ;;
           setattr self (with_done true)
         else mret tt) ;;
        setattr self (with_output []) ;;
        setattr self (with_closed true)
  end.

Definition __del__ (self : nat) : M unit := close self.

#[global] Arguments _kill_loop : simpl never.
#[global] Opaque grace.

Definition fileno (self : nat) : M nat :=
  o ← getself self; file_fileno (_cread o).

Definition _cleanup_child `{Codec} (self : nat) : M unit :=
  o ← getself self;
  if _done o then mret tt
  else
    lines ← file_readlines (_cread o);
    setattr self (with_output lines) ;;
    setattr self (with_cread (file_close (_cread o))) ;;
    match _errread o with
    | Some f =>
        error ← file_read f;
        setattr self (with_errread (Some (file_close f))) ;;
        if bool_decide (error ≠ "") then
          match loads error with
          | inl e => raise e
          | inr v =>
              match unpack3 v with
              | inl e => raise e
              | inr (etype, value, tb) => raise_with etype value
              end
          end
        else mret tt
    | None => mret tt
    end ;;
    unregister self ;;
    r ← waitpid_block (pid o);
    setattr self (with_status (Some (wait_status r.2))) ;;
    setattr self (with_killsig (Some (wait_signal r.2))) ;;
    t ← time_time;
    setattr self (with_end (Some t)) ;;
    setattr self (with_done true).

(** [select] asks the handle for its descriptor through [fileno]. *)
Definition wait `{Codec} (self : nat) : M unit :=
  o ← getself self;
  if _done o then mret tt
  else
    fileno self ;;
    select_block (_cread o) ;;
    _cleanup_child self.

Definition poll `{Codec} (self : nat) : M bool :=
  o ← getself self;
  if _done o then mret true
  else
    fileno self ;;
    r ← select_now (_cread o);
    (if (r : bool) then _cleanup_child self else mret tt) ;;
    o ← getself self;
    mret (_done o).

Definition readline `{Codec} (self : nat) : M string :=
  wait self ;;
  o ← getself self;
  match _output o with
  | [] => mret ""
  | line :: rest => setattr self (with_output rest) ;; mret line
  end.

Definition readlines `{Codec} (self : nat) : M (list string) :=
  wait self ;;
  o ← getself self;
  setattr self (with_output []) ;;
  mret (_output o).

(** ["".join(output)] *)
Definition join (l : list string) : string := String.concat "" l.

Definition read `{Codec} (self : nat) : M string :=
  wait self ;;
  o ← getself self;
  setattr self (with_output []) ;;
  mret (join (_output o)).

(** Seconds become milliseconds; [if self._end] is false for [None]
    and for zero. *)
Definition elapsed (self : nat) : M Z :=
  o ← getself self;
  match _end o with
  | Some e => if bool_decide (e ≠ 0)%nat then mret (Z.of_nat e - Z.of_nat (_start o))
              else t ← time_time; mret (Z.of_nat t - Z.of_nat (_start o))
  | None => t ← time_time; mret (Z.of_nat t - Z.of_nat (_start o))
  end.

End _CommandHandle.

(** ** Attribute lookup, the typed-result wrapper, and calls *)

(** A [_PickleHandle] object: it holds the handle it wraps. *)
Record pickle_handle := PickleHandleObj { _cmd_handle : nat }.

Inductive attrval :=
| Datum (v : pyobj)
| CmdMethod (name : string) (self : nat)                (* bound method of _CommandHandle *)
| PickleMethod (name : string) (self : pickle_handle).  (* bound method of _PickleHandle *)

Definition py_opt {A} (f : A → pyobj) (o : option A) : pyobj :=
  match o with Some a => f a | None => PyNone end.
Definition py_bool (b : bool) : pyobj := PyInt (if b then 1 else 0).
Definition py_nat (n : nat) : pyobj := PyInt (Z.of_nat n).
Definition py_file (f : fileobj) : pyobj := PyFile (f_fd f) (f_closed f).

Definition CommandHandle_methods : list string :=
  ["__init__"; "__del__"; "_kill"; "close"; "fileno"; "readline"; "readlines";
   "read"; "wait"; "poll"; "elapsed"; "_cleanup_child"].

(** [getattr(self, attr)] on a [_CommandHandle]: the instance first, then
    the class. *)
Definition CommandHandle_getattr (self : nat) (attr : string) : M attrval :=
  o ← getself self;
  if bool_decide (attr = "pid") then mret (Datum (py_nat (pid o)))
  else if bool_decide (attr = "status") then mret (Datum (py_opt PyInt (status o)))
  else if bool_decide (attr = "killsig") then mret (Datum (py_opt PyInt (killsig o)))
  else if bool_decide (attr = "_start") then mret (Datum (py_nat (_start o)))
  else if bool_decide (attr = "_end") then mret (Datum (py_opt py_nat (_end o)))
  else if bool_decide (attr = "_cread") then mret (Datum (py_file (_cread o)))
  else if bool_decide (attr = "_errread") then mret (Datum (py_opt py_file (_errread o)))
  else if bool_decide (attr = "_output") then mret (Datum (PyList (PyStr <$> _output o)))
  else if bool_decide (attr = "_done") then mret (Datum (py_bool (_done o)))
  else if bool_decide (attr = "_closed") then mret (Datum (py_bool (_closed o)))
  else if bool_decide (attr ∈ CommandHandle_methods) then mret (CmdMethod attr self)
  else raise (AttributeError attr).

(** [attr.startswith(prefix)] *)
Fixpoint startswith (prefix attr : string) : bool :=
  match prefix, attr with
  | EmptyString, _ => true
  | String a p, String b s => bool_decide (a = b) && startswith p s
  | String _ _, EmptyString => false
  end.

Module _PickleHandle.

Definition __init__ (pid : nat) (cread : fileobj) (errread : option fileobj)
  : M pickle_handle :=
  h ← _CommandHandle.__init__ pid cread errread;
  mret (PickleHandleObj h).

(** This object does not support [readline] or [readlines]. *)
Definition __getattr__ (self : pickle_handle) (attr : string) : M attrval :=
  if startswith "readline" attr then raise (AttributeError attr)
  else CommandHandle_getattr (_cmd_handle self) attr.

(** [if not r: return r] gives back the empty string itself. *)
Definition read `{Codec} (self : pickle_handle) : M pyobj :=
  r ← _CommandHandle.read (_cmd_handle self);
  if bool_decide (r = "") then mret (PyStr r)
  else match loads r with
       | inl e => raise e
       | inr v => mret v
       end.

End _PickleHandle.

(** [getattr(self, attr)] on a [_PickleHandle]: the instance, the class,
    and only then [__getattr__]. *)
Definition PickleHandle_getattr (self : pickle_handle) (attr : string) : M attrval :=
  if bool_decide (attr = "_cmd_handle") then mret (Datum (py_nat (_cmd_handle self)))
  else if bool_decide (attr ∈ ["__init__"; "__getattr__"; "read"])
       then mret (PickleMethod attr self)
  else _PickleHandle.__getattr__ self attr.

Definition none_of (m : M unit) : M pyobj := m ;; mret PyNone.

(** [f()] for an attribute value [f]. *)
Definition call `{Codec} (f : attrval) : M pyobj :=
  match f with
  | Datum _ => raise (TypeError "object is not callable")
  | CmdMethod name self =>
      if bool_decide (name = "close") then none_of (_CommandHandle.close self)
      else if bool_decide (name = "__del__") then none_of (_CommandHandle.__del__ self)
      else if bool_decide (name = "_kill")
           then k ← _CommandHandle._kill self; mret (py_opt PyInt k)
      else if bool_decide (name = "fileno")
           then n ← _CommandHandle.fileno self; mret (py_nat n)
      else if bool_decide (name = "readline")
           then s ← _CommandHandle.readline self; mret (PyStr s)
      else if bool_decide (name = "readlines")
           then l ← _CommandHandle.readlines self; mret (PyList (PyStr <$> l))
      else if bool_decide (name = "read")
           then s ← _CommandHandle.read self; mret (PyStr s)
      else if bool_decide (name = "wait") then none_of (_CommandHandle.wait self)
      else if bool_decide (name = "poll")
           then b ← _CommandHandle.poll self; mret (py_bool b)
      else if bool_decide (name = "elapsed")
           then t ← _CommandHandle.elapsed self; mret (PyInt t)
      else if bool_decide (name = "_cleanup_child")
           then none_of (_CommandHandle._cleanup_child self)
      else raise (TypeError "wrong number of arguments")
  | PickleMethod name self =>
      if bool_decide (name = "read") then _PickleHandle.read self
      else raise (TypeError "wrong number of arguments")
  end.

(** [h.attr()] on either kind of handle. *)
Definition CommandHandle_invoke `{Codec} (self : nat) (attr : string) : M pyobj :=
  f ← CommandHandle_getattr self attr; call f.
Definition PickleHandle_invoke `{Codec} (self : pickle_handle) (attr : string) : M pyobj :=
  f ← PickleHandle_getattr self attr; call f.

(** ** Spawning *)

(** What a forked child does, as far as the parent can tell.  Durations
    are relative to the fork. *)
Record program := Program {
  prog_out : string;                 (* all it writes to descriptor 1 *)
  prog_err : string;                 (* all it writes to descriptor 2 *)
  prog_ind : Z;                      (* wait status at its end *)
  prog_runtime : option nat;         (* [None]: it does not end by itself *)
  prog_first_write : option nat;
  prog_on_term : option (nat * Z)
}.

(** Wait status after [os._exit(code)]. *)
Definition exit_ind (code : Z) : Z := Z.shiftl (Z.land code 255) 8.

(** Wait status of a child ended by signal [sig]: the signal in the low
    seven bits, and bit 7 set when the child dumped core. *)
Definition signal_ind (sig : Z) (core : bool) : Z := sig + (if core then 128 else 0).

Definition os_pipe : M (nat * nat) :=
  w ← get; modify bump_id ;; modify bump_id ;; mret (next_id w, S (next_id w)).

(** The child that runs [prog] from time [t] on. *)
Definition forked (prog : program) (t : nat) : child :=
  Child false
        ((λ d, (t + d, prog_ind prog)%nat) <$> prog_runtime prog)
        (prog_out prog) (prog_err prog)
        ((λ d, t + d)%nat <$> prog_first_write prog)
        (prog_on_term prog).

(** [os.fork()], seen from the parent. *)
Definition os_fork (prog : program) : M nat :=
  w ← get;
  modify bump_id ;;
  modify (set_procs <[next_id w := forked prog (now w)]>) ;;
  mret (next_id w).

(** [os.fdopen(fd, 'r')] on the read end of a pipe of child [p]. *)
Definition os_fdopen (fd p : nat) (s : stream) : fileobj := File fd p s false.

(** The first element of the argument vector is the path. *)
Definition argv (syscmd : string) (args : list string) : list string :=
  match args with
  | [] => syscmd :: args
  | a :: _ => if bool_decide (a ≠ syscmd) then syscmd :: args else args
  end.

(** The child of [copen_sys]: the program image when [execvp] finds one,
    and otherwise a message on descriptor 2 and [os._exit(-1)]. *)
Definition exec_child (syscmd : string) (image : option program) : program :=
  match image with
  | Some prog => prog
  | None => Program "" (syscmd ++ " could not be executed" ++ String newline "")
                    (exit_ind (-1)) (Some 0%nat) None None
  end.

(** [image] is what [execvp] finds for an argument vector. *)
Definition copen_sys (image : string → list string → option program)
    (syscmd : string) (args : list string) : M nat :=
  let args := argv syscmd args in
  rw ← os_pipe;
  erw ← os_pipe;
  p ← os_fork (exec_child syscmd (image syscmd args));
  _CommandHandle.__init__ p (os_fdopen rw.1 p Stdout) (Some (os_fdopen erw.1 p Stderr)).

(** The child of [copen_fn]: [result] is how [apply(func, args, keywords)]
    ends.  The answer is what goes to stdout, to stderr, and the wait
    status; [None] when pickling the error triple fails as well, so that
    the exception leaves [copen_fn] inside the child. *)
Definition fn_child `{Codec} (result : excinfo + pyobj) : option (string * string * Z) :=
  let attempt := match result with
                 | inr output => dumps output
                 | inl e => inl e
                 end in
  match attempt with
  | inr s => Some (s, "", exit_ind 0)
  | inl (etype, value, tb) =>
      match dumps (PyTuple [PyGlobal etype; value; tb]) with
      | inr s => Some ("", s, exit_ind (-1))
      | inl _ => None
      end
  end.

(** How a call of the function goes: its result and how long it takes
    ([None]: it does not return). *)
Record behaviour := Behaviour {
  fn_result : excinfo + pyobj;
  fn_runtime : option nat;
  fn_on_term : option (nat * Z)
}.

(** The program of the child.  When the function does not return, or
    when the exception leaves [copen_fn] inside the child, nothing comes
    through the pipes: what the child goes on to do is not this module's. *)
Definition fn_program `{Codec} (b : behaviour) : program :=
  match fn_child (fn_result b), fn_runtime b with
  | Some (out, err, ind), Some d => Program out err ind (Some d) None (fn_on_term b)
  | _, _ => Program "" "" 0 None None (fn_on_term b)
  end.

Definition copen_fn `{Codec} (func : behaviour) : M pickle_handle :=
  rw ← os_pipe;
  erw ← os_pipe;
  p ← os_fork (fn_program func);
  _PickleHandle.__init__ p (os_fdopen rw.1 p Stdout) (Some (os_fdopen erw.1 p Stderr)).

(** ** The SIGTERM hook *)

Fixpoint for_each {A} (l : list A) (body : A → M unit) : M unit :=
  match l with
  | [] => mret tt
  | x :: l' => body x ;; for_each l' body
  end.

(** [for obj in _active[:]: obj.close()] *)
Definition _cleanup : M unit :=
  w ← get; for_each (_active w) _CommandHandle.close.

Definition _handle_sigterm (signum : Z) : M unit :=
  _cleanup ;;
  w ← get;
  match _PREV_SIGTERM w with
  | Some h => signal_signal h
  | None => mret tt
  end.

(** The two statements at the end of the module, run at import. *)
Definition import_copen : M unit :=
  h ← signal_getsignal;
  modify (set_prev h) ;;
  signal_signal Handle_sigterm.

(** Running a handler. *)
Definition run_handler (h : handler) (signum : Z) : M unit :=
  modify (log (EvCall h signum)) ;;
  match h with
  | Handle_sigterm => _handle_sigterm signum
  | _ => mret tt
  end.

(** The process receives SIGTERM. *)
Definition receive_SIGTERM : M unit :=
  w ← get;
  match sigterm_disp w with
  | Some h => run_handler h SIGTERM
  | None => run_handler SIG_DFL SIGTERM
  end.

(** The hook as the specification words it: close every live handle, then
    invoke the handler that was installed before. *)
Definition spec_handle_sigterm (signum : Z) : M unit :=
  _cleanup ;;
  w ← get;
  match _PREV_SIGTERM w with
  | Some h => modify (log (EvCall h signum))
  | None => mret tt
  end.

(** *** A signal that arrives during [close()]

    A handler installed with [signal.signal] runs between two bytecodes
    of the call in progress.  In [close] the test [self in _active] and
    the call [_active.remove(self)] are two statements, and
    [list.remove] raises when the element is not there. *)

(** [_active.remove(self)] *)
Definition list_remove (self : nat) : M unit :=
  w ← get;
  if bool_decide (self ∈ _active w)
  then modify (set_active (list_remove_first self))
  else raise (ValueError "list.remove(x): x not in list").

(** [if _active and self in _active: _active.remove(self)], with what
    runs between the test and the removal: [mret tt] when nothing does,
    the handler when a signal arrives there. *)
Definition unregister_split (between : M unit) (self : nat) : M unit :=
  w ← get;
  if bool_decide (_active w ≠ []) && bool_decide (self ∈ _active w)
  then between ;; list_remove self
  else mret tt.

(** [close()] with [between] run between lines 181 and 182; the
    attributes are read by the statement that uses them. *)
Definition close_split (between : M unit) (self : nat) : M unit :=
  w ← get;
  match heap w !! self with
  | None => mret tt
  | Some o =>
      if _closed o then mret tt
      else
        unregister_split between self ;;
        o1 ← getself self;
        (if negb (_done o1) then
           k ← _CommandHandle._kill self;
           setattr self (with_killsig k) ;;
           t ← time_time;
           setattr self (with_end (Some t)) ;;
           setattr self (with_status None) ;;
           setattr self (with_killsig (Some SIGTERM)) ;;
           setattr self (with_done true)
         else mret tt) ;;
        setattr self (with_output []) ;;
        setattr self (with_closed true)
  end.

(** The interpreter before any import, with SIGTERM handled by [h]. *)
Definition boot (h : option handler) : world := World ∅ ∅ [] 0 [] h None 1.

(** Time passes. *)
Definition tick (ms : nat) (w : world) : world := set_now (λ t, t + ms)%nat w.

(** ** A reference codec

    An instance of the codec interface to run the module on: a fragment of
    the pickle stack machine (protocol 1, without the memo).  None, small
    integers, short strings, lists, tuples, classes by name and instances
    built from a class and its arguments can be pickled; files cannot. *)
Module RefCodec.

Definition chr (n : nat) : string := String (ascii_of_nat n) "".

Definition PicklingError (v : pyobj) : excinfo :=
  ("pickle.PicklingError", PyInst "pickle.PicklingError" [PyStr "can't pickle object"],
   PyList []).

Fixpoint save (v : pyobj) : option string :=
  let save_all :=
    fix save_all (l : list pyobj) : option string :=
      match l with
      | [] => Some ""
      | x :: l' =>
          match save x, save_all l' with
          | Some a, Some b => Some (a ++ b)
          | _, _ => None
          end
      end in
  match v with
  | PyNone => Some "N"
  | PyInt n =>
      if bool_decide (0 ≤ n < 256) then Some ("K" ++ chr (Z.to_nat n)) else None
  | PyStr s =>
      if bool_decide (String.length s < 256)%nat
      then Some ("U" ++ chr (String.length s) ++ s) else None
  | PyList [] => Some "]"
  | PyList l => (λ items, "](" ++ items ++ "e") <$> save_all l
  | PyTuple l => (λ items, "(" ++ items ++ "t") <$> save_all l
  | PyGlobal name => Some ("c" ++ name ++ String newline "")
  | PyInst cls args =>
      (λ items, "c" ++ cls ++ String newline "" ++ "(" ++ items ++ "tR") <$> save_all args
  | PyFile _ _ => None
  end.

Definition ref_dumps (v : pyobj) : excinfo + string :=
  match save v with
  | Some s => inr (s ++ ".")
  | None => inl (PicklingError v)
  end.

Inductive item := Val (v : pyobj) | Mark.

(** The values above the topmost mark, oldest first, and the rest. *)
Fixpoint pop_mark (stack : list item) (acc : list pyobj)
  : option (list pyobj * list item) :=
  match stack with
  | [] => None
  | Mark :: rest => Some (acc, rest)
  | Val v :: rest => pop_mark rest (v :: acc)
  end.

Fixpoint split_at (n : nat) (s : string) : option (string * string) :=
  match n, s with
  | O, _ => Some ("", s)
  | S n', String c s' => (λ p, (String c p.1, p.2)) <$> split_at n' s'
  | S _, EmptyString => None
  end.

(** Up to the next newline, and what follows it. *)
Fixpoint read_line (s : string) : option (string * string) :=
  match s with
  | EmptyString => None
  | String c s' =>
      if bool_decide (c = newline) then Some ("", s')
      else (λ p, (String c p.1, p.2)) <$> read_line s'
  end.

Fixpoint load (fuel : nat) (stack : list item) (s : string) : option pyobj :=
  match fuel, s with
  | S fuel', String op s' =>
      if bool_decide (op = "N"%char) then load fuel' (Val PyNone :: stack) s'
      else if bool_decide (op = "K"%char) then
        match s' with
        | String c s'' => load fuel' (Val (PyInt (Z.of_nat (nat_of_ascii c))) :: stack) s''
        | EmptyString => None
        end
      else if bool_decide (op = "U"%char) then
        match s' with
        | String c s'' =>
            match split_at (nat_of_ascii c) s'' with
            | Some (str, rest) => load fuel' (Val (PyStr str) :: stack) rest
            | None => None
            end
        | EmptyString => None
        end
      else if bool_decide (op = "]"%char) then load fuel' (Val (PyList []) :: stack) s'
      else if bool_decide (op = "("%char) then load fuel' (Mark :: stack) s'
      else if bool_decide (op = "t"%char) then
        match pop_mark stack [] with
        | Some (items, rest) => load fuel' (Val (PyTuple items) :: rest) s'
        | None => None
        end
      else if bool_decide (op = "e"%char) then
        match pop_mark stack [] with
        | Some (items, Val (PyList l) :: rest) =>
            load fuel' (Val (PyList (l ++ items)) :: rest) s'
        | _ => None
        end
      else if bool_decide (op = "c"%char) then
        match read_line s' with
        | Some (name, rest) => load fuel' (Val (PyGlobal name) :: stack) rest
        | None => None
        end
      else if bool_decide (op = "R"%char) then
        match stack with
        | Val (PyTuple args) :: Val (PyGlobal cls) :: rest =>
            load fuel' (Val (PyInst cls args) :: rest) s'
        | _ => None
        end
      else if bool_decide (op = "."%char) then
        match stack with
        | Val v :: _ => Some v
        | _ => None
        end
      else None
  | _, _ => None
  end.

Definition ref_loads (s : string) : pyexc + pyobj :=
  match load (String.length s) [] s with
  | Some v => inr v
  | None => inl (UnpicklingError s)
  end.

Definition codec : Codec := {| dumps := ref_dumps; loads := ref_loads |}.

End RefCodec.

(** * The vocabulary of the properties *)

(** ** Programs of the caller *)

(** Everything the interpreter can do with the module. *)
Inductive op :=
| Import                                         (* import Bio.MultiProc.copen *)
| Copen_sys (image : string → list string → option program)
            (syscmd : string) (args : list string)
| Copen_fn (func : behaviour)
| Close (h : nat)
| Wait (h : nat)
| Poll (h : nat)
| Read (h : nat)
| Readline (h : nat)
| Readlines (h : nat)
| Elapsed (h : nat)
| Fileno (h : nat)
| PickleRead (h : nat)
| Sigterm                                        (* SIGTERM arrives *)
| Tick (ms : nat).                               (* time passes *)

Definition run_op `{Codec} (o : op) (w : world) : world :=
  match o with
  | Import => (import_copen w).2
  | Copen_sys image syscmd args => (copen_sys image syscmd args w).2
  | Copen_fn func => (copen_fn func w).2
  | Close h => (_CommandHandle.close h w).2
  | Wait h => (_CommandHandle.wait h w).2
  | Poll h => (_CommandHandle.poll h w).2
  | Read h => (_CommandHandle.read h w).2
  | Readline h => (_CommandHandle.readline h w).2
  | Readlines h => (_CommandHandle.readlines h w).2
  | Elapsed h => (_CommandHandle.elapsed h w).2
  | Fileno h => (_CommandHandle.fileno h w).2
  | PickleRead h => (_PickleHandle.read (PickleHandleObj h) w).2
  | Sigterm => (receive_SIGTERM w).2
  | Tick ms => tick ms w
  end.

Definition run `{Codec} (ops : list op) (w : world) : world :=
  foldl (λ w o, run_op o w) w ops.

(** The worlds a program can be in: it starts the interpreter and then
    does one thing after the other. *)
Definition reachable `{Codec} (w : world) : Prop :=
  ∃ h0 ops, w = run ops (boot h0).

(** The four calls that can trigger completion handling or close. *)
Inductive method := M_close | M_wait | M_poll | M_read.

Definition on (h : nat) (m : method) : op :=
  match m with
  | M_close => Close h
  | M_wait => Wait h
  | M_poll => Poll h
  | M_read => Read h
  end.

(** What the caller may do with a handle before its first [read()]
    without touching the output: let time pass, wait, or poll. *)
Inductive prelude := Before_pass (ms : nat) | Before_wait | Before_poll.

Definition prelude_op (h : nat) (p : prelude) : op :=
  match p with
  | Before_pass ms => Tick ms
  | Before_wait => Wait h
  | Before_poll => Poll h
  end.

(** What the caller does while the child runs: let time pass ([Some ms])
    or poll ([None]). *)
Definition idle_op (h : nat) (a : option nat) : op :=
  match a with
  | Some ms => Tick ms
  | None => Poll h
  end.

(** The parent-side calls that force or observe completion. *)
Inductive reader := R_wait | R_poll | R_read | R_readline | R_readlines.

Definition call_reader `{Codec} (r : reader) (self : nat) : M pyobj :=
  match r with
  | R_wait => none_of (_CommandHandle.wait self)
  | R_poll => b ← _CommandHandle.poll self; mret (py_bool b)
  | R_read => s ← _CommandHandle.read self; mret (PyStr s)
  | R_readline => s ← _CommandHandle.readline self; mret (PyStr s)
  | R_readlines => l ← _CommandHandle.readlines self; mret (PyList (PyStr <$> l))
  end.

(** The calls [rs] one after the other, whatever each one answers. *)
Fixpoint call_readers `{Codec} (rs : list reader) (self : nat) (w : world)
  : list (result pyobj) * world :=
  match rs with
  | [] => ([], w)
  | r :: rs' =>
      let (x, w1) := call_reader r self w in
      let (xs, w2) := call_readers rs' self w1 in
      (x :: xs, w2)
  end.







(** ** States of a handle *)

(** A handle is in the Closed state. *)
Definition is_closed (w : world) (h : nat) : Prop :=
  ∃ o, heap w !! h = Some o ∧ _closed o = true.

(** The handle as the spawners build it. *)
Definition new_handle (p fd efd t : nat) : handle :=
  Handle p None None t None (File fd p Stdout false) (Some (File efd p Stderr false))
         [] false false.

(** A handle before completion handling: not done, both streams open on
    the pipes of its child, the child not reaped. *)
Definition pending (w : world) (self : nat) (o : handle) (c : child) : Prop :=
  heap w !! self = Some o
  ∧ _done o = false
  ∧ (∃ fd, _cread o = File fd (pid o) Stdout false)
  ∧ (∃ fd, _errread o = Some (File fd (pid o) Stderr false))
  ∧ procs w !! pid o = Some c
  ∧ c_reaped c = false.

(** The child once both pipes are read, reaped or not. *)
Definition drained (reaped : bool) (c : child) : child :=
  Child reaped (c_end c) "" "" (c_ready c) (c_on_term c).

(** The handle object once [close] has run, when it ran at time [t]. *)
Definition closed_handle (o : handle) (t : nat) : handle :=
  if _done o then with_closed true (with_output [] o)
  else Handle (pid o) None (Some SIGTERM) (_start o) (Some t) (_cread o) (_errread o)
              [] true true.

(** The handle after a completion handling that went through, at [t]. *)
Definition done_handle (o : handle) (c : child) (ind : Z) (t : nat) : handle :=
  Handle (pid o) (Some (wait_status ind)) (Some (wait_signal ind)) (_start o) (Some t)
         (file_close (_cread o)) (file_close <$> _errread o) (splitlines (c_out c))
         true (_closed o).

(** The handle after a completion handling that raised. *)
Definition broken_handle (o : handle) (c : child) : handle :=
  Handle (pid o) (status o) (killsig o) (_start o) (_end o)
         (file_close (_cread o)) (file_close <$> _errread o) (splitlines (c_out c))
         false (_closed o).

(** The exception the parent raises for a payload read from stderr. *)
Definition child_error `{Codec} (payload : string) : pyexc :=
  match loads payload with
  | inl e => e
  | inr v =>
      match unpack3 v with
      | inl e => e
      | inr (PyGlobal cls, value, _) => Raised (PyGlobal cls) value
      | inr _ => TypeError "exceptions must be classes, instances, or string objects"
      end
  end.

Definition closed_file_error : pyexc := ValueError "I/O operation on closed file".

(** The child's output [s] is in the pipe or in the handle's buffer. *)
Definition holds_output (w : world) (h : nat) (s : string) : Prop :=
  (∃ o c te ind, pending w h o c ∧ c_end c = Some (te, ind)
                 ∧ c_out c = s ∧ c_err c = "")
  ∨ (∃ o, heap w !! h = Some o ∧ _done o = true ∧ _CommandHandle.join (_output o) = s).


(** ** Frames and the registry invariant *)

(** The handlers run so far. *)
Definition is_call (e : event) : bool :=
  match e with EvCall _ _ => true | _ => false end.
Definition handler_calls (t : list event) : list event := filter is_call t.

(** What a system call leaves alone: the interpreter's side of the world,
    and no signal handler runs. *)
Definition same_py (w w' : world) : Prop :=
  heap w' = heap w ∧ _active w' = _active w ∧ next_id w' = next_id w
  ∧ sigterm_disp w' = sigterm_disp w ∧ _PREV_SIGTERM w' = _PREV_SIGTERM w
  ∧ handler_calls (trace w') = handler_calls (trace w).

Definition os_call {A} (m : M A) : Prop := ∀ w, same_py w (m w).2.

Definition registry_inv (w : world) : Prop :=
  NoDup (_active w)
  ∧ (∀ h, h ∈ _active w → h < next_id w)%nat
  ∧ (∀ h, is_closed w h → h ∉ _active w).

Definition preserves {A} (m : M A) : Prop :=
  ∀ w, registry_inv w → registry_inv (m w).2.

(** ** The wrapper's attributes *)

(** The attributes the specification lists as forwarded. *)
Definition forwarded : list string :=
  ["close"; "wait"; "poll"; "elapsed"; "fileno"; "pid"; "status"; "killsig"].

(** ** Scenarios *)

Definition ZeroDivisionError : excinfo :=
  ("exceptions.ZeroDivisionError",
   PyInst "exceptions.ZeroDivisionError" [PyStr "integer division or modulo by zero"],
   PyList [PyTuple [PyStr "job.py"; PyInt 3; PyStr "ratio"; PyStr "return a / b"]]).

Definition app_handler : handler := PyHandler "app.on_sigterm".

(** The interpreter after [import Bio.MultiProc.copen], in a program that
    had its own SIGTERM handler. *)
Definition loaded : world := (import_copen (boot (Some app_handler))).2.

Definition image_of (prog : program) : string → list string → option program :=
  λ _ _, Some prog.

(** A command that ignores SIGTERM and does not end by itself. *)
Definition stubborn : program := Program "" "" 0 None None None.

(** A command that prints two lines and exits 0 after 20 ms; a SIGTERM
    would end it 10 ms later. *)
Definition echo : program :=
  Program ("abc" ++ String newline "de") "" (exit_ind 0) (Some 20%nat) None
          (Some (10%nat, SIGTERM)).

(** A command that complains on descriptor 2 and exits 1. *)
Definition grumble : program :=
  Program "" ("ls: cannot access nowhere" ++ String newline "") (exit_ind 1)
          (Some 20%nat) None None.

(** Each scenario spawns one child: pid 5, handle object 6. *)
Definition w_stubborn : world := (copen_sys (image_of stubborn) "sleep" ["1000"] loaded).2.
Definition w_echo : world := (copen_sys (image_of echo) "echo" ["abc"] loaded).2.
Definition w_grumble : world := (copen_sys (image_of grumble) "ls" ["nowhere"] loaded).2.


(** A callable that returns 42 after 20 ms, and one that divides by zero. *)
Definition answer : behaviour := Behaviour (inr (PyInt 42)) (Some 20%nat) None.


Definition w_answer : world := (copen_fn (H := RefCodec.codec) answer loaded).2.

(** ** Repeated calls *)

(** [n] calls of [readline()], one after the other: what each returns. *)
Fixpoint readline_times `{Codec} (n : nat) (self : nat) (w : world)
  : list (result string) * world :=
  match n with
  | O => ([], w)
  | S n' =>
      let (x, w1) := _CommandHandle.readline self w in
      let (xs, w2) := readline_times n' self w1 in
      (x :: xs, w2)
  end.

(** ** More scenarios *)

(** A command that cannot be executed. *)
Definition w_missing : world := (copen_sys (λ _ _, None) "frobnicate" [] loaded).2.



(** A command ended by SIGSEGV after 20 ms, with a core dump. *)
Definition segfault : program :=
  Program "" "" (signal_ind 11 true) (Some 20%nat) None None.
Definition w_segfault : world := (copen_sys (image_of segfault) "crash" [] loaded).2.

(** A command that writes a first line after 5 ms and ends after a second. *)
Definition slow : program :=
  Program ("tick" ++ String newline "tock") "" (exit_ind 0) (Some 1000%nat) (Some 5%nat) None.
Definition w_slow : world := (copen_sys (image_of slow) "slow" [] loaded).2.

(** ** Life cycle of a handle *)

(** Every run of [m] relates the world before to the world after. *)
Definition steps {A} (R : world → world → Prop) (m : M A) : Prop :=
  ∀ w, R w (m w).2.

(** The clock does not go back. *)
Definition clock_le (w w' : world) : Prop := (now w ≤ now w')%nat.

(** What a method of [self] leaves alone: the clock does not go back, no
    identity is handed out, and the other handles stay as they are. *)
Definition frame (self : nat) (w w' : world) : Prop :=
  next_id w' = next_id w
  ∧ (now w ≤ now w')%nat
  ∧ (∀ h, h ≠ self → heap w' !! h = heap w !! h).

(** How the attributes of one handle can change during a call that ends
    at time [t]: the child and the start never change, Closed and Done
    are final, the outcome is fixed once Done, and it is recorded at the
    moment the handle becomes Done. *)
Definition ages (t : nat) (o o' : handle) : Prop :=
  pid o' = pid o ∧ _start o' = _start o
  ∧ (_closed o = true → _closed o' = true)
  ∧ (_done o = true →
     _done o' = true ∧ status o' = status o ∧ killsig o' = killsig o ∧ _end o' = _end o)
  ∧ (_done o' = false →
     _closed o' = _closed o ∧ status o' = status o ∧ killsig o' = killsig o
     ∧ _end o' = _end o)
  ∧ (_done o = false → _done o' = true → _end o' = Some t).

(** What a method of [self] does to [self] and to the registry: the
    handle ages, and when it becomes Done or Closed it leaves the
    registry. *)
Definition self_step (self : nat) (w w' : world) : Prop :=
  match heap w !! self with
  | None => heap w' !! self = None ∧ _active w' = _active w
  | Some o =>
      ∃ o', heap w' !! self = Some o' ∧ ages (now w') o o'
            ∧ ((_done o' = _done o ∧ _closed o' = _closed o ∧ _active w' = _active w)
               ∨ _active w' = list_remove_first self (_active w))
  end.

(** The invariant of the life cycle. *)
Definition lifecycle_inv (w : world) : Prop :=
  NoDup (_active w)
  ∧ (∀ h, h ∈ _active w → ∃ o, heap w !! h = Some o ∧ _done o = false)
  ∧ (∀ h o, heap w !! h = Some o →
       (h < next_id w)%nat
       ∧ (_closed o = true → _done o = true)
       ∧ (_start o ≤ now w)%nat
       ∧ (∀ t, _end o = Some t → _start o ≤ t ≤ now w)%nat
       ∧ (if _done o then is_Some (_end o)
          else status o = None ∧ killsig o = None ∧ _end o = None)).

(** Between two moments of a handle's life, however far apart. *)
Definition older (o o' : handle) : Prop :=
  pid o' = pid o ∧ _start o' = _start o
  ∧ (_closed o = true → _closed o' = true)
  ∧ (_done o = true →
     _done o' = true ∧ status o' = status o ∧ killsig o' = killsig o ∧ _end o' = _end o).

(** Later worlds: no handle disappears, and each one is older. *)
Definition grows (w w' : world) : Prop :=
  (now w ≤ now w')%nat
  ∧ ∀ h o, heap w !! h = Some o → ∃ o', heap w' !! h = Some o' ∧ older o o'.

(** The signal handlers stay as they are. *)
Definition handlers_kept (w w' : world) : Prop :=
  sigterm_disp w' = sigterm_disp w ∧ _PREV_SIGTERM w' = _PREV_SIGTERM w.

(** * Properties *)

(** ** The reference codec at work *)

Example pickle_42 : RefCodec.ref_dumps (PyInt 42) = inr "K*.".
Proof. reflexivity. Qed.

Example unpickle_42 : RefCodec.ref_loads "K*." = inr (PyInt 42).
Proof. reflexivity. Qed.

Example pickle_error_triple :
  let '(etype, value, tb) := ZeroDivisionError in
  ∃ s, RefCodec.ref_dumps (PyTuple [PyGlobal etype; value; tb]) = inr s
       ∧ RefCodec.ref_loads s = inr (PyTuple [PyGlobal etype; value; tb]).
Proof. eexists. split; vm_compute; reflexivity. Qed.

(** ** Lines *)

Lemma append_String c (l s : string) : String c l ++ s = String c (l ++ s).
Proof. reflexivity. Qed.

Lemma append_empty_r (l : string) : l ++ "" = l.
Proof. induction l as [|c l IH]; [done |]. by rewrite append_String, IH. Qed.

Lemma join_cons (l : string) (ls : list string) :
  _CommandHandle.join (l :: ls) = l ++ _CommandHandle.join ls.
Proof.
  unfold _CommandHandle.join. destruct ls as [|l' ls]; simpl; [| done].
  by rewrite append_empty_r.
Qed.

(** Joining the lines of a text gives the text back. *)
Lemma join_splitlines (s : string) : _CommandHandle.join (splitlines s) = s.
Proof.
  induction s as [|c s IH]; [done |].
  simpl. case_bool_decide.
  - by rewrite join_cons, IH.
  - destruct (splitlines s) as [|l ls].
    + simpl in IH. by rewrite <- IH.
    + rewrite join_cons in *. by rewrite append_String, IH.
Qed.

(** ** Running computations *)

Ltac unmonad :=
  unfold mbind, M_bind, mret, M_ret, bind, ret, raise, hang, get, modify,
    except_OSError, closed_file in *.

Lemma same_py_refl w : same_py w w.
Proof. by repeat split. Qed.

Lemma same_py_trans w1 w2 w3 : same_py w1 w2 → same_py w2 w3 → same_py w1 w3.
Proof. unfold same_py. intros (?&?&?&?&?&?) (?&?&?&?&?&?). repeat split; congruence. Qed.

Lemma os_call_bind {A B} (m : M A) (k : A → M B) :
  os_call m → (∀ a, os_call (k a)) → os_call (m ≫= k).
Proof.
  intros Hm Hk w. unmonad. specialize (Hm w).
  destruct (m w) as [[a| |] w1]; simpl in *; [|done..].
  eapply same_py_trans; [exact Hm | apply Hk].
Qed.

Lemma os_call_ret {A} (a : A) : os_call (mret a).
Proof. intros w. apply same_py_refl. Qed.
Lemma os_call_raise {A} e : os_call (@raise A e).
Proof. intros w. apply same_py_refl. Qed.
Lemma os_call_hang {A} : os_call (@hang A).
Proof. intros w. apply same_py_refl. Qed.
Lemma os_call_get : os_call get.
Proof. intros w. apply same_py_refl. Qed.
Lemma os_call_procs f : os_call (modify (set_procs f)).
Proof. intros w. by repeat split. Qed.
Lemma os_call_now f : os_call (modify (set_now f)).
Proof. intros w. by repeat split. Qed.
Lemma os_call_log e : is_call e = false → os_call (modify (log e)).
Proof.
  intros He w. repeat split; simpl. unfold handler_calls.
  rewrite filter_app, filter_cons_False, filter_nil, app_nil_r; [done |].
  rewrite He. intros [].
Qed.

Lemma os_call_except {A} (m k : M A) :
  os_call m → os_call k → os_call (except_OSError m k).
Proof.
  intros Hm Hk w. unfold except_OSError. specialize (Hm w).
  destruct (m w) as [[a|[]|] w1]; simpl in *; try done.
  eapply same_py_trans; [exact Hm | apply Hk].
Qed.

Ltac os_call_step :=
  first
    [ apply os_call_ret | apply os_call_raise | apply os_call_hang
    | apply os_call_get | apply os_call_procs | apply os_call_now
    | apply os_call_log; reflexivity
    | apply os_call_bind; [| intros ?]
    | apply os_call_except
    | match goal with
      | |- os_call (match ?x with _ => _ end) => destruct x
      end ].

Lemma os_call_time_time : os_call time_time.
Proof. intros w. apply same_py_refl. Qed.
Lemma os_call_time_sleep n : os_call (time_sleep n).
Proof. apply os_call_now. Qed.
Lemma os_call_waitpid_nohang p : os_call (waitpid_nohang p).
Proof. unfold waitpid_nohang. repeat os_call_step. Qed.
Lemma os_call_waitpid_block p : os_call (waitpid_block p).
Proof. unfold waitpid_block. repeat os_call_step. Qed.
Lemma os_call_kill p sig : os_call (os_kill p sig).
Proof. unfold os_kill. repeat os_call_step. Qed.
Lemma os_call_file_read f : os_call (file_read f).
Proof. unfold file_read, closed_file. repeat os_call_step. Qed.
Lemma os_call_file_readlines f : os_call (file_readlines f).
Proof. unfold file_readlines. apply os_call_bind; [apply os_call_file_read | intros; apply os_call_ret]. Qed.
Lemma os_call_file_fileno f : os_call (file_fileno f).
Proof. unfold file_fileno, closed_file. repeat os_call_step. Qed.
Lemma os_call_select_block f : os_call (select_block f).
Proof. unfold select_block. repeat os_call_step. Qed.
Lemma os_call_select_now f : os_call (select_now f).
Proof. unfold select_now. repeat os_call_step. Qed.

Lemma os_call_getself self : os_call (getself self).
Proof. unfold getself. repeat os_call_step. Qed.

Lemma os_call_kill_loop fuel p e : os_call (_CommandHandle._kill_loop fuel p e).
Proof.
  induction fuel as [|fuel IH]; simpl.
  - apply os_call_bind; [apply os_call_time_time | intros t].
    repeat os_call_step.
  - apply os_call_bind; [apply os_call_time_time | intros t].
    destruct (bool_decide _); [| apply os_call_ret].
    apply os_call_bind; [apply os_call_waitpid_nohang | intros r].
    destruct (bool_decide _); [apply os_call_ret |].
    apply os_call_bind; [apply os_call_time_sleep | intros _]. apply IH.
Qed.

Lemma os_call__kill self : os_call (_CommandHandle._kill self).
Proof.
  unfold _CommandHandle._kill.
  apply os_call_bind; [apply os_call_getself | intros o].
  apply os_call_except; [| apply os_call_ret].
  apply os_call_bind; [apply os_call_waitpid_nohang | intros r].
  destruct (bool_decide _); [apply os_call_ret |].
  apply os_call_bind; [apply os_call_kill | intros _].
  apply os_call_bind; [apply os_call_time_time | intros t].
  cbv zeta. apply os_call_bind; [apply os_call_kill_loop | intros r'].
  destruct r'; [apply os_call_ret |].
  apply os_call_bind; [apply os_call_kill | intros _]. apply os_call_ret.
Qed.

(** ** The kill sequence ends *)

Lemma waitpid_nohang_cases p w :
  (∃ s, waitpid_nohang p w = (Exc (OSError s), w))
  ∨ (∃ r w', waitpid_nohang p w = (Ret r, w') ∧ now w' = now w).
Proof.
  unfold waitpid_nohang. unmonad.
  destruct (live_child p w) as [c|]; [| by left; eexists].
  right. destruct (c_end c) as [[te ind]|]; [| by eexists _, _].
  case_bool_decide; by eexists _, _.
Qed.

Lemma os_kill_cases p sig w :
  (∃ s, os_kill p sig w = (Exc (OSError s), w))
  ∨ (∃ w', os_kill p sig w = (Ret tt, w') ∧ now w' = now w).
Proof.
  unfold os_kill. unmonad.
  destruct (live_child p w) as [c|]; [| by left; eexists].
  right. simpl. destruct (ended _ _); [by eexists |].
  case_bool_decide; [by eexists |].
  destruct (c_on_term c) as [[d ind]|]; [| by eexists].
  destruct (c_end c) as [[te ?]|]; [| by eexists].
  case_bool_decide; by eexists.
Qed.

Lemma _kill_loop_unfold fuel p e :
  _CommandHandle._kill_loop fuel p e =
  (t ← time_time;
   if bool_decide (t < e)%nat then
     match fuel with
     | O => hang
     | S fuel' =>
         r ← waitpid_nohang p;
         if bool_decide (r.1 = p) then mret (Some (wait_signal r.2))
         else time_sleep 100 ;; _CommandHandle._kill_loop fuel' p e
     end
   else mret None).
Proof. by destruct fuel. Qed.

(** With a round of fuel for each 100 ms left, the loop returns or
    leaves by an [OSError]; it never runs out of rounds. *)
Lemma _kill_loop_ends fuel p e w :
  (e ≤ now w + 100 * fuel)%nat →
  ∃ w', (∃ r, _CommandHandle._kill_loop fuel p e w = (Ret r, w'))
        ∨ (∃ s, _CommandHandle._kill_loop fuel p e w = (Exc (OSError s), w')).
Proof.
  revert w. induction fuel as [|fuel IH]; intros w Hfuel;
    rewrite _kill_loop_unfold; unfold time_time; unmonad.
  - rewrite bool_decide_false by lia. eauto.
  - case_bool_decide; [| eauto].
    destruct (waitpid_nohang_cases p w) as [[s ->]|(r & w1 & -> & Hnow)]; [eauto |].
    case_bool_decide; [eauto |].
    unfold time_sleep. unmonad.
    apply IH. simpl. lia.
Qed.

Lemma _kill_returns self w o :
  heap w !! self = Some o →
  ∃ k w', _CommandHandle._kill self w = (Ret k, w') ∧ same_py w w'.
Proof.
  intros Ho.
  assert (∃ k w', _CommandHandle._kill self w = (Ret k, w')) as (k & w' & Hk).
  { unfold _CommandHandle._kill, getself. unmonad. rewrite Ho.
    destruct (waitpid_nohang_cases (pid o) w) as [[s ->]|(r & w1 & -> & Hnow1)]; [eauto |].
    case_bool_decide; [eauto |].
    destruct (os_kill_cases (pid o) SIGTERM w1) as [[s ->]|(w2 & -> & Hnow2)]; [eauto |].
    unfold time_time at 1. cbv zeta.
    destruct (_kill_loop_ends _CommandHandle.grace (pid o) (now w2 + _CommandHandle.grace) w2)
      as (w3 & [[r' ->]|[s ->]]); [lia | | eauto].
    destruct r' as [sig|]; [eauto |].
    destruct (os_kill_cases (pid o) SIGKILL w3) as [[s ->]|(w4 & -> & Hnow4)]; eauto. }
  exists k, w'. split; [done |].
  pose proof (os_call__kill self w) as H. by rewrite Hk in H.
Qed.

(** ** What [close] does *)

Lemma alter_as_insert {A} (f : A → A) (i : nat) (m : gmap nat A) (x : A) :
  m !! i = Some x → alter f i m = <[i := f x]> m.
Proof.
  intros Hi. apply map_eq. intros j. destruct (decide (i = j)) as [->|Hne].
  - by rewrite lookup_alter_eq, lookup_insert_eq, Hi.
  - by rewrite lookup_alter_ne, lookup_insert_ne.
Qed.

Lemma list_remove_first_notin x l : x ∉ l → list_remove_first x l = l.
Proof.
  induction l as [|y l IH]; [done |]. intros Hx. simpl.
  rewrite bool_decide_false by (intros ->; apply Hx; left).
  f_equal. apply IH. intros ?. apply Hx. by right.
Qed.

Lemma unregister_spec self w :
  unregister self w = (Ret tt, set_active (list_remove_first self) w).
Proof.
  unfold unregister. unmonad.
  assert (∀ l, l = _active w → set_active (λ _, l) w = w) as Hid.
  { intros l ->. by destruct w. }
  destruct (decide (self ∈ _active w)) as [Hin|Hout].
  - rewrite (bool_decide_true (self ∈ _)) by done.
    rewrite bool_decide_true; [done |]. intros Hnil. rewrite Hnil in Hin. inversion Hin.
  - rewrite (bool_decide_false (self ∈ _)) by done. rewrite andb_false_r.
    rewrite <- (Hid (list_remove_first self (_active w))) at 1;
      [done | by apply list_remove_first_notin].
Qed.

Lemma close_open self w o :
  heap w !! self = Some o → _closed o = false →
  ∃ w', _CommandHandle.close self w = (Ret tt, w')
        ∧ heap w' = <[self := closed_handle o (now w')]> (heap w)
        ∧ _active w' = list_remove_first self (_active w)
        ∧ next_id w' = next_id w
        ∧ sigterm_disp w' = sigterm_disp w
        ∧ _PREV_SIGTERM w' = _PREV_SIGTERM w
        ∧ handler_calls (trace w') = handler_calls (trace w)
        ∧ (_done o = true → procs w' = procs w ∧ now w' = now w ∧ trace w' = trace w).
Proof.
  intros Ho Hopen. unfold _CommandHandle.close. unmonad. rewrite Ho, Hopen.
  rewrite unregister_spec. unfold closed_handle.
  destruct (_done o) eqn:Hdone; simpl.
  - eexists. split; [done |]. simpl.
    repeat split; try done.
    rewrite !alter_alter_eq. by rewrite (alter_as_insert _ _ _ o).
  - destruct (_kill_returns self (set_active (list_remove_first self) w) o)
      as (k & w1 & -> & Hh & Ha & Hn & Hd & Hp & Hc); [done |].
    simpl in *. eexists. split; [done |]. simpl.
    repeat split; try done.
    rewrite !alter_alter_eq, Hh. by rewrite (alter_as_insert _ _ _ o).
Qed.

Lemma close_closed self w o :
  heap w !! self = Some o → _closed o = true →
  _CommandHandle.close self w = (Ret tt, w).
Proof. intros Ho Hc. unfold _CommandHandle.close. unmonad. by rewrite Ho, Hc. Qed.

Lemma close_unborn self w :
  heap w !! self = None → _CommandHandle.close self w = (Ret tt, w).
Proof. intros Ho. unfold _CommandHandle.close. unmonad. by rewrite Ho. Qed.

(** ** The registry invariant *)

Lemma preserves_bind {A B} (m : M A) (k : A → M B) :
  preserves m → (∀ a, preserves (k a)) → preserves (m ≫= k).
Proof.
  intros Hm Hk w Hw. unmonad. specialize (Hm w Hw).
  destruct (m w) as [[a| |] w1]; simpl in *; [| done..]. by apply Hk.
Qed.

Lemma preserves_os {A} (m : M A) : os_call m → preserves m.
Proof.
  intros Hm w (Hnd & Hlt & Hcl). destruct (Hm w) as (Hh & Ha & Hn & _).
  unfold registry_inv, is_closed. rewrite Hh, Ha, Hn. done.
Qed.

Lemma os_call_raise_with {A} etype value : os_call (@raise_with A etype value).
Proof. unfold raise_with. destruct etype; apply os_call_raise. Qed.

Ltac os_atom :=
  lazymatch goal with
  | |- os_call (mret _) => apply os_call_ret
  | |- os_call (raise _) => apply os_call_raise
  | |- os_call closed_file => apply os_call_raise
  | |- os_call hang => apply os_call_hang
  | |- os_call get => apply os_call_get
  | |- os_call (modify (set_procs _)) => apply os_call_procs
  | |- os_call (modify (set_now _)) => apply os_call_now
  | |- os_call (modify (log _)) => apply os_call_log; reflexivity
  | |- os_call time_time => apply os_call_time_time
  | |- os_call (time_sleep _) => apply os_call_time_sleep
  | |- os_call (waitpid_nohang _) => apply os_call_waitpid_nohang
  | |- os_call (waitpid_block _) => apply os_call_waitpid_block
  | |- os_call (os_kill _ _) => apply os_call_kill
  | |- os_call (file_read _) => apply os_call_file_read
  | |- os_call (file_readlines _) => apply os_call_file_readlines
  | |- os_call (file_fileno _) => apply os_call_file_fileno
  | |- os_call (select_block _) => apply os_call_select_block
  | |- os_call (select_now _) => apply os_call_select_now
  | |- os_call (getself _) => apply os_call_getself
  | |- os_call (_CommandHandle._kill _) => apply os_call__kill
  | |- os_call (raise_with _ _) => apply os_call_raise_with
  end.

Lemma preserves_bump : preserves (modify bump_id).
Proof.
  intros w (Hnd & Hlt & Hcl). repeat split; try done.
  intros h Hh. simpl. specialize (Hlt h Hh). lia.
Qed.

Lemma preserves_disp h : preserves (modify (set_disp h)).
Proof. by intros w H. Qed.
Lemma preserves_prev h : preserves (modify (set_prev h)).
Proof. by intros w H. Qed.
Lemma preserves_log e : preserves (modify (log e)).
Proof. by intros w H. Qed.

(** Assignments that leave [_closed] alone keep the invariant. *)
Lemma preserves_setattr self f :
  (∀ o, _closed (f o) = _closed o) → preserves (setattr self f).
Proof.
  intros Hf w (Hnd & Hlt & Hcl). repeat split; try done.
  intros h (o & Ho & Hc). simpl in *. apply Hcl.
  destruct (decide (self = h)) as [->|Hne].
  - rewrite lookup_alter_eq in Ho. destruct (heap w !! h) as [o0|] eqn:Ho0; [| done].
    simpl in Ho. injection Ho as <-. exists o0. by rewrite <- Hf.
  - rewrite lookup_alter_ne in Ho by done. by exists o.
Qed.

Lemma list_remove_first_subseteq x l : list_remove_first x l ⊆ l.
Proof.
  induction l as [|y l IH]; [done |]. simpl. case_bool_decide.
  - by apply list_subseteq_cons.
  - intros z [->|Hz]%elem_of_cons; [left | right; by apply IH].
Qed.

Lemma list_remove_first_NoDup x l : NoDup l → NoDup (list_remove_first x l).
Proof.
  induction 1 as [|y l Hy Hnd IH]; simpl; [constructor |].
  case_bool_decide; [done |]. constructor; [| done].
  intros Hin. by apply Hy, (list_remove_first_subseteq x).
Qed.

Lemma list_remove_first_gone x l : NoDup l → x ∉ list_remove_first x l.
Proof.
  induction 1 as [|y l Hy Hnd IH]; simpl; [by intros ?%elem_of_nil |].
  case_bool_decide as Hxy; [by subst |].
  intros [->|Hin]%elem_of_cons; [done | by apply IH].
Qed.

Lemma preserves_unregister self : preserves (unregister self).
Proof.
  intros w (Hnd & Hlt & Hcl). rewrite unregister_spec. simpl.
  repeat split; simpl.
  - by apply list_remove_first_NoDup.
  - intros h Hh. by apply Hlt, (list_remove_first_subseteq self).
  - intros h Hh Hin. by eapply Hcl, (list_remove_first_subseteq self).
Qed.

Lemma preserves_close self : preserves (_CommandHandle.close self).
Proof.
  intros w (Hnd & Hlt & Hcl).
  destruct (heap w !! self) as [o|] eqn:Ho; [| by rewrite close_unborn].
  destruct (_closed o) eqn:Hc; [by erewrite close_closed |].
  destruct (close_open self w o Ho Hc) as (w' & -> & Hh & Ha & Hn & _). simpl.
  unfold registry_inv, is_closed. rewrite Hh, Ha, Hn. repeat split.
  - by apply list_remove_first_NoDup.
  - intros h Hin. by apply Hlt, (list_remove_first_subseteq self).
  - intros h (o' & Ho' & Hc') Hin.
    destruct (decide (self = h)) as [->|Hne].
    + by eapply list_remove_first_gone.
    + rewrite lookup_insert_ne in Ho' by done.
      eapply Hcl; [by exists o' | by eapply list_remove_first_subseteq].
Qed.

Lemma preserves_init p cread errread : preserves (_CommandHandle.__init__ p cread errread).
Proof.
  intros w (Hnd & Hlt & Hcl). unfold _CommandHandle.__init__, time_time. unmonad. simpl.
  repeat split; simpl.
  - apply NoDup_app. repeat split; [done | | apply NoDup_singleton].
    intros h Hh ->%list_elem_of_singleton. specialize (Hlt _ Hh). lia.
  - intros h [Hh| ->%list_elem_of_singleton]%elem_of_app; [specialize (Hlt _ Hh) |]; lia.
  - intros h (o & Ho & Hc) [Hh| ->%list_elem_of_singleton]%elem_of_app; simpl in Ho.
    + destruct (decide (next_id w = h)) as [<-|Hne].
      * specialize (Hlt _ Hh). lia.
      * rewrite lookup_insert_ne in Ho by done. apply (Hcl h); [by exists o | done].
    + rewrite lookup_insert_eq in Ho. by injection Ho as <-.
Qed.

Ltac preserves_step :=
  lazymatch goal with
  | |- preserves (_ ≫= _) => apply preserves_bind; [| intros ?]
  | |- preserves (match ?x with _ => _ end) => destruct x
  | |- preserves (modify bump_id) => apply preserves_bump
  | |- preserves (modify (set_disp _)) => apply preserves_disp
  | |- preserves (modify (set_prev _)) => apply preserves_prev
  | |- preserves (modify (log _)) => apply preserves_log
  | |- preserves (unregister _) => apply preserves_unregister
  | |- preserves (_CommandHandle.close _) => apply preserves_close
  | |- preserves (_CommandHandle.__init__ _ _ _) => apply preserves_init
  | |- preserves (setattr _ _) => apply preserves_setattr; solve [by intros []]
  | |- preserves _ => apply preserves_os; os_atom
  end.

Lemma preserves__cleanup_child `{Codec} self : preserves (_CommandHandle._cleanup_child self).
Proof. unfold _CommandHandle._cleanup_child. repeat preserves_step. Qed.

Lemma preserves_wait `{Codec} self : preserves (_CommandHandle.wait self).
Proof.
  unfold _CommandHandle.wait, _CommandHandle.fileno.
  repeat first [apply preserves__cleanup_child | preserves_step].
Qed.

Lemma preserves_poll `{Codec} self : preserves (_CommandHandle.poll self).
Proof.
  unfold _CommandHandle.poll, _CommandHandle.fileno.
  repeat first [apply preserves__cleanup_child | preserves_step].
Qed.

Lemma preserves_read `{Codec} self : preserves (_CommandHandle.read self).
Proof. unfold _CommandHandle.read. repeat first [apply preserves_wait | preserves_step]. Qed.

Lemma preserves_readline `{Codec} self : preserves (_CommandHandle.readline self).
Proof. unfold _CommandHandle.readline. repeat first [apply preserves_wait | preserves_step]. Qed.

Lemma preserves_readlines `{Codec} self : preserves (_CommandHandle.readlines self).
Proof. unfold _CommandHandle.readlines. repeat first [apply preserves_wait | preserves_step]. Qed.

Lemma preserves_elapsed self : preserves (_CommandHandle.elapsed self).
Proof. unfold _CommandHandle.elapsed. repeat preserves_step. Qed.

Lemma preserves_fileno self : preserves (_CommandHandle.fileno self).
Proof. unfold _CommandHandle.fileno. repeat preserves_step. Qed.

Lemma preserves_pickle_read `{Codec} ph : preserves (_PickleHandle.read ph).
Proof. unfold _PickleHandle.read. repeat first [apply preserves_read | preserves_step]. Qed.

Lemma preserves_for_each_close l : preserves (for_each l _CommandHandle.close).
Proof. induction l as [|h l IH]; simpl; repeat preserves_step. apply IH. Qed.

Lemma preserves__cleanup : preserves _cleanup.
Proof. unfold _cleanup. repeat first [apply preserves_for_each_close | preserves_step]. Qed.

Lemma preserves_signal_signal h : preserves (signal_signal h).
Proof. unfold signal_signal. repeat preserves_step. Qed.

Lemma preserves__handle_sigterm signum : preserves (_handle_sigterm signum).
Proof.
  unfold _handle_sigterm.
  repeat first [apply preserves__cleanup | apply preserves_signal_signal | preserves_step].
Qed.

Lemma preserves_receive_SIGTERM : preserves receive_SIGTERM.
Proof.
  unfold receive_SIGTERM, run_handler.
  repeat first [apply preserves__handle_sigterm | preserves_step].
Qed.

Lemma preserves_import : preserves import_copen.
Proof.
  unfold import_copen, signal_getsignal.
  repeat first [apply preserves_signal_signal | preserves_step].
Qed.

Lemma preserves_copen_sys image syscmd args : preserves (copen_sys image syscmd args).
Proof. unfold copen_sys, os_pipe, os_fork. cbv zeta. repeat preserves_step. Qed.

Lemma preserves_copen_fn `{Codec} func : preserves (copen_fn func).
Proof.
  unfold copen_fn, _PickleHandle.__init__, os_pipe, os_fork. cbv zeta.
  repeat preserves_step.
Qed.

Lemma registry_inv_boot h0 : registry_inv (boot h0).
Proof.
  repeat split; simpl; [apply NoDup_nil_2 | by intros ? ?%elem_of_nil |].
  by intros h _ ?%elem_of_nil.
Qed.

Lemma registry_inv_run_op `{Codec} o w : registry_inv w → registry_inv (run_op o w).
Proof.
  destruct o; simpl;
    [ apply preserves_import | apply preserves_copen_sys | apply preserves_copen_fn
    | apply preserves_close | apply preserves_wait | apply preserves_poll
    | apply preserves_read | apply preserves_readline | apply preserves_readlines
    | apply preserves_elapsed | apply preserves_fileno | apply preserves_pickle_read
    | apply preserves_receive_SIGTERM | by intros ? ].
Qed.

Lemma registry_inv_reachable `{Codec} w : reachable w → registry_inv w.
Proof.
  intros (h0 & ops & ->). unfold run.
  generalize (registry_inv_boot h0). generalize (boot h0).
  induction ops as [|o ops IH]; intros w Hw; simpl; [done |].
  by apply IH, registry_inv_run_op.
Qed.

(** ** close() *)

Example w_echo_handle : _active w_echo = [6%nat] ∧ pid <$> heap w_echo !! 6%nat = Some 5%nat.
Proof. by vm_compute. Qed.

(** X19. As long as no signal handler runs during the call, [close()]
    returns without an exception; a second [close()] changes nothing at
    all, so sends no signal; and [close()] on a handle that completed by
    itself makes no system call: the log of signals and reaps, the process
    table and the clock stay as they were. *)
Theorem close_returns_and_is_idempotent_between_signals (self : nat) (w : world) :
  ∃ w1, _CommandHandle.close self w = (Ret tt, w1)
        ∧ _CommandHandle.close self w1 = (Ret tt, w1)
        ∧ (∀ o, heap w !! self = Some o → _done o = true →
             trace w1 = trace w ∧ procs w1 = procs w ∧ now w1 = now w).
Proof.
  destruct (heap w !! self) as [o|] eqn:Ho.
  - destruct (_closed o) eqn:Hc.
    + exists w. rewrite (close_closed self w o) by done. by repeat split.
    + destruct (close_open self w o Ho Hc) as (w1 & H1 & Hh & _ & _ & _ & _ & _ & Hdone).
      exists w1. split; [done |]. split.
      * apply (close_closed self w1 (closed_handle o (now w1))).
        -- by rewrite Hh, lookup_insert_eq.
        -- unfold closed_handle. by destruct (_done o).
      * intros o' [= <-] Hd. destruct (Hdone Hd) as (? & ? & ?). done.
  - exists w. rewrite close_unborn by done. by repeat split.
Qed.

Lemma close_returns_and_is_idempotent_between_signals_witness :
  let w := (_CommandHandle.read (H := RefCodec.codec) 6 w_echo).2 in
  ∃ w1, _CommandHandle.close 6 w = (Ret tt, w1)
        ∧ _CommandHandle.close 6 w1 = (Ret tt, w1)
        ∧ trace w1 = trace w.
Proof.
  intros w.
  destruct (close_returns_and_is_idempotent_between_signals 6 w) as (w1 & H1 & H2 & H3).
  exists w1. split; [exact H1 |]. split; [exact H2 |].
  refine (proj1 (H3 _ _ _)); vm_compute; reflexivity.
Defined.

(** When [close] has to end the child itself, it records SIGTERM whatever
    [_kill] answered. *)
Lemma close_running_records_SIGTERM self w o :
  heap w !! self = Some o → _closed o = false → _done o = false →
  ∃ o', heap (_CommandHandle.close self w).2 !! self = Some o'
        ∧ killsig o' = Some SIGTERM ∧ status o' = None.
Proof.
  intros Ho Hc Hd. destruct (close_open self w o Ho Hc) as (w1 & -> & Hh & _).
  simpl. rewrite Hh, lookup_insert_eq. unfold closed_handle. rewrite Hd. by eexists.
Qed.

(** ** The registry *)

(** C8. In every world the program can reach, by explicit [close()]
    calls, by the SIGTERM hook or otherwise, a handle in the Closed state
    is not in [_active]. *)
Theorem closed_handle_not_in_registry `{Codec} (w : world) (h : nat) :
  reachable w → is_closed w h → h ∉ _active w.
Proof. intros Hw. by apply registry_inv_reachable. Qed.

Lemma closed_handle_not_in_registry_witness :
  let w := run (H := RefCodec.codec)
               [Import; Copen_sys (image_of echo) "echo" ["abc"];
                Copen_sys (image_of stubborn) "sleep" ["1000"]; Close 6; Sigterm]
               (boot (Some app_handler)) in
  (is_closed w 6 ∧ 6%nat ∉ _active w) ∧ (is_closed w 12 ∧ 12%nat ∉ _active w).
Proof.
  intros w.
  assert (reachable (H := RefCodec.codec) w) as Hw by (by eexists _, _).
  assert (is_closed w 6) as H6 by (eexists; split; vm_compute; reflexivity).
  assert (is_closed w 12) as H12 by (eexists; split; vm_compute; reflexivity).
  split; (split; [done |]).
  - exact (closed_handle_not_in_registry w 6 Hw H6).
  - exact (closed_handle_not_in_registry w 12 Hw H12).
Defined.

(** ** The SIGTERM hook *)

Lemma close_effect self w :
  ∃ w', _CommandHandle.close self w = (Ret tt, w')
        ∧ (∀ h, is_closed w h → is_closed w' h)
        ∧ (∀ h, is_Some (heap w !! h) → is_Some (heap w' !! h))
        ∧ (is_Some (heap w !! self) → is_closed w' self)
        ∧ handler_calls (trace w') = handler_calls (trace w)
        ∧ sigterm_disp w' = sigterm_disp w
        ∧ _PREV_SIGTERM w' = _PREV_SIGTERM w.
Proof.
  destruct (heap w !! self) as [o|] eqn:Ho.
  - destruct (_closed o) eqn:Hc.
    + exists w. rewrite (close_closed self w o) by done.
      repeat split; try done. intros _. by exists o.
    + destruct (close_open self w o Ho Hc) as (w' & -> & Hh & _ & _ & Hd & Hp & Hcalls & _).
      exists w'. split; [done |]. unfold is_closed. rewrite Hh. repeat split; try done.
      * intros h (o' & Ho' & Hc'). destruct (decide (self = h)) as [->|Hne].
        -- congruence.
        -- exists o'. by rewrite lookup_insert_ne.
      * intros h Hsome. destruct (decide (self = h)) as [->|Hne].
        -- by rewrite lookup_insert_eq.
        -- by rewrite lookup_insert_ne.
      * intros _. eexists. rewrite lookup_insert_eq. split; [done |].
        unfold closed_handle. by destruct (_done o).
  - exists w. rewrite close_unborn by done. repeat split; try done.
Qed.

(** [_cleanup] closes every object of the list it walks. *)
Lemma for_each_close_effect l w :
  ∃ w', for_each l _CommandHandle.close w = (Ret tt, w')
        ∧ (∀ h, is_closed w h → is_closed w' h)
        ∧ (∀ h, is_Some (heap w !! h) → is_Some (heap w' !! h))
        ∧ (∀ h, h ∈ l → is_Some (heap w !! h) → is_closed w' h)
        ∧ handler_calls (trace w') = handler_calls (trace w)
        ∧ sigterm_disp w' = sigterm_disp w
        ∧ _PREV_SIGTERM w' = _PREV_SIGTERM w.
Proof.
  revert w. induction l as [|x l IH]; intros w; simpl.
  - exists w. repeat split; try done. by intros h ?%elem_of_nil.
  - destruct (close_effect x w) as (w1 & H1 & Hc1 & Hs1 & Hx1 & Ht1 & Hd1 & Hp1).
    destruct (IH w1) as (w2 & H2 & Hc2 & Hs2 & Hl2 & Ht2 & Hd2 & Hp2).
    exists w2. unmonad. rewrite H1, H2. repeat split; try congruence; try by auto.
    intros h [->|Hin]%elem_of_cons Hsome; [by apply Hc2, Hx1 | by apply Hl2, Hs1].
Qed.

(** The hook closes every live handle, runs no handler, and installs the
    previous handler again when there was one. *)
Lemma _handle_sigterm_effect signum w :
  ∃ w', _handle_sigterm signum w = (Ret tt, w')
        ∧ (∀ h, h ∈ _active w → is_Some (heap w !! h) → is_closed w' h)
        ∧ handler_calls (trace w') = handler_calls (trace w)
        ∧ sigterm_disp w' = match _PREV_SIGTERM w with
                            | Some h => Some h
                            | None => sigterm_disp w
                            end.
Proof.
  destruct (for_each_close_effect (_active w) w)
    as (w1 & H1 & _ & _ & Hl & Ht & Hd & Hp).
  unfold _handle_sigterm, _cleanup, signal_signal. unmonad. rewrite H1, Hp.
  destruct (_PREV_SIGTERM w) as [h|]; eexists; (split; [done |]); simpl.
  - repeat split; [done |]. unfold handler_calls in *.
    by rewrite filter_app, filter_cons_False, filter_nil, app_nil_r by (by intros []).
  - done.
Qed.

(** C1. A program with its own SIGTERM handler runs one child and
    receives SIGTERM.  The hook runs, the handle is closed and leaves the
    registry, and the program's handler is installed again; it is not
    run: the hook is the only handler in the log.  The hook as the
    specification words it would have run it. *)
Theorem sigterm_hook_reinstalls_previous_handler :
  let w' := (receive_SIGTERM w_stubborn).2 in
  (receive_SIGTERM w_stubborn).1 = Ret tt
  ∧ _closed <$> heap w' !! 6%nat = Some true
  ∧ _active w' = []
  ∧ sigterm_disp w' = Some app_handler
  ∧ handler_calls (trace w') = [EvCall Handle_sigterm SIGTERM]
  ∧ handler_calls (trace (spec_handle_sigterm SIGTERM w_stubborn).2)
    = [EvCall app_handler SIGTERM].
Proof. by vm_compute. Qed.

(** ** Reaping and the recorded signal *)

Lemma set_heap_id f w : f (heap w) = heap w → set_heap f w = w.
Proof. intros Hf. destruct w. unfold set_heap. simpl in *. by rewrite Hf. Qed.

Lemma alter_fixed {A} (f : A → A) (i : nat) (m : gmap nat A) (x : A) :
  m !! i = Some x → f x = x → alter f i m = m.
Proof.
  intros Hi Hf. rewrite (alter_as_insert _ _ _ x), Hf by done. by apply insert_id.
Qed.

(** A closed handle is inert: none of the four calls changes the world. *)
Lemma closed_handle_inert `{Codec} h w o m :
  heap w !! h = Some o → _done o = true → _closed o = true → _output o = [] →
  run_op (on h m) w = w.
Proof.
  intros Ho Hd Hc Hout. destruct m; simpl.
  - by rewrite (close_closed h w o).
  - unfold _CommandHandle.wait, getself. unmonad. by rewrite Ho, Hd.
  - unfold _CommandHandle.poll, getself. unmonad. by rewrite Ho, Hd.
  - unfold _CommandHandle.read, _CommandHandle.wait, getself, setattr. unmonad.
    rewrite Ho, Hd. simpl. rewrite Ho. simpl. apply set_heap_id.
    apply (alter_fixed _ _ _ o); [done |]. destruct o; simpl in *. by subst.
Qed.

Lemma closed_handle_inert_run `{Codec} h w o ms :
  heap w !! h = Some o → _done o = true → _closed o = true → _output o = [] →
  run (on h <$> ms) w = w.
Proof.
  intros Ho Hd Hc Hout. induction ms as [|m ms IH]; [done |].
  unfold run in *. simpl. by rewrite (closed_handle_inert h w o m).
Qed.

(** C2. The child ignores SIGTERM, so [close()] escalates: SIGTERM,
    then SIGKILL 500 ms later.  No status is collected, by [close()]
    or by any calls of close, wait, poll and read that follow: the log
    holds the two signals and no reap, and the child stays unreaped in the
    process table. *)
Theorem escalated_close_never_reaps `{Codec} (ms : list method) :
  let w1 := (_CommandHandle.close 6 w_stubborn).2 in
  let w2 := run (on 6%nat <$> ms) w1 in
  trace w2 = [EvInstall SIGTERM Handle_sigterm; EvKill 5 SIGTERM; EvKill 5 SIGKILL]
  ∧ procs w2 !! 5%nat = Some (Child false (Some (500%nat, SIGKILL)) "" "" None None).
Proof.
  intros w1 w2.
  assert (∃ o, heap w1 !! 6%nat = Some o
               ∧ _done o = true ∧ _closed o = true ∧ _output o = [])
    as (o & Ho & Hd & Hc & Hout).
  { exists (Handle 5 None (Some SIGTERM) 0 (Some 500%nat) (File 1 5 Stdout false)
                   (Some (File 3 5 Stderr false)) [] true true).
    by vm_compute. }
  assert (trace w1 = [EvInstall SIGTERM Handle_sigterm; EvKill 5 SIGTERM; EvKill 5 SIGKILL]
          ∧ procs w1 !! 5%nat = Some (Child false (Some (500%nat, SIGKILL)) "" "" None None))
    as Hw1 by (by vm_compute).
  clearbody w1. subst w2. by rewrite (closed_handle_inert_run 6 w1 o ms).
Qed.

(** C3. Whatever ended the child, [close()] on a running handle records
    SIGTERM.  First the child that ignores SIGTERM and is ended by SIGKILL;
    then a child that has exited by itself with status 0 before [close()]
    is called, and receives no signal at all. *)
Theorem close_records_SIGTERM_whatever_ended_the_child :
  let w1 := (_CommandHandle.close 6 w_stubborn).2 in
  let w2 := (_CommandHandle.close 6 (tick 30 w_echo)).2 in
  (trace w1 = [EvInstall SIGTERM Handle_sigterm; EvKill 5 SIGTERM; EvKill 5 SIGKILL]
   ∧ c_end <$> procs w1 !! 5%nat = Some (Some (500%nat, SIGKILL))
   ∧ killsig <$> heap w1 !! 6%nat = Some (Some SIGTERM))
  ∧ (trace w2 = [EvInstall SIGTERM Handle_sigterm; EvReap 5 0]
     ∧ killsig <$> heap w2 !! 6%nat = Some (Some SIGTERM)).
Proof. by vm_compute. Qed.

(** ** Completion handling *)

Lemma max_max a b : Nat.max a (Nat.max a b) = Nat.max a b.
Proof. lia. Qed.

(** Two worlds are equal when their components are. *)
Lemma world_eq w p h a n t d pv i :
  procs w = p → heap w = h → _active w = a → now w = n → trace w = t →
  sigterm_disp w = d → _PREV_SIGTERM w = pv → next_id w = i →
  w = World p h a n t d pv i.
Proof. destruct w. simpl. by intros -> -> -> -> -> -> -> ->. Qed.

Lemma _cleanup_child_done `{Codec} self w o c te ind :
  pending w self o c → c_end c = Some (te, ind) → c_err c = "" →
  _CommandHandle._cleanup_child self w =
  (Ret tt,
   World (<[pid o := drained true c]> (procs w))
         (<[self := done_handle o c ind (Nat.max te (now w))]> (heap w))
         (list_remove_first self (_active w))
         (Nat.max te (now w))
         (trace w ++ [EvReap (pid o) ind])
         (sigterm_disp w) (_PREV_SIGTERM w) (next_id w)).
Proof.
  intros (Ho & Hd & [fd Hr] & [efd He] & Hc & Hreap) Hend Herr.
  unfold _CommandHandle._cleanup_child, getself, file_readlines, file_read,
    waitpid_block, live_child, setattr, time_time.
  unmonad.
  repeat (simpl; rewrite ?Ho, ?Hd, ?Hr, ?He, ?Hc, ?Hend, ?Herr, ?Hreap,
            ?lookup_insert_eq, ?unregister_spec).
  f_equal. apply world_eq; simpl; try done.
  - rewrite !insert_insert_eq. unfold drained, reap. simpl. by rewrite Hend.
  - rewrite !alter_alter_eq, (alter_as_insert _ _ _ o) by done.
    unfold done_handle. rewrite Hr, He, !max_max. done.
  - by rewrite !max_max.
Qed.

Lemma _cleanup_child_raises `{Codec} self w o c te ind :
  pending w self o c → c_end c = Some (te, ind) → c_err c ≠ "" →
  _CommandHandle._cleanup_child self w =
  (Exc (child_error (c_err c)),
   World (<[pid o := drained false c]> (procs w))
         (<[self := broken_handle o c]> (heap w))
         (_active w) (Nat.max te (now w)) (trace w)
         (sigterm_disp w) (_PREV_SIGTERM w) (next_id w)).
Proof.
  intros (Ho & Hd & [fd Hr] & [efd He] & Hc & Hreap) Hend Herr.
  unfold _CommandHandle._cleanup_child, getself, file_readlines, file_read,
    setattr, child_error, raise_with.
  unmonad.
  repeat (simpl; rewrite ?Ho, ?Hd, ?Hr, ?He, ?Hc, ?Hend, ?Hreap, ?lookup_insert_eq).
  rewrite (bool_decide_true (c_err c ≠ "")) by done.
  assert (∀ e, (Exc (A := unit) e,
                set_heap (alter (with_errread (Some (file_close (File efd (pid o) Stderr false)))) self)
                  (set_procs <[pid o := Child false (Some (te, ind)) "" "" (c_ready c) (c_on_term c)]>
                     (set_now (Nat.max te)
                        (set_heap (alter (with_cread (file_close (File fd (pid o) Stdout false))) self)
                           (set_heap (alter (with_output (splitlines (c_out c))) self)
                              (set_procs <[pid o := Child false (Some (te, ind)) "" (c_err c)
                                                               (c_ready c) (c_on_term c)]>
                                 (set_now (Nat.max te) w)))))))
               = (Exc e,
                  World (<[pid o := drained false c]> (procs w))
                        (<[self := broken_handle o c]> (heap w))
                        (_active w) (Nat.max te (now w)) (trace w)
                        (sigterm_disp w) (_PREV_SIGTERM w) (next_id w))) as Hw.
  { intros e. f_equal. apply world_eq; simpl; try done.
    - unfold drained. by rewrite !insert_insert_eq, Hend.
    - rewrite !alter_alter_eq, (alter_as_insert _ _ _ o) by done.
      unfold broken_handle, compose, with_errread, with_cread, with_output.
      rewrite Hr, He. simpl. by rewrite Hd.
    - by rewrite max_max. }
  destruct (loads (c_err c)) as [e|v]; [apply Hw |].
  destruct (unpack3 v) as [e|[[etype value] tb]]; [apply Hw |].
  destruct etype; apply Hw.
Qed.

Lemma pending_set_now f w self o c : pending w self o c → pending (set_now f w) self o c.
Proof. by intros H. Qed.

Lemma ready_time_le c te ind tr :
  c_end c = Some (te, ind) → ready_time c = Some tr → (tr ≤ te)%nat.
Proof.
  unfold ready_time. intros ->. destruct (c_ready c); intros [= <-]; lia.
Qed.

(** [wait] on a pending handle whose child ends is the completion
    handling, after the wait for the pipe. *)
Lemma wait_pending `{Codec} self w o c te ind :
  pending w self o c → c_end c = Some (te, ind) →
  ∃ tr, (tr ≤ te)%nat
        ∧ _CommandHandle.wait self w
          = _CommandHandle._cleanup_child self (set_now (Nat.max tr) w).
Proof.
  intros Hp Hend. pose proof Hp as (Ho & Hd & [fd Hr] & _ & Hc & _).
  destruct (ready_time c) as [tr|] eqn:Htr;
    [| unfold ready_time in Htr; rewrite Hend in Htr; by destruct (c_ready c)].
  exists tr. split; [by eapply ready_time_le |].
  unfold _CommandHandle.wait, _CommandHandle.fileno, getself, file_fileno, select_block.
  repeat (unmonad; simpl; rewrite ?Ho, ?Hd, ?Hr, ?Hc, ?Htr). done.
Qed.

Lemma max_max_le a b c : (b ≤ a)%nat → Nat.max a (Nat.max b c) = Nat.max a c.
Proof. lia. Qed.

Lemma wait_done `{Codec} self w o c te ind :
  pending w self o c → c_end c = Some (te, ind) → c_err c = "" →
  _CommandHandle.wait self w =
  (Ret tt,
   World (<[pid o := drained true c]> (procs w))
         (<[self := done_handle o c ind (Nat.max te (now w))]> (heap w))
         (list_remove_first self (_active w))
         (Nat.max te (now w))
         (trace w ++ [EvReap (pid o) ind])
         (sigterm_disp w) (_PREV_SIGTERM w) (next_id w)).
Proof.
  intros Hp Hend Herr. destruct (wait_pending self w o c te ind Hp Hend) as (tr & Htr & ->).
  rewrite (_cleanup_child_done self _ o c te ind) by (done || by apply pending_set_now).
  simpl. by rewrite max_max_le.
Qed.

Lemma wait_raises `{Codec} self w o c te ind :
  pending w self o c → c_end c = Some (te, ind) → c_err c ≠ "" →
  _CommandHandle.wait self w =
  (Exc (child_error (c_err c)),
   World (<[pid o := drained false c]> (procs w))
         (<[self := broken_handle o c]> (heap w))
         (_active w) (Nat.max te (now w)) (trace w)
         (sigterm_disp w) (_PREV_SIGTERM w) (next_id w)).
Proof.
  intros Hp Hend Herr. destruct (wait_pending self w o c te ind Hp Hend) as (tr & Htr & ->).
  rewrite (_cleanup_child_raises self _ o c te ind) by (done || by apply pending_set_now).
  simpl. by rewrite max_max_le.
Qed.

(** [poll] on a pending handle: nothing happens while the pipe is not
    readable; then it is the completion handling. *)
Lemma poll_pending_early `{Codec} self w o c :
  pending w self o c → readable (now w) c = false →
  _CommandHandle.poll self w = (Ret false, w).
Proof.
  intros (Ho & Hd & [fd Hr] & _ & Hc & _) Hready.
  unfold _CommandHandle.poll, _CommandHandle.fileno, getself, file_fileno, select_now.
  repeat (unmonad; simpl; rewrite ?Ho, ?Hd, ?Hr, ?Hc, ?Hready). done.
Qed.

Lemma poll_pending_ready `{Codec} self w o c :
  pending w self o c → readable (now w) c = true →
  _CommandHandle.poll self w
  = (_CommandHandle._cleanup_child self ;; o' ← getself self; mret (_done o')) w.
Proof.
  intros (Ho & Hd & [fd Hr] & _ & Hc & _) Hready.
  unfold _CommandHandle.poll, _CommandHandle.fileno, getself, file_fileno, select_now.
  repeat (unmonad; simpl; rewrite ?Ho, ?Hd, ?Hr, ?Hc, ?Hready). done.
Qed.

(** ** After an error payload *)

(** A handle that is not done and whose stdout stream is closed: [select]
    cannot get its descriptor. *)
Lemma wait_broken `{Codec} self w o :
  heap w !! self = Some o → _done o = false → f_closed (_cread o) = true →
  _CommandHandle.wait self w = (Exc closed_file_error, w).
Proof.
  intros Ho Hd Hc.
  unfold _CommandHandle.wait, _CommandHandle.fileno, getself, file_fileno.
  unmonad. rewrite Ho, Hd. simpl. by rewrite Ho, Hc.
Qed.

Lemma poll_broken `{Codec} self w o :
  heap w !! self = Some o → _done o = false → f_closed (_cread o) = true →
  _CommandHandle.poll self w = (Exc closed_file_error, w).
Proof.
  intros Ho Hd Hc.
  unfold _CommandHandle.poll, _CommandHandle.fileno, getself, file_fileno.
  unmonad. rewrite Ho, Hd. simpl. by rewrite Ho, Hc.
Qed.

Lemma call_reader_broken `{Codec} r self w o :
  heap w !! self = Some o → _done o = false → f_closed (_cread o) = true →
  call_reader r self w = (Exc closed_file_error, w).
Proof.
  intros Ho Hd Hc. destruct r; simpl;
    unfold none_of, _CommandHandle.read, _CommandHandle.readline, _CommandHandle.readlines;
    unmonad; by rewrite ?(wait_broken self w o), ?(poll_broken self w o).
Qed.

Lemma call_readers_broken `{Codec} rs self w o :
  heap w !! self = Some o → _done o = false → f_closed (_cread o) = true →
  call_readers rs self w = (replicate (List.length rs) (Exc closed_file_error), w).
Proof.
  intros Ho Hd Hc. induction rs as [|r rs IH]; [done |].
  simpl. by rewrite (call_reader_broken r self w o), IH.
Qed.

(** C10. When the child's stderr holds a payload, completion handling
    raises before it unregisters the handle, reaps the child, or marks
    the handle done: the registry and the log of reaps are as before, the
    child is unreaped, the handle is not done and its stdout stream is
    closed.  From then on every wait, poll, read, readline and readlines
    raises the closed-file error and changes nothing. *)
Theorem error_payload_leaves_handle_running `{Codec} self w o c te ind rs :
  pending w self o c → c_end c = Some (te, ind) → c_err c ≠ "" →
  ∃ w', _CommandHandle._cleanup_child self w = (Exc (child_error (c_err c)), w')
        ∧ _active w' = _active w
        ∧ trace w' = trace w
        ∧ c_reaped <$> procs w' !! pid o = Some false
        ∧ (∃ o', heap w' !! self = Some o'
                 ∧ _done o' = false ∧ f_closed (_cread o') = true)
        ∧ call_readers rs self w' = (replicate (List.length rs) (Exc closed_file_error), w').
Proof.
  intros Hp Hend Herr. eexists. split; [by eapply _cleanup_child_raises |]. simpl.
  assert (∃ o', <[self := broken_handle o c]> (heap w) !! self = Some o'
                ∧ _done o' = false ∧ f_closed (_cread o') = true) as (o' & Ho' & Hd' & Hc').
  { eexists. by rewrite lookup_insert_eq. }
  repeat split.
  - by rewrite lookup_insert_eq.
  - by exists o'.
  - by apply (call_readers_broken rs self _ o').
Qed.

Lemma w_grumble_pending :
  pending w_grumble 6
    (Handle 5 None None 0 None (File 1 5 Stdout false) (Some (File 3 5 Stderr false))
            [] false false)
    (Child false (Some (20%nat, exit_ind 1)) ""
           ("ls: cannot access nowhere" ++ String newline "") None None).
Proof. repeat split; try by vm_compute. all: by eexists. Qed.

Lemma error_payload_leaves_handle_running_witness :
  ∃ e w', _CommandHandle._cleanup_child (H := RefCodec.codec) 6 w_grumble = (Exc e, w')
          ∧ _active w' = [6%nat]
          ∧ call_readers (H := RefCodec.codec) [R_read; R_poll; R_wait] 6 w'
            = ([Exc closed_file_error; Exc closed_file_error; Exc closed_file_error], w').
Proof.
  destruct (error_payload_leaves_handle_running (H := RefCodec.codec)
              6 w_grumble _ _ 20%nat (exit_ind 1) [R_read; R_poll; R_wait]
              w_grumble_pending eq_refl)
    as (w' & H1 & H2 & _ & _ & _ & H3); [by vm_compute |].
  eexists _, w'. split; [exact H1 |]. split; [| exact H3].
  rewrite H2. by vm_compute.
Defined.

(** ** Reading *)

Lemma new_handle_pending w self p fd efd t c :
  heap w !! self = Some (new_handle p fd efd t) →
  procs w !! p = Some c → c_reaped c = false →
  pending w self (new_handle p fd efd t) c.
Proof. intros Ho Hc Hr. repeat split; try done; by eexists. Qed.

Lemma copen_sys_pending image syscmd args w0 :
  ∃ h w1 o,
    copen_sys image syscmd args w0 = (Ret h, w1)
    ∧ pending w1 h o (forked (exec_child syscmd (image syscmd (argv syscmd args))) (now w0))
    ∧ now w1 = now w0.
Proof.
  unfold copen_sys, os_pipe, os_fork, _CommandHandle.__init__, time_time. unmonad. simpl.
  eexists _, _, (new_handle (S (S (S (S (next_id w0))))) (next_id w0) (S (S (next_id w0)))
                            (now w0)).
  split; [reflexivity |]. split; [| done].
  apply new_handle_pending; simpl; [by rewrite lookup_insert_eq.. | done].
Qed.

Lemma copen_fn_pending `{Codec} func w0 :
  ∃ h w1 o,
    copen_fn func w0 = (Ret (PickleHandleObj h), w1)
    ∧ pending w1 h o (forked (fn_program func) (now w0))
    ∧ now w1 = now w0.
Proof.
  unfold copen_fn, _PickleHandle.__init__, os_pipe, os_fork, _CommandHandle.__init__,
    time_time. unmonad. simpl.
  eexists _, _, (new_handle (S (S (S (S (next_id w0))))) (next_id w0) (S (S (next_id w0)))
                            (now w0)).
  split; [reflexivity |]. split; [| done].
  apply new_handle_pending; simpl; [by rewrite lookup_insert_eq.. | done].
Qed.

Lemma pending_tick n w self o c : pending w self o c → pending (tick n w) self o c.
Proof. by intros H. Qed.

(** [read] on a handle that is done: the buffer, joined, and the buffer
    is emptied. *)
Lemma read_done `{Codec} self w o :
  heap w !! self = Some o → _done o = true →
  _CommandHandle.read self w
  = (Ret (_CommandHandle.join (_output o)), set_heap (alter (with_output []) self) w).
Proof.
  intros Ho Hd. unfold _CommandHandle.read, _CommandHandle.wait, getself, setattr.
  unmonad. rewrite Ho, Hd. simpl. by rewrite Ho.
Qed.

Lemma read_pending `{Codec} self w o c te ind :
  pending w self o c → c_end c = Some (te, ind) → c_err c = "" →
  ∃ w1 o1, _CommandHandle.read self w = (Ret (c_out c), w1)
           ∧ heap w1 !! self = Some o1 ∧ _done o1 = true ∧ _output o1 = [].
Proof.
  intros Hp Hend Herr. unfold _CommandHandle.read. unmonad.
  rewrite (wait_done self w o c te ind) by done.
  unfold getself, setattr. unmonad. simpl. rewrite lookup_insert_eq. simpl.
  rewrite join_splitlines. eexists _, _. split; [done |]. simpl.
  rewrite lookup_alter_eq, lookup_insert_eq. done.
Qed.

(** The command prints two lines and exits 0: [read()] returns them,
    [status] is 0 and [killsig] is 0. *)
Example echo_read :
  let r := _CommandHandle.read (H := RefCodec.codec) 6 w_echo in
  r.1 = Ret ("abc" ++ String newline "de")
  ∧ status <$> heap r.2 !! 6%nat = Some (Some 0)
  ∧ killsig <$> heap r.2 !! 6%nat = Some (Some 0)
  ∧ _active r.2 = [].
Proof. by vm_compute. Qed.

(** Waiting, polling and passing time leave the output where [read] finds
    it: in the pipe, or in the buffer of the handle. *)
Lemma holds_output_before `{Codec} w h s p :
  holds_output w h s → holds_output (run_op (prelude_op h p) w) h s.
Proof.
  intros Hw. destruct p as [ms| |]; simpl.
  - destruct Hw as [(o & c & te & ind & Hp & Hrest)|Hdone]; [left | by right].
    exists o, c, te, ind. split; [by apply pending_tick | done].
  - destruct Hw as [(o & c & te & ind & Hp & Hend & Hout & Herr)|(o & Ho & Hd & Hj)].
    + right. rewrite (wait_done h w o c te ind) by done. simpl.
      eexists. rewrite lookup_insert_eq. split; [done |]. split; [done |].
      simpl. by rewrite join_splitlines.
    + right. exists o. unfold _CommandHandle.wait, getself. unmonad. by rewrite Ho, Hd.
  - destruct Hw as [(o & c & te & ind & Hp & Hend & Hout & Herr)|(o & Ho & Hd & Hj)].
    + destruct (readable (now w) c) eqn:Hready.
      * right. rewrite (poll_pending_ready h w o c) by done. unmonad.
        rewrite (_cleanup_child_done h w o c te ind) by done.
        unfold getself. unmonad. simpl. rewrite lookup_insert_eq. simpl.
        eexists. rewrite lookup_insert_eq. split; [done |]. split; [done |].
        simpl. by rewrite join_splitlines.
      * left. rewrite (poll_pending_early h w o c) by done. by exists o, c, te, ind.
    + right. exists o. unfold _CommandHandle.poll, getself. unmonad. by rewrite Ho, Hd.
Qed.

Lemma holds_output_before_run `{Codec} w h s l :
  holds_output w h s → holds_output (run (prelude_op h <$> l) w) h s.
Proof.
  revert w. induction l as [|p l IH]; intros w Hw; [done |].
  unfold run in *. simpl. by apply IH, holds_output_before.
Qed.

(** The first [read] returns the output, the second the empty string. *)
Lemma read_twice `{Codec} w h s :
  holds_output w h s →
  ∃ w2 w3, _CommandHandle.read h w = (Ret s, w2)
           ∧ _CommandHandle.read h w2 = (Ret "", w3).
Proof.
  intros [(o & c & te & ind & Hp & Hend & <- & Herr)|(o & Ho & Hd & <-)].
  - destruct (read_pending h w o c te ind Hp Hend Herr)
      as (w2 & o2 & Hread & Ho2 & Hd2 & Hout2).
    exists w2. eexists. split; [done |].
    rewrite (read_done h w2 o2) by done. by rewrite Hout2.
  - eexists _, _. split; [by apply read_done |].
    rewrite (read_done h _ (with_output [] o));
      [done | by simpl; rewrite lookup_alter_eq, Ho | done].
Qed.

(** C4, amended.  An external command that ends and writes nothing to its
    stderr.  Whatever the caller has done with the handle before, waiting,
    polling and letting time pass in any order, so whether the handle is
    already Done or the child still runs: the first [read()] returns all
    the command wrote to its stdout, and a second [read()] returns the
    empty string. *)
Theorem read_returns_output_then_empty `{Codec} image syscmd args w0 d
    (before : list prelude) :
  let prog := exec_child syscmd (image syscmd (argv syscmd args)) in
  prog_runtime prog = Some d → prog_err prog = "" →
  ∃ h w1 w2 w3,
    copen_sys image syscmd args w0 = (Ret h, w1)
    ∧ _CommandHandle.read h (run (prelude_op h <$> before) w1) = (Ret (prog_out prog), w2)
    ∧ _CommandHandle.read h w2 = (Ret "", w3).
Proof.
  intros prog Hrun Herr.
  destruct (copen_sys_pending image syscmd args w0) as (h & w1 & o & Hspawn & Hp & Hnow).
  fold prog in Hp.
  assert (holds_output w1 h (prog_out prog)) as Hw1.
  { left. exists o, (forked prog (now w0)), (now w0 + d)%nat, (prog_ind prog).
    split; [exact Hp |]. simpl. by rewrite Hrun. }
  destruct (read_twice _ h _ (holds_output_before_run w1 h _ before Hw1))
    as (w2 & w3 & Hread1 & Hread2).
  by exists h, w1, w2, w3.
Qed.

Lemma read_returns_output_then_empty_witness :
  let w := run (H := RefCodec.codec)
               (prelude_op 6 <$> [Before_poll; Before_pass 30; Before_wait; Before_poll])
               w_echo in
  ∃ w2 w3,
    _CommandHandle.read (H := RefCodec.codec) 6 w = (Ret ("abc" ++ String newline "de"), w2)
    ∧ _CommandHandle.read (H := RefCodec.codec) 6 w2 = (Ret "", w3).
Proof.
  intros w.
  destruct (read_returns_output_then_empty (H := RefCodec.codec)
              (image_of echo) "echo" ["abc"] loaded 20
              [Before_poll; Before_pass 30; Before_wait; Before_poll])
    as (h & w1 & w2 & w3 & Hspawn & H1 & H2); [reflexivity | reflexivity |].
  assert (h = 6%nat ∧ w1 = w_echo) as [-> ->].
  { unfold w_echo. rewrite Hspawn. split; [| done].
    assert ((copen_sys (image_of echo) "echo" ["abc"] loaded).1 = Ret 6%nat) as Hh
      by (by vm_compute).
    rewrite Hspawn in Hh. by injection Hh. }
  by exists w2, w3.
Defined.

(** C4 as stated fails: this command has ended, having written to its
    stderr, and [read()] raises instead of returning what it wrote to its
    stdout (nothing). *)
Lemma read_raises_after_stderr_output :
  let w := tick 30 w_grumble in
  ended (now w) (forked grumble 0) = true
  ∧ procs w !! 5%nat = Some (forked grumble 0)
  ∧ (_CommandHandle.read (H := RefCodec.codec) 6 w).1
    = Exc (UnpicklingError ("ls: cannot access nowhere" ++ String newline ""))
  ∧ (_CommandHandle.read (H := RefCodec.codec) 6 w).1 ≠ Ret (prog_out grumble).
Proof. by vm_compute. Qed.

(** ** The wrapper's attributes *)

Lemma startswith_app prefix attr :
  startswith prefix attr = true → ∃ rest, attr = prefix ++ rest.
Proof.
  revert attr. induction prefix as [|a p IH]; intros attr Hs; simpl in Hs.
  - by exists attr.
  - destruct attr as [|b s]; [done |].
    apply andb_true_iff in Hs as [->%bool_decide_eq_true Hs].
    destruct (IH s Hs) as [rest ->]. by exists rest.
Qed.

Lemma PickleHandle_getattr_readline ph attr w :
  startswith "readline" attr = true →
  PickleHandle_getattr ph attr w = (Exc (AttributeError attr), w).
Proof.
  intros Hs. unfold PickleHandle_getattr, _PickleHandle.__getattr__. rewrite Hs.
  destruct (startswith_app _ _ Hs) as [rest ->].
  rewrite bool_decide_false by (by intros [=]).
  rewrite bool_decide_false; [done |].
  intros Hin. repeat (apply elem_of_cons in Hin as [[=]|Hin]). by apply elem_of_nil in Hin.
Qed.

Lemma PickleHandle_getattr_forwarded ph attr w :
  attr ∈ forwarded →
  PickleHandle_getattr ph attr w = CommandHandle_getattr (_cmd_handle ph) attr w.
Proof.
  intros Hin. unfold forwarded in Hin.
  repeat (apply elem_of_cons in Hin as [->|Hin]); [..| by apply elem_of_nil in Hin];
    reflexivity.
Qed.

(** C9, amended.  On a typed-result handle, [readline], [readlines] and
    every other attribute whose name starts with [readline] raise
    [AttributeError]; close, wait, poll, elapsed, fileno, pid, status and
    killsig are those of the wrapped handle: looking them up, and calling
    them, is looking them up and calling them on the wrapped handle.
    [read] is the wrapper's own method. *)
Theorem wrapper_forwards_all_but_readline `{Codec} ph attr w :
  (startswith "readline" attr = true →
   PickleHandle_getattr ph attr w = (Exc (AttributeError attr), w)
   ∧ PickleHandle_invoke ph attr w = (Exc (AttributeError attr), w))
  ∧ (attr ∈ forwarded →
     PickleHandle_getattr ph attr w = CommandHandle_getattr (_cmd_handle ph) attr w
     ∧ PickleHandle_invoke ph attr w = CommandHandle_invoke (_cmd_handle ph) attr w)
  ∧ PickleHandle_invoke ph "read" w = _PickleHandle.read ph w.
Proof.
  split; [| split].
  - intros Hs. split; [by apply PickleHandle_getattr_readline |].
    unfold PickleHandle_invoke. unmonad. by rewrite PickleHandle_getattr_readline.
  - intros Hin. split; [by apply PickleHandle_getattr_forwarded |].
    unfold PickleHandle_invoke, CommandHandle_invoke. unmonad.
    by rewrite PickleHandle_getattr_forwarded.
  - reflexivity.
Qed.





Lemma wrapper_forwards_all_but_readline_witness :
  let ph := PickleHandleObj 6 in
  PickleHandle_invoke (H := RefCodec.codec) ph "readlines" w_answer
  = (Exc (AttributeError "readlines"), w_answer)
  ∧ PickleHandle_invoke (H := RefCodec.codec) ph "poll" (tick 30 w_answer)
    = CommandHandle_invoke (H := RefCodec.codec) 6 "poll" (tick 30 w_answer).
Proof.
  intros ph. split.
  - apply (wrapper_forwards_all_but_readline (H := RefCodec.codec) ph "readlines" w_answer).
    reflexivity.
  - apply (wrapper_forwards_all_but_readline (H := RefCodec.codec) ph "poll" (tick 30 w_answer)).
    unfold forwarded. do 2 right. left.
Defined.

(** C9 as stated fails for [read]: the wrapper has a [read] of its own,
    which unpickles what the wrapped handle's [read] returns. *)
Lemma wrapper_read_is_not_forwarded :
  let ph := PickleHandleObj 6 in
  (PickleHandle_invoke (H := RefCodec.codec) ph "read" w_answer).1 = Ret (PyInt 42)
  ∧ (CommandHandle_invoke (H := RefCodec.codec) (_cmd_handle ph) "read" w_answer).1
    = Ret (PyStr "K*.")
  ∧ PickleHandle_invoke (H := RefCodec.codec) ph "read" w_answer
    ≠ CommandHandle_invoke (H := RefCodec.codec) (_cmd_handle ph) "read" w_answer
  ∧ (PickleHandle_getattr ph "read" w_answer).1
    ≠ (CommandHandle_getattr (_cmd_handle ph) "read" w_answer).1.
Proof. by vm_compute. Qed.

(** ** Results of callables *)

Lemma poll_done `{Codec} self w o :
  heap w !! self = Some o → _done o = true → _CommandHandle.poll self w = (Ret true, w).
Proof.
  intros Ho Hd. unfold _CommandHandle.poll, getself. unmonad. by rewrite Ho, Hd.
Qed.

Lemma holds_output_idle `{Codec} w h s a :
  holds_output w h s → holds_output (run_op (idle_op h a) w) h s.
Proof.
  intros Hw. destruct a as [ms|]; simpl.
  - destruct Hw as [(o & c & te & ind & Hp & Hrest)|Hdone]; [left | by right].
    exists o, c, te, ind. split; [by apply pending_tick | done].
  - destruct Hw as [(o & c & te & ind & Hp & Hend & Hout & Herr)|(o & Ho & Hd & Hj)].
    + destruct (readable (now w) c) eqn:Hready.
      * right. rewrite (poll_pending_ready h w o c) by done. unmonad.
        rewrite (_cleanup_child_done h w o c te ind) by done.
        unfold getself. unmonad. simpl. rewrite lookup_insert_eq. simpl.
        eexists. rewrite lookup_insert_eq. split; [done |]. split; [done |].
        simpl. by rewrite join_splitlines.
      * left. rewrite (poll_pending_early h w o c) by done. by exists o, c, te, ind.
    + right. rewrite (poll_done h w o) by done. by exists o.
Qed.

Lemma holds_output_run `{Codec} w h s l :
  holds_output w h s → holds_output (run (idle_op h <$> l) w) h s.
Proof.
  revert w. induction l as [|a l IH]; intros w Hw; [done |].
  unfold run in *. simpl. by apply IH, holds_output_idle.
Qed.

Lemma read_holds_output `{Codec} w h s :
  holds_output w h s → ∃ w', _CommandHandle.read h w = (Ret s, w').
Proof.
  intros [(o & c & te & ind & Hp & Hend & <- & Herr)|(o & Ho & Hd & <-)].
  - destruct (read_pending h w o c te ind) as (w1 & _ & -> & _); by eauto.
  - rewrite (read_done h w o) by done. by eauto.
Qed.

(** C5. The callable returns [v], which the codec pickles to a payload
    that unpickles to [v].  Whatever the caller does before reading, polling
    any number of times while any amount of time passes, [read()] on the
    typed-result handle returns [v]. *)
Theorem pickle_read_returns_value `{Codec} w0 v s d on_term (idle : list (option nat)) :
  dumps v = inr s → s ≠ "" → loads s = inr v →
  ∃ h w1,
    copen_fn (Behaviour (inr v) (Some d) on_term) w0 = (Ret (PickleHandleObj h), w1)
    ∧ (_PickleHandle.read (PickleHandleObj h) (run (idle_op h <$> idle) w1)).1 = Ret v.
Proof.
  intros Hdumps Hne Hloads.
  destruct (copen_fn_pending (Behaviour (inr v) (Some d) on_term) w0)
    as (h & w1 & o & Hspawn & Hp & Hnow).
  exists h, w1. split; [done |].
  assert (holds_output w1 h s) as Hw1.
  { left. eexists o, _, _, _. split; [exact Hp |].
    unfold fn_program, fn_child. simpl. rewrite Hdumps. simpl. done. }
  destruct (read_holds_output _ h s (holds_output_run w1 h s idle Hw1)) as (w' & Hread).
  unfold _PickleHandle.read. unmonad. simpl. rewrite Hread.
  rewrite bool_decide_false by done. by rewrite Hloads.
Qed.

Lemma pickle_read_returns_value_witness :
  (_PickleHandle.read (H := RefCodec.codec) (PickleHandleObj 6)
     (run (H := RefCodec.codec) [Poll 6; Poll 6; Tick 30; Poll 6; Poll 6] w_answer)).1
  = Ret (PyInt 42).
Proof.
  destruct (pickle_read_returns_value (H := RefCodec.codec) loaded (PyInt 42) "K*." 20 None
              [None; None; Some 30%nat; None; None])
    as (h & w1 & Hspawn & Hread); [reflexivity | done | reflexivity |].
  assert (h = 6%nat ∧ w1 = w_answer) as [-> ->].
  { unfold w_answer, answer. rewrite Hspawn. split; [| done].
    assert ((copen_fn (H := RefCodec.codec) (Behaviour (inr (PyInt 42)) (Some 20%nat) None)
               loaded).1 = Ret (PickleHandleObj 6)) as Hh by (by vm_compute).
    rewrite Hspawn in Hh. by injection Hh. }
  exact Hread.
Defined.

(** ** Errors of callables *)








(** * Further properties *)

(** ** The argument vector *)

(** X1. The argument vector [copen_sys] hands to [execvp] starts with
    the command.  Arguments that already start with the command's name are
    passed as they are, so a first argument equal to the command is taken
    for the name; building the vector twice changes nothing. *)
Theorem argv_starts_with_command (syscmd : string) (args : list string) :
  head (argv syscmd args) = Some syscmd
  ∧ argv syscmd (syscmd :: args) = syscmd :: args
  ∧ (head args ≠ Some syscmd → argv syscmd args = syscmd :: args)
  ∧ argv syscmd (argv syscmd args) = argv syscmd args.
Proof.
  assert (head (argv syscmd args) = Some syscmd) as Hhead.
  { unfold argv. destruct args as [|a args]; [done |].
    case_bool_decide as Ha; [done |]. simpl. by f_equal. }
  assert (∀ l, head l = Some syscmd → argv syscmd l = l) as Hfix.
  { intros [|a l]; [done |]. intros [= ->]. unfold argv.
    by rewrite bool_decide_false by (by intros ?). }
  repeat split; [done | by apply Hfix | | by apply Hfix].
  intros Hne. unfold argv. destruct args as [|a args]; [done |].
  rewrite bool_decide_true; [done |]. intros ->. by apply Hne.
Qed.

(** ** Spawning *)

Lemma copen_sys_registers image syscmd args w0 :
  ∃ h w1 o,
    copen_sys image syscmd args w0 = (Ret h, w1)
    ∧ pending w1 h o (forked (exec_child syscmd (image syscmd (argv syscmd args))) (now w0))
    ∧ now w1 = now w0 ∧ trace w1 = trace w0
    ∧ _active w1 = (_active w0 ++ [h])%list
    ∧ status o = None ∧ killsig o = None ∧ pid o ≠ 0%nat.
Proof.
  unfold copen_sys, os_pipe, os_fork, _CommandHandle.__init__, time_time. unmonad. simpl.
  eexists _, _, (new_handle (S (S (S (S (next_id w0))))) (next_id w0) (S (S (next_id w0)))
                            (now w0)).
  split; [reflexivity |]. split; [| done].
  apply new_handle_pending; simpl; [by rewrite lookup_insert_eq.. | done].
Qed.

Lemma copen_fn_registers `{Codec} func w0 :
  ∃ h w1 o,
    copen_fn func w0 = (Ret (PickleHandleObj h), w1)
    ∧ pending w1 h o (forked (fn_program func) (now w0))
    ∧ now w1 = now w0 ∧ trace w1 = trace w0
    ∧ _active w1 = (_active w0 ++ [h])%list
    ∧ status o = None ∧ killsig o = None ∧ pid o ≠ 0%nat.
Proof.
  unfold copen_fn, _PickleHandle.__init__, os_pipe, os_fork, _CommandHandle.__init__,
    time_time. unmonad. simpl.
  eexists _, _, (new_handle (S (S (S (S (next_id w0))))) (next_id w0) (S (S (next_id w0)))
                            (now w0)).
  split; [reflexivity |]. split; [| done].
  apply new_handle_pending; simpl; [by rewrite lookup_insert_eq.. | done].
Qed.

Lemma could_not_be_executed_nonempty (syscmd : string) :
  syscmd ++ " could not be executed" ++ String newline "" ≠ "".
Proof. by destruct syscmd. Qed.

(** X2. When [execvp] finds nothing to run, the child's message goes
    through the stderr pipe and the parent hands it to [pickle.loads]:
    the first [wait()] or [read()] raises what comes of that, not the
    message.  The handle stays registered, no status is collected, and
    [status] stays unset. *)
Theorem spawn_failure_raises `{Codec} image syscmd args w0 :
  image syscmd (argv syscmd args) = None →
  let msg := syscmd ++ " could not be executed" ++ String newline "" in
  ∃ h w1 w2,
    copen_sys image syscmd args w0 = (Ret h, w1)
    ∧ _CommandHandle.wait h w1 = (Exc (child_error msg), w2)
    ∧ (_CommandHandle.read h w1).1 = Exc (child_error msg)
    ∧ h ∈ _active w2
    ∧ trace w2 = trace w0
    ∧ status <$> heap w2 !! h = Some None.
Proof.
  intros Himg msg.
  destruct (copen_sys_registers image syscmd args w0)
    as (h & w1 & o & Hspawn & Hp & Hnow & Htrace & Hact & Hst & _).
  rewrite Himg in Hp. simpl in Hp.
  pose proof (wait_raises h w1 o _ (now w0 + 0)%nat (exit_ind (-1)) Hp eq_refl
                (could_not_be_executed_nonempty syscmd)) as Hwait.
  simpl in Hwait. fold msg in Hwait.
  exists h, w1. eexists. split; [done |]. split; [exact Hwait |].
  split; [| split; [| split]]; simpl.
  - unfold _CommandHandle.read. unmonad. by rewrite Hwait.
  - rewrite Hact. apply elem_of_app. right. by left.
  - done.
  - rewrite lookup_insert_eq. simpl. by rewrite Hst.
Qed.

Lemma spawn_failure_raises_witness :
  ∃ w2,
    _CommandHandle.wait (H := RefCodec.codec) 6 w_missing
    = (Exc (UnpicklingError ("frobnicate could not be executed" ++ String newline "")), w2)
    ∧ 6%nat ∈ _active w2.
Proof.
  destruct (spawn_failure_raises (H := RefCodec.codec) (λ _ _, None) "frobnicate" [] loaded
              eq_refl)
    as (h & w1 & w2 & Hspawn & Hwait & _ & Hact & _).
  assert (copen_sys (λ _ _, None) "frobnicate" [] loaded = (Ret 6%nat, w_missing)) as Hc
    by (apply injective_projections; [by vm_compute | reflexivity]).
  pose proof (eq_trans (eq_sym Hspawn) Hc) as Hhw.
  assert (w1 = w_missing) as -> by exact (f_equal snd Hhw).
  assert (h = 6%nat) as -> by (by injection (f_equal fst Hhw)).
  exists w2. split; [| exact Hact].
  rewrite Hwait. f_equal; by vm_compute.
Defined.



(** ** Reading by lines *)

Lemma wait_finished `{Codec} self w o :
  heap w !! self = Some o → _done o = true → _CommandHandle.wait self w = (Ret tt, w).
Proof.
  intros Ho Hd. unfold _CommandHandle.wait, getself. unmonad. by rewrite Ho, Hd.
Qed.

(** [readline] on a handle that is done pops the first line of the buffer. *)
Lemma readline_done `{Codec} self w o :
  heap w !! self = Some o → _done o = true →
  _CommandHandle.readline self w
  = match _output o with
    | [] => (Ret "", w)
    | line :: rest => (Ret line, set_heap (alter (with_output rest) self) w)
    end.
Proof.
  intros Ho Hd. unfold _CommandHandle.readline. unmonad.
  rewrite (wait_finished self w o) by done.
  unfold getself, setattr. unmonad. rewrite Ho. by destruct (_output o).
Qed.

Lemma readlines_done `{Codec} self w o :
  heap w !! self = Some o → _done o = true →
  _CommandHandle.readlines self w
  = (Ret (_output o), set_heap (alter (with_output []) self) w).
Proof.
  intros Ho Hd. unfold _CommandHandle.readlines. unmonad.
  rewrite (wait_finished self w o) by done.
  unfold getself, setattr. unmonad. by rewrite Ho.
Qed.

Lemma readline_times_drained `{Codec} self k w o :
  heap w !! self = Some o → _done o = true → _output o = [] →
  readline_times k self w = (replicate k (Ret ""), w).
Proof.
  intros Ho Hd Hout. induction k as [|k IH]; [done |].
  simpl. rewrite (readline_done self w o), Hout by done. by rewrite IH.
Qed.

Lemma readline_times_done `{Codec} self ls k :
  ∀ w o, heap w !! self = Some o → _done o = true → _output o = ls →
  ∃ w' o', readline_times (List.length ls + k) self w
           = ((Ret <$> ls) ++ replicate k (Ret ""), w')%list
           ∧ heap w' !! self = Some o' ∧ _done o' = true ∧ _output o' = [].
Proof.
  induction ls as [|l ls IH]; intros w o Ho Hd Hout.
  - exists w, o. simpl. by rewrite (readline_times_drained self k w o).
  - simpl. rewrite (readline_done self w o), Hout by done.
    destruct (IH (set_heap (alter (with_output ls) self) w) (with_output ls o))
      as (w' & o' & -> & Hrest); [by simpl; rewrite lookup_alter_eq, Ho | done..|].
    by exists w', o'.
Qed.

(** The state [wait] leaves behind when it goes through. *)
Lemma wait_done_state `{Codec} self w o c te ind :
  pending w self o c → c_end c = Some (te, ind) → c_err c = "" →
  ∃ w1 o1, _CommandHandle.wait self w = (Ret tt, w1)
           ∧ heap w1 !! self = Some o1 ∧ _done o1 = true
           ∧ _output o1 = splitlines (c_out c).
Proof.
  intros Hp Hend Herr. rewrite (wait_done self w o c te ind) by done.
  eexists _, _. split; [done |]. simpl. by rewrite lookup_insert_eq.
Qed.

(** X4. Once the child has ended without writing to its stderr,
    successive [readline()] calls return the lines of its output in order,
    and the empty string from then on; the lines joined are the output. *)
Theorem readline_returns_lines_in_order `{Codec} self w o c te ind k :
  pending w self o c → c_end c = Some (te, ind) → c_err c = "" →
  (readline_times (List.length (splitlines (c_out c)) + k) self w).1
  = ((Ret <$> splitlines (c_out c)) ++ replicate k (Ret ""))%list
  ∧ _CommandHandle.join (splitlines (c_out c)) = c_out c.
Proof.
  intros Hp Hend Herr. split; [| apply join_splitlines].
  destruct (wait_done_state self w o c te ind Hp Hend Herr)
    as (w1 & o1 & Hwait & Ho1 & Hd1 & Hout1).
  destruct (readline_times_done self (splitlines (c_out c)) k w1 o1 Ho1 Hd1 Hout1)
    as (w' & o' & Hrun & _).
  destruct (List.length (splitlines (c_out c)) + k)%nat as [|n] eqn:Hn.
  - destruct (splitlines (c_out c)); [| done]. by destruct k.
  - simpl in Hrun |- *.
    assert (_CommandHandle.readline self w = _CommandHandle.readline self w1) as ->.
    { unfold _CommandHandle.readline. unmonad.
      by rewrite Hwait, (wait_finished self w1 o1). }
    destruct (_CommandHandle.readline self w1) as [x w2].
    destruct (readline_times n self w2) as [xs w3]. by injection Hrun as <- _.
Qed.

Lemma w_echo_pending :
  pending w_echo 6 (new_handle 5 1 3 0) (forked echo 0).
Proof. repeat split; try by vm_compute. all: by eexists. Qed.

Lemma readline_returns_lines_in_order_witness :
  (readline_times (H := RefCodec.codec) 4 6 w_echo).1
  = [Ret ("abc" ++ String newline ""); Ret "de"; Ret ""; Ret ""].
Proof.
  exact (proj1 (readline_returns_lines_in_order (H := RefCodec.codec) 6 w_echo _ _
                  20%nat (exit_ind 0) 2 w_echo_pending eq_refl eq_refl)).
Defined.

(** X5. Once the child has ended without writing to its stderr,
    [readlines()] returns the lines of its output, and [] when called
    again; and [read()] after one [readline()] returns the rest: the line
    and the rest together are the output. *)
Theorem readlines_and_mixed_reads `{Codec} self w o c te ind :
  pending w self o c → c_end c = Some (te, ind) → c_err c = "" →
  (∃ w1 w2, _CommandHandle.readlines self w = (Ret (splitlines (c_out c)), w1)
            ∧ _CommandHandle.readlines self w1 = (Ret [], w2))
  ∧ (∃ line rest w1 w2, _CommandHandle.readline self w = (Ret line, w1)
                        ∧ _CommandHandle.read self w1 = (Ret rest, w2)
                        ∧ line ++ rest = c_out c).
Proof.
  intros Hp Hend Herr.
  destruct (wait_done_state self w o c te ind Hp Hend Herr)
    as (w1 & o1 & Hwait & Ho1 & Hd1 & Hout1).
  split.
  - assert (_CommandHandle.readlines self w = _CommandHandle.readlines self w1) as ->.
    { unfold _CommandHandle.readlines. unmonad.
      by rewrite Hwait, (wait_finished self w1 o1). }
    rewrite (readlines_done self w1 o1), Hout1 by done.
    eexists _, _. split; [done |].
    rewrite (readlines_done self _ (with_output [] o1));
      [done | by simpl; rewrite lookup_alter_eq, Ho1 | done].
  - assert (_CommandHandle.readline self w = _CommandHandle.readline self w1) as ->.
    { unfold _CommandHandle.readline. unmonad.
      by rewrite Hwait, (wait_finished self w1 o1). }
    rewrite (readline_done self w1 o1), Hout1 by done.
    pose proof (join_splitlines (c_out c)) as Hjoin.
    destruct (splitlines (c_out c)) as [|line rest].
    + exists "", "", w1. eexists. split; [done |].
      rewrite (read_done self w1 o1), Hout1 by done. by rewrite <- Hjoin.
    + exists line, (_CommandHandle.join rest). eexists _, _. split; [done |].
      rewrite (read_done self _ (with_output rest o1));
        [| by simpl; rewrite lookup_alter_eq, Ho1 | done].
      split; [done |]. by rewrite <- join_cons.
Qed.

Lemma readlines_and_mixed_reads_witness :
  (_CommandHandle.readlines (H := RefCodec.codec) 6 w_echo).1
  = Ret ["abc" ++ String newline ""; "de"].
Proof.
  destruct (readlines_and_mixed_reads (H := RefCodec.codec) 6 w_echo _ _
              20%nat (exit_ind 0) w_echo_pending eq_refl eq_refl)
    as [(w1 & w2 & H1 & _) _].
  by rewrite H1.
Defined.

(** ** Polling *)

Lemma _cleanup_child_hangs `{Codec} self w o c :
  pending w self o c → c_end c = None →
  _CommandHandle._cleanup_child self w = (Hang, w).
Proof.
  intros (Ho & Hd & [fd Hr] & _ & Hc & _) Hend.
  unfold _CommandHandle._cleanup_child, getself, file_readlines, file_read.
  repeat (unmonad; simpl; rewrite ?Ho, ?Hd, ?Hr, ?Hc, ?Hend). done.
Qed.

(** X6. [poll()] returns at once only while the stdout pipe is not
    readable: it answers false and changes nothing.  Once the child has
    written something, [poll()] reads to the end of the pipe: it returns
    true when the child has ended, at the time of that end, and it does not
    return when the child never ends. *)
Theorem poll_waits_once_pipe_is_readable `{Codec} self w o c :
  pending w self o c → c_err c = "" →
  (readable (now w) c = false → _CommandHandle.poll self w = (Ret false, w))
  ∧ (readable (now w) c = true →
     match c_end c with
     | Some (te, ind) =>
         ∃ w', _CommandHandle.poll self w = (Ret true, w')
               ∧ now w' = Nat.max te (now w)
     | None => (_CommandHandle.poll self w).1 = Hang
     end).
Proof.
  intros Hp Herr. split; intros Hready.
  - by apply (poll_pending_early self w o c).
  - rewrite (poll_pending_ready self w o c) by done. unmonad.
    destruct (c_end c) as [[te ind]|] eqn:Hend.
    + rewrite (_cleanup_child_done self w o c te ind) by done.
      unfold getself. unmonad. simpl. rewrite lookup_insert_eq. simpl. by eexists.
    + by rewrite (_cleanup_child_hangs self w o c).
Qed.

Lemma w_slow_pending :
  pending w_slow 6 (new_handle 5 1 3 0) (forked slow 0).
Proof. repeat split; try by vm_compute. all: by eexists. Qed.

Lemma poll_waits_once_pipe_is_readable_witness :
  _CommandHandle.poll (H := RefCodec.codec) 6 (tick 4 w_slow) = (Ret false, tick 4 w_slow)
  ∧ ∃ w', _CommandHandle.poll (H := RefCodec.codec) 6 (tick 10 w_slow) = (Ret true, w')
          ∧ now w' = 1000%nat.
Proof.
  split.
  - apply (poll_waits_once_pipe_is_readable (H := RefCodec.codec) 6 (tick 4 w_slow) _ _
             (pending_tick 4 _ _ _ _ w_slow_pending) eq_refl).
    by vm_compute.
  - apply (proj2 (poll_waits_once_pipe_is_readable (H := RefCodec.codec) 6 (tick 10 w_slow)
                    _ _ (pending_tick 10 _ _ _ _ w_slow_pending) eq_refl)).
    by vm_compute.
Defined.

(** ** The descriptor *)

(** X7. Before completion [fileno()] is the descriptor of the stdout
    pipe; completion handling closes the stream, and from then on
    [fileno()] raises the closed-file error. *)
Theorem fileno_until_completion `{Codec} self w o c te ind :
  pending w self o c → c_end c = Some (te, ind) → c_err c = "" →
  _CommandHandle.fileno self w = (Ret (f_fd (_cread o)), w)
  ∧ ∃ w1, _CommandHandle.wait self w = (Ret tt, w1)
          ∧ _CommandHandle.fileno self w1 = (Exc closed_file_error, w1).
Proof.
  intros Hp Hend Herr. pose proof Hp as (Ho & _ & [fd Hr] & _).
  split.
  - unfold _CommandHandle.fileno, getself, file_fileno. unmonad. by rewrite Ho, Hr.
  - rewrite (wait_done self w o c te ind) by done. eexists. split; [done |].
    unfold _CommandHandle.fileno, getself, file_fileno. unmonad. simpl.
    by rewrite lookup_insert_eq.
Qed.

Lemma fileno_until_completion_witness :
  _CommandHandle.fileno 6 w_echo = (Ret 1%nat, w_echo)
  ∧ ∃ w1, _CommandHandle.wait (H := RefCodec.codec) 6 w_echo = (Ret tt, w1)
          ∧ _CommandHandle.fileno 6 w1 = (Exc closed_file_error, w1).
Proof.
  exact (fileno_until_completion (H := RefCodec.codec) 6 w_echo _ _ 20%nat (exit_ind 0)
           w_echo_pending eq_refl eq_refl).
Defined.

(** ** After close() *)

Lemma read_drained `{Codec} self w o :
  heap w !! self = Some o → _done o = true → _output o = [] →
  _CommandHandle.read self w = (Ret "", w)
  ∧ _CommandHandle.readlines self w = (Ret [], w)
  ∧ _CommandHandle.readline self w = (Ret "", w)
  ∧ _CommandHandle.poll self w = (Ret true, w)
  ∧ _PickleHandle.read (PickleHandleObj self) w = (Ret (PyStr ""), w).
Proof.
  intros Ho Hd Hout.
  assert (set_heap (alter (with_output []) self) w = w) as Hid.
  { apply set_heap_id. apply (alter_fixed _ _ _ o); [done |].
    destruct o; simpl in *. by subst. }
  assert (_CommandHandle.read self w = (Ret "", w)) as Hread.
  { by rewrite (read_done self w o), Hout, Hid. }
  repeat split.
  - done.
  - by rewrite (readlines_done self w o), Hout, Hid.
  - by rewrite (readline_done self w o), Hout.
  - by apply (poll_done self w o).
  - unfold _PickleHandle.read. unmonad. simpl. by rewrite Hread.
Qed.

(** X8. [close()] drops whatever output is buffered and leaves both
    streams as they are: it never closes a pipe.  Afterwards the handle
    reads as empty: [read()] and [readline()] return the empty string,
    [readlines()] the empty list, the wrapper's [read()] the empty string,
    and [poll()] answers true; none of them changes anything. *)
Theorem close_discards_output `{Codec} self w o :
  heap w !! self = Some o → _closed o = false →
  ∃ w' o',
    _CommandHandle.close self w = (Ret tt, w')
    ∧ heap w' !! self = Some o'
    ∧ _cread o' = _cread o ∧ _errread o' = _errread o ∧ pid o' = pid o
    ∧ _output o' = [] ∧ _done o' = true ∧ _closed o' = true
    ∧ _CommandHandle.read self w' = (Ret "", w')
    ∧ _CommandHandle.readlines self w' = (Ret [], w')
    ∧ _CommandHandle.readline self w' = (Ret "", w')
    ∧ _CommandHandle.poll self w' = (Ret true, w')
    ∧ _PickleHandle.read (PickleHandleObj self) w' = (Ret (PyStr ""), w').
Proof.
  intros Ho Hc.
  destruct (close_open self w o Ho Hc) as (w' & Hclose & Hh & _).
  assert (heap w' !! self = Some (closed_handle o (now w'))) as Ho'
    by (by rewrite Hh, lookup_insert_eq).
  exists w', (closed_handle o (now w')). split; [done |]. split; [done |].
  assert (_output (closed_handle o (now w')) = []
          ∧ _done (closed_handle o (now w')) = true) as [Hout Hd].
  { unfold closed_handle. by destruct (_done o) eqn:Hdone. }
  repeat (split; [by unfold closed_handle; destruct (_done o) eqn:Hdone |]).
  by apply (read_drained self w' (closed_handle o (now w'))).
Qed.

Lemma close_discards_output_witness :
  let w := (_CommandHandle.wait (H := RefCodec.codec) 6 w_echo).2 in
  ∃ w', _CommandHandle.close 6 w = (Ret tt, w')
        ∧ _CommandHandle.read (H := RefCodec.codec) 6 w' = (Ret "", w').
Proof.
  intros w.
  edestruct (close_discards_output (H := RefCodec.codec) 6 w)
    as (w' & o' & Hclose & _ & _ & _ & _ & _ & _ & _ & Hread & _);
    [by vm_compute | by vm_compute |].
  by exists w'.
Defined.

(** ** The kill sequence, round by round *)

Lemma grace_eq : _CommandHandle.grace = 500%nat.
Proof. by vm_compute. Qed.

(** The loop reaps a child that ends during round [k], and returns the
    low byte of its wait status. *)
Lemma _kill_loop_reaps k : ∀ fuel p e w c te ind,
  procs w !! p = Some c → c_reaped c = false → c_end c = Some (te, ind) → p ≠ 0%nat →
  (now w + 100 * k < e)%nat → (k < fuel)%nat →
  (te ≤ now w + 100 * k)%nat → (∀ j, j < k → now w + 100 * j < te)%nat →
  ∃ w', _CommandHandle._kill_loop fuel p e w = (Ret (Some (wait_signal ind)), w')
        ∧ now w' = (now w + 100 * k)%nat
        ∧ procs w' = <[p := reap c]> (procs w)
        ∧ trace w' = (trace w ++ [EvReap p ind])%list.
Proof.
  induction k as [|k IH]; intros fuel p e w c te ind Hc Hr He Hp Hlt Hfuel Hte Hnot;
    rewrite _kill_loop_unfold; unfold time_time; unmonad;
    (rewrite bool_decide_true by lia); (destruct fuel as [|fuel]; [lia |]);
    unfold waitpid_nohang, live_child; unmonad; rewrite Hc, Hr, He.
  - rewrite bool_decide_true by lia. simpl. rewrite bool_decide_true by done.
    eexists. split; [done |]. simpl. repeat split. lia.
  - pose proof (Hnot 0%nat ltac:(lia)).
    rewrite bool_decide_false by lia. simpl. rewrite bool_decide_false by done.
    unfold time_sleep. unmonad.
    destruct (IH fuel p e (set_now (λ t, t + 100)%nat w) c te ind)
      as (w' & -> & Hn & Hpr & Htr); simpl; try done; try lia.
    { intros j Hj. pose proof (Hnot (S j) ltac:(lia)). lia. }
    eexists. split; [done |]. simpl in *. repeat split; try done. lia.
Qed.

(** The loop gives up after [k] rounds on a child that has not ended by
    the start of the last one. *)
Lemma _kill_loop_gives_up k : ∀ fuel p e w c,
  procs w !! p = Some c → c_reaped c = false → p ≠ 0%nat →
  e = (now w + 100 * k)%nat → (k ≤ fuel)%nat →
  (∀ j, j < k → ended (now w + 100 * j) c = false)%nat →
  ∃ w', _CommandHandle._kill_loop fuel p e w = (Ret None, w')
        ∧ now w' = e ∧ procs w' = procs w ∧ trace w' = trace w.
Proof.
  induction k as [|k IH]; intros fuel p e w c Hc Hr Hp He Hfuel Hnot;
    rewrite _kill_loop_unfold; unfold time_time; unmonad.
  - rewrite bool_decide_false by lia. eexists. split; [done |]. repeat split. lia.
  - rewrite bool_decide_true by lia. destruct fuel as [|fuel]; [lia |].
    assert (∀ j, j < k → ended (now w + 100 + 100 * j) c = false)%nat as Hnot'.
    { intros j Hj. pose proof (Hnot (S j) ltac:(lia)) as HS.
      by replace (now w + 100 + 100 * j)%nat with (now w + 100 * S j)%nat by lia. }
    destruct (IH fuel p e (set_now (λ t, t + 100)%nat w) c Hc Hr Hp
                ltac:(simpl; lia) ltac:(lia) Hnot') as (w' & Hloop & Hn & Hpr & Htr).
    pose proof (Hnot 0%nat ltac:(lia)) as H0. unfold ended in H0.
    replace (now w + 100 * 0)%nat with (now w) in H0 by lia.
    unfold waitpid_nohang, live_child; unmonad; rewrite Hc, Hr.
    clear Hnot Hnot' IH.
    destruct (c_end c) as [[te ind]|]; [rewrite H0 |].
    all: cbn [fst snd]; rewrite bool_decide_false by done.
    all: unfold time_sleep; unmonad; rewrite Hloop.
    all: eexists; split; [done |]; by simpl in *.
Qed.

(** Whatever the child does, the loop leaves the clock within the grace
    period. *)
Lemma _kill_loop_clock k : ∀ fuel p e w,
  e = (now w + 100 * k)%nat → (k ≤ fuel)%nat →
  (now w ≤ now (_CommandHandle._kill_loop fuel p e w).2
   ∧ now (_CommandHandle._kill_loop fuel p e w).2 ≤ e)%nat.
Proof.
  induction k as [|k IH]; intros fuel p e w He Hfuel;
    rewrite _kill_loop_unfold; unfold time_time; unmonad.
  - rewrite bool_decide_false by lia. simpl. lia.
  - rewrite bool_decide_true by lia. destruct fuel as [|fuel]; [lia |].
    destruct (waitpid_nohang_cases p w) as [[s ->]|(r & w1 & -> & Hnow)]; [simpl; lia |].
    case_bool_decide; [simpl; lia |].
    unfold time_sleep. unmonad.
    pose proof (IH fuel p e (set_now (λ t, t + 100)%nat w1) ltac:(simpl; lia) ltac:(lia))
      as [Hlo Hhi].
    simpl in *. lia.
Qed.

(** ** What close() does to the child *)

(** [close()] on a running handle: the operating-system side is that of
    [_kill], the Python side that of [closed_handle]. *)
Lemma close_running self w o k w1 :
  heap w !! self = Some o → _closed o = false → _done o = false →
  _CommandHandle._kill self (set_active (list_remove_first self) w) = (Ret k, w1) →
  ∃ w', _CommandHandle.close self w = (Ret tt, w')
        ∧ procs w' = procs w1 ∧ now w' = now w1 ∧ trace w' = trace w1
        ∧ heap w' !! self = Some (closed_handle o (now w1))
        ∧ _active w' = list_remove_first self (_active w).
Proof.
  intros Ho Hc Hd Hk.
  destruct (close_open self w o Ho Hc) as (w' & Hclose & Hh & Ha & _).
  exists w'. split; [done |].
  assert (procs w' = procs w1 ∧ now w' = now w1 ∧ trace w' = trace w1) as (Hp & Hn & Ht).
  { revert Hclose. unfold _CommandHandle.close. unmonad. rewrite Ho, Hc, unregister_spec, Hd.
    simpl. rewrite Hk. unfold time_time. simpl. intros [= <-]. by simpl. }
  repeat split; try done. by rewrite Hh, Hn, lookup_insert_eq.
Qed.

Lemma _kill_ended self w o c te ind :
  heap w !! self = Some o → procs w !! pid o = Some c → c_reaped c = false →
  c_end c = Some (te, ind) → (te ≤ now w)%nat →
  ∃ w1, _CommandHandle._kill self w = (Ret (Some 0), w1)
        ∧ now w1 = now w ∧ procs w1 = <[pid o := reap c]> (procs w)
        ∧ trace w1 = (trace w ++ [EvReap (pid o) ind])%list.
Proof.
  intros Ho Hc Hr He Hte.
  unfold _CommandHandle._kill, getself, waitpid_nohang, live_child. unmonad.
  rewrite Ho, Hc, Hr, He. rewrite bool_decide_true by lia. simpl.
  rewrite bool_decide_true by done. by eexists.
Qed.

Lemma waitpid_nohang_running p w c :
  procs w !! p = Some c → c_reaped c = false → ended (now w) c = false →
  waitpid_nohang p w = (Ret (0%nat, 0), w).
Proof.
  intros Hc Hr He. unfold waitpid_nohang, live_child. unmonad. rewrite Hc, Hr.
  unfold ended in He. destruct (c_end c) as [[te ind]|]; [| done]. by rewrite He.
Qed.

(** SIGTERM to a running child that reacts to it before its own end. *)
Lemma os_kill_obeyed p w c d ind :
  procs w !! p = Some c → c_reaped c = false → ended (now w + d) c = false →
  c_on_term c = Some (d, ind) →
  os_kill p SIGTERM w
  = (Ret tt, set_procs <[p := end_at (now w + d) ind c]> (log (EvKill p SIGTERM) w)).
Proof.
  intros Hc Hr He Hterm. unfold os_kill, live_child. unmonad. rewrite Hc, Hr. simpl.
  unfold ended in *. rewrite Hterm.
  destruct (c_end c) as [[te i]|]; simpl.
  - apply bool_decide_eq_false in He.
    by rewrite ?bool_decide_false by (done || lia).
  - by rewrite ?bool_decide_false by done.
Qed.

(** A signal to a running child: the child the table holds afterwards. *)
Lemma os_kill_running p sig w c :
  procs w !! p = Some c → c_reaped c = false →
  ∃ c1 w1, os_kill p sig w = (Ret tt, w1)
           ∧ now w1 = now w
           ∧ trace w1 = (trace w ++ [EvKill p sig])%list
           ∧ procs w1 = <[p := c1]> (procs w)
           ∧ c_reaped c1 = false
           ∧ (sig = SIGKILL → ended (now w) c1 = true)
           ∧ (∀ t, ended t c = false →
                   match c_on_term c with Some (d, _) => t < now w + d | None => True end%nat →
                   sig = SIGTERM → ended t c1 = false).
Proof.
  intros Hc Hr. unfold os_kill, live_child. unmonad. rewrite Hc, Hr. simpl.
  assert (procs w = <[p := c]> (procs w)) as Hid by (by rewrite insert_id).
  destruct (ended (now w) c) eqn:Hended.
  { exists c, (log (EvKill p sig) w). repeat split; try done. }
  case_bool_decide as Hsig.
  { eexists (end_at (now w) SIGKILL c), _. repeat split; try done.
    - intros _. unfold ended. simpl. by rewrite bool_decide_true.
    - intros t _ _ ->. done. }
  destruct (c_on_term c) as [[d ind]|] eqn:Hterm.
  2: { exists c, (log (EvKill p sig) w). repeat split; try done. }
  assert (∀ t, (t < now w + d)%nat → ended t (end_at (now w + d) ind c) = false) as Hnew.
  { intros t Ht. unfold ended. simpl. by rewrite bool_decide_false by lia. }
  destruct (c_end c) as [[te i]|] eqn:Hend.
  - case_bool_decide.
    + exists c, (log (EvKill p sig) w). repeat split; try done.
    + eexists (end_at (now w + d) ind c), _. repeat split; try done. intros; by apply Hnew.
  - eexists (end_at (now w + d) ind c), _. repeat split; try done. intros; by apply Hnew.
Qed.

Lemma ended_mono t t' c : (t ≤ t')%nat → ended t' c = false → ended t c = false.
Proof.
  unfold ended. destruct (c_end c) as [[te ind]|]; [| done].
  intros Hle Ht'%bool_decide_eq_false. apply bool_decide_eq_false. lia.
Qed.

(** X9. [close()] on a handle whose child has already exited, before the
    parent ever waited for it: the child is reaped at once, no signal is
    sent and no time passes; but the handle records signal SIGTERM and
    no status, and what the child wrote is dropped unread. *)
Theorem close_after_exit_discards_status self w o c te ind :
  heap w !! self = Some o → _closed o = false → _done o = false →
  procs w !! pid o = Some c → c_reaped c = false →
  c_end c = Some (te, ind) → (te ≤ now w)%nat →
  ∃ w' o',
    _CommandHandle.close self w = (Ret tt, w')
    ∧ trace w' = (trace w ++ [EvReap (pid o) ind])%list
    ∧ now w' = now w
    ∧ procs w' = <[pid o := reap c]> (procs w)
    ∧ heap w' !! self = Some o'
    ∧ status o' = None ∧ killsig o' = Some SIGTERM
    ∧ _end o' = Some (now w) ∧ _output o' = []
    ∧ _cread o' = _cread o ∧ _errread o' = _errread o.
Proof.
  intros Ho Hc Hd Hp Hr He Hte.
  destruct (_kill_ended self (set_active (list_remove_first self) w) o c te ind)
    as (w1 & Hk & Hn1 & Hp1 & Ht1); try done.
  destruct (close_running self w o _ w1 Ho Hc Hd Hk) as (w' & Hclose & Hp' & Hn' & Ht' & Hh' & _).
  exists w', (closed_handle o (now w1)). split; [done |].
  simpl in Hn1. rewrite Hn1 in Hh'.
  rewrite Hp', Hn', Ht', Hp1, Hn1, Ht1. simpl.
  repeat split; try done. all: unfold closed_handle; by rewrite Hd.
Qed.

Lemma close_after_exit_discards_status_witness :
  ∃ w' o',
    _CommandHandle.close 6 (tick 30 w_echo) = (Ret tt, w')
    ∧ trace w' = (trace (tick 30 w_echo) ++ [EvReap 5 (exit_ind 0)])%list
    ∧ now w' = 30%nat
    ∧ heap w' !! 6%nat = Some o'
    ∧ status o' = None ∧ killsig o' = Some SIGTERM.
Proof.
  destruct (close_after_exit_discards_status 6 (tick 30 w_echo) (new_handle 5 1 3 0)
              (forked echo 0) 20 (exit_ind 0))
    as (w' & o' & Hclose & Ht & Hn & _ & Ho' & Hs & Hk & _);
    [by vm_compute | done | done | by vm_compute | done | done | simpl; lia |].
  by exists w', o'.
Defined.

(** X10. [close()] on a running child that reacts to SIGTERM within
    400 ms: one SIGTERM is sent, the child is reaped in the polling round
    that follows its end, so [close()] takes the child's reaction time
    rounded up to a multiple of 100 ms, and no SIGKILL is sent. *)
Theorem close_ends_child_with_SIGTERM self w o c d ind :
  heap w !! self = Some o → _closed o = false → _done o = false → pid o ≠ 0%nat →
  procs w !! pid o = Some c → c_reaped c = false →
  ended (now w + d) c = false → c_on_term c = Some (d, ind) → (d ≤ 400)%nat →
  ∃ w',
    _CommandHandle.close self w = (Ret tt, w')
    ∧ trace w' = (trace w ++ [EvKill (pid o) SIGTERM; EvReap (pid o) ind])%list
    ∧ now w' = (now w + 100 * ((d + 99) / 100))%nat
    ∧ procs w' = <[pid o := reap (end_at (now w + d) ind c)]> (procs w)
    ∧ killsig <$> heap w' !! self = Some (Some SIGTERM)
    ∧ status <$> heap w' !! self = Some None.
Proof.
  intros Ho Hc Hd Hpid Hp Hr He Hterm Hle.
  set (w0 := set_active (list_remove_first self) w).
  set (k := ((d + 99) / 100)%nat).
  assert (100 * k < d + 100 ∧ d ≤ 100 * k ∧ k ≤ 4)%nat as (Hk1 & Hk2 & Hk3).
  { subst k. pose proof (Nat.div_mod_eq (d + 99) 100).
    pose proof (Nat.mod_upper_bound (d + 99) 100 ltac:(lia)). lia. }
  assert (∃ w1, _CommandHandle._kill self w0 = (Ret (Some (wait_signal ind)), w1)
                ∧ trace w1 = (trace w ++ [EvKill (pid o) SIGTERM; EvReap (pid o) ind])%list
                ∧ now w1 = (now w + 100 * k)%nat
                ∧ procs w1 = <[pid o := reap (end_at (now w + d) ind c)]> (procs w))
    as (w1 & Hkill & Ht1 & Hn1 & Hp1).
  { unfold _CommandHandle._kill, getself. unmonad. simpl. rewrite Ho.
    rewrite (waitpid_nohang_running (pid o) w0 c) by
      first [done | apply (ended_mono _ (now w + d)); [simpl; lia | done]].
    simpl. rewrite bool_decide_false by done.
    rewrite (os_kill_obeyed (pid o) w0 c d ind) by done.
    unfold time_time. cbv zeta. change (now w0) with (now w).
    set (w2 := set_procs <[pid o := end_at (now w + d) ind c]>
                 (log (EvKill (pid o) SIGTERM) w0)).
    assert (procs w2 !! pid o = Some (end_at (now w + d) ind c)) as Hc2
      by (by simpl; rewrite lookup_insert_eq).
    assert (now w2 + 100 * k < now w2 + _CommandHandle.grace)%nat as Hlt
      by (rewrite grace_eq; lia).
    assert (k < _CommandHandle.grace)%nat as Hfuel by (rewrite grace_eq; lia).
    assert (now w + d ≤ now w2 + 100 * k)%nat as Hte by (simpl; lia).
    assert (∀ j, j < k → now w2 + 100 * j < now w + d)%nat as Hnot
      by (intros j Hj; simpl; lia).
    destruct (_kill_loop_reaps k _CommandHandle.grace (pid o)
                (now w2 + _CommandHandle.grace)%nat w2
                (end_at (now w + d) ind c) (now w + d)%nat ind
                Hc2 Hr eq_refl Hpid Hlt Hfuel Hte Hnot)
      as (w1 & Hloop & Hn1 & Hp1 & Ht1).
    rewrite Hloop. exists w1. split; [done |].
    rewrite Ht1, Hn1, Hp1. simpl. rewrite <- app_assoc. repeat split; try done.
    by rewrite insert_insert_eq. }
  destruct (close_running self w o _ w1 Ho Hc Hd Hkill)
    as (w' & Hclose & Hp' & Hn' & Ht' & Hh' & _).
  exists w'. split; [done |]. rewrite Hp', Hn', Ht', Hh'.
  repeat split; try done. all: unfold closed_handle; by rewrite Hd.
Qed.

Lemma close_ends_child_with_SIGTERM_witness :
  ∃ w',
    _CommandHandle.close 6 w_echo = (Ret tt, w')
    ∧ trace w' = (trace w_echo ++ [EvKill 5 SIGTERM; EvReap 5 SIGTERM])%list
    ∧ now w' = 100%nat.
Proof.
  destruct (close_ends_child_with_SIGTERM 6 w_echo (new_handle 5 1 3 0) (forked echo 0)
              10 SIGTERM)
    as (w' & Hclose & Ht & Hn & _);
    [by vm_compute | done | done | done | by vm_compute | done | by vm_compute | done
    | lia |].
  exists w'. by repeat split.
Defined.

(** X11. [close()] on a child that is still running 400 ms after the
    SIGTERM, because it ignores the signal or reacts too slowly: after
    five polling rounds, 500 ms after the SIGTERM, one SIGKILL follows,
    and that is all: the child has ended but nobody collects its status,
    and the handle records SIGTERM, not SIGKILL. *)
Theorem close_escalates_to_SIGKILL self w o c :
  heap w !! self = Some o → _closed o = false → _done o = false → pid o ≠ 0%nat →
  procs w !! pid o = Some c → c_reaped c = false →
  ended (now w + 400) c = false →
  match c_on_term c with Some (d, _) => (400 < d)%nat | None => True end →
  ∃ w' c',
    _CommandHandle.close self w = (Ret tt, w')
    ∧ trace w' = (trace w ++ [EvKill (pid o) SIGTERM; EvKill (pid o) SIGKILL])%list
    ∧ now w' = (now w + 500)%nat
    ∧ procs w' !! pid o = Some c'
    ∧ ended (now w') c' = true ∧ c_reaped c' = false
    ∧ killsig <$> heap w' !! self = Some (Some SIGTERM)
    ∧ status <$> heap w' !! self = Some None.
Proof.
  intros Ho Hc Hd Hpid Hp Hr He Hterm.
  set (w0 := set_active (list_remove_first self) w).
  assert (∃ w3 c', _CommandHandle._kill self w0 = (Ret (Some SIGKILL), w3)
                   ∧ trace w3
                     = (trace w ++ [EvKill (pid o) SIGTERM; EvKill (pid o) SIGKILL])%list
                   ∧ now w3 = (now w + 500)%nat
                   ∧ procs w3 !! pid o = Some c'
                   ∧ ended (now w + 500) c' = true ∧ c_reaped c' = false)
    as (w3 & c' & Hkill & Ht3 & Hn3 & Hp3 & He3 & Hr3).
  { unfold _CommandHandle._kill, getself. unmonad. simpl. rewrite Ho.
    rewrite (waitpid_nohang_running (pid o) w0 c) by
      first [done | apply (ended_mono _ (now w + 400)); [simpl; lia | done]].
    simpl. rewrite bool_decide_false by done.
    destruct (os_kill_running (pid o) SIGTERM w0 c Hp Hr)
      as (c1 & w1 & -> & Hn1 & Ht1 & Hp1 & Hr1 & _ & Hrun1).
    simpl in Hn1, Ht1, Hp1.
    assert (ended (now w + 400) c1 = false) as He1.
    { apply Hrun1; [done | | done]. destruct (c_on_term c) as [[d i]|]; [simpl; lia | done]. }
    unfold time_time. cbv zeta.
    assert (procs w1 !! pid o = Some c1) as Hc1 by (by rewrite Hp1, lookup_insert_eq).
    assert (now w1 + _CommandHandle.grace = now w1 + 100 * 5)%nat as Hg
      by (rewrite grace_eq; lia).
    assert (5 ≤ _CommandHandle.grace)%nat as Hfuel by (rewrite grace_eq; lia).
    assert (∀ j, j < 5 → ended (now w1 + 100 * j) c1 = false)%nat as Hnot.
    { intros j Hj. apply (ended_mono _ (now w + 400)); [lia | done]. }
    destruct (_kill_loop_gives_up 5 _CommandHandle.grace (pid o)
                (now w1 + _CommandHandle.grace)%nat w1 c1 Hc1 Hr1 Hpid Hg Hfuel Hnot)
      as (w2 & -> & Hn2 & Hp2 & Ht2).
    rewrite <- Hp2 in Hc1.
    destruct (os_kill_running (pid o) SIGKILL w2 c1 Hc1 Hr1)
      as (c2 & w3 & -> & Hn3 & Ht3 & Hp3 & Hr3 & He3 & _).
    exists w3, c2. split; [done |].
    rewrite Ht3, Ht2, Ht1, <- app_assoc, Hn3, Hn2, Hp3, lookup_insert_eq, grace_eq, Hn1.
    repeat split; try done.
    specialize (He3 eq_refl). by rewrite Hn2, grace_eq, Hn1 in He3. }
  destruct (close_running self w o _ w3 Ho Hc Hd Hkill)
    as (w' & Hclose & Hp' & Hn' & Ht' & Hh' & _).
  exists w', c'. split; [done |]. rewrite Hp', Hn', Ht', Hh', Hn3.
  repeat split; try done. all: unfold closed_handle; by rewrite Hd.
Qed.

Lemma w_stubborn_pending :
  pending w_stubborn 6 (new_handle 5 1 3 0) (forked stubborn 0).
Proof. repeat split; try by vm_compute. all: by eexists. Qed.

Lemma close_escalates_to_SIGKILL_witness :
  ∃ w' c',
    _CommandHandle.close 6 w_stubborn = (Ret tt, w')
    ∧ trace w' = (trace w_stubborn ++ [EvKill 5 SIGTERM; EvKill 5 SIGKILL])%list
    ∧ now w' = 500%nat
    ∧ procs w' !! 5%nat = Some c'
    ∧ ended (now w') c' = true ∧ c_reaped c' = false.
Proof.
  destruct (close_escalates_to_SIGKILL 6 w_stubborn (new_handle 5 1 3 0) (forked stubborn 0))
    as (w' & c' & Hclose & Ht & Hn & Hp & He & Hr & _);
    [by vm_compute | done | done | done | by vm_compute | done | done | done |].
  by exists w', c'.
Defined.

Lemma _kill_clock self w :
  (now w ≤ now (_CommandHandle._kill self w).2
   ∧ now (_CommandHandle._kill self w).2 ≤ now w + 500)%nat.
Proof.
  unfold _CommandHandle._kill, getself. unmonad.
  destruct (heap w !! self) as [o|]; [| simpl; lia].
  destruct (waitpid_nohang_cases (pid o) w) as [[s ->]|(r & w1 & -> & Hn1)]; [simpl; lia |].
  case_bool_decide; [simpl; lia |].
  destruct (os_kill_cases (pid o) SIGTERM w1) as [[s ->]|(w2 & -> & Hn2)]; [simpl; lia |].
  unfold time_time. cbv zeta.
  pose proof (_kill_loop_clock 5 _CommandHandle.grace (pid o)
                (now w2 + _CommandHandle.grace)%nat w2
                ltac:(rewrite grace_eq; lia) ltac:(rewrite grace_eq; lia)) as [Hlo Hhi].
  destruct (_CommandHandle._kill_loop _ _ _ w2) as [[[sig|]| e |] w3]; simpl in *;
    rewrite grace_eq in Hhi.
  - lia.
  - destruct (os_kill_cases (pid o) SIGKILL w3) as [[s ->]|(w4 & -> & Hn4)]; simpl; lia.
  - destruct e; simpl; lia.
  - lia.
Qed.

Lemma close_clock self w :
  (now w ≤ now (_CommandHandle.close self w).2
   ∧ now (_CommandHandle.close self w).2 ≤ now w + 500)%nat.
Proof.
  destruct (heap w !! self) as [o|] eqn:Ho; [| rewrite close_unborn by done; simpl; lia].
  destruct (_closed o) eqn:Hc; [rewrite (close_closed self w o) by done; simpl; lia |].
  destruct (_done o) eqn:Hd.
  - destruct (close_open self w o Ho Hc) as (w' & -> & _ & _ & _ & _ & _ & _ & Hsame).
    destruct (Hsame Hd) as (_ & Hn & _). simpl. lia.
  - pose proof (_kill_clock self (set_active (list_remove_first self) w)) as Hclock.
    destruct (_kill_returns self (set_active (list_remove_first self) w) o Ho)
      as (k & w1 & Hk & _).
    destruct (close_running self w o k w1 Ho Hc Hd Hk) as (w' & -> & _ & Hn & _).
    rewrite Hk in Hclock. simpl in *. lia.
Qed.

Lemma for_each_close_clock l : ∀ w,
  (now w ≤ now (for_each l _CommandHandle.close w).2
   ∧ now (for_each l _CommandHandle.close w).2 ≤ now w + 500 * List.length l)%nat.
Proof.
  induction l as [|x l IH]; intros w; simpl; [lia |].
  unmonad. pose proof (close_clock x w) as Hx.
  destruct (_CommandHandle.close x w) as [[[]| |] w1]; simpl in *; try lia.
  specialize (IH w1). lia.
Qed.

(** X12. [close()] returns within half a second on every handle in
    every state, and the SIGTERM hook within half a second for each
    registered handle; the clock never goes back. *)
Theorem close_takes_at_most_half_a_second self signum w :
  (now w ≤ now (_CommandHandle.close self w).2
   ∧ now (_CommandHandle.close self w).2 ≤ now w + 500)%nat
  ∧ (now w ≤ now (_handle_sigterm signum w).2
     ∧ now (_handle_sigterm signum w).2 ≤ now w + 500 * List.length (_active w))%nat.
Proof.
  split; [apply close_clock |].
  unfold _handle_sigterm, _cleanup, signal_signal. unmonad.
  pose proof (for_each_close_clock (_active w) w) as Hc.
  destruct (for_each (_active w) _CommandHandle.close w) as [[[]| |] w1]; simpl in *;
    try lia.
  destruct (_PREV_SIGTERM w1); simpl; lia.
Qed.

(** ** Relations that hold step by step *)

Section stepwise.
Context (R : world → world → Prop).
Hypothesis R_refl : ∀ w, R w w.
Hypothesis R_trans : ∀ w1 w2 w3, R w1 w2 → R w2 w3 → R w1 w3.

Lemma steps_ret {A} (a : A) : steps R (mret a).
Proof. intros w. apply R_refl. Qed.
Lemma steps_raise {A} e : steps R (@raise A e).
Proof. intros w. apply R_refl. Qed.
Lemma steps_hang {A} : steps R (@hang A).
Proof. intros w. apply R_refl. Qed.
Lemma steps_get : steps R get.
Proof. intros w. apply R_refl. Qed.

Lemma steps_bind {A B} (m : M A) (k : A → M B) :
  steps R m → (∀ a, steps R (k a)) → steps R (m ≫= k).
Proof.
  intros Hm Hk w. unmonad. specialize (Hm w).
  destruct (m w) as [[a| |] w1]; simpl in *; [| done..].
  eapply R_trans; [exact Hm | apply Hk].
Qed.

Lemma steps_except {A} (m k : M A) :
  steps R m → steps R k → steps R (except_OSError m k).
Proof.
  intros Hm Hk w. unfold except_OSError. specialize (Hm w).
  destruct (m w) as [[a|[]|] w1]; simpl in *; try done.
  eapply R_trans; [exact Hm | apply Hk].
Qed.

Lemma steps_for_each {A} (l : list A) (body : A → M unit) :
  (∀ x, steps R (body x)) → steps R (for_each l body).
Proof.
  intros Hb. induction l as [|x l IH]; simpl; [apply steps_ret |].
  apply steps_bind; [apply Hb | by intros _].
Qed.

End stepwise.


Ltac steps_with Hrefl Htrans atom :=
  repeat lazymatch goal with
  | |- steps _ (_ ≫= _) => apply (steps_bind _ Htrans); [| intros ?]
  | |- steps _ (mret _) => apply (steps_ret _ Hrefl)
  | |- steps _ (ret _) => apply (steps_ret _ Hrefl)
  | |- steps _ (raise _) => apply (steps_raise _ Hrefl)
  | |- steps _ closed_file => apply (steps_raise _ Hrefl)
  | |- steps _ hang => apply (steps_hang _ Hrefl)
  | |- steps _ get => apply (steps_get _ Hrefl)
  | |- steps _ (except_OSError _ _) => apply (steps_except _ Htrans)
  | |- steps _ (match ?x with _ => _ end) => destruct x
  | |- steps _ _ => atom
  end.

(** *** The clock *)

Lemma clock_le_refl w : clock_le w w.
Proof. unfold clock_le. lia. Qed.
Lemma clock_le_trans w1 w2 w3 : clock_le w1 w2 → clock_le w2 w3 → clock_le w1 w3.
Proof. unfold clock_le. lia. Qed.

Ltac clock_modify :=
  idtac;
  lazymatch goal with
  | |- steps clock_le (modify _) => intros ?; unfold clock_le; simpl; lia
  end.
Ltac clock_tac := steps_with clock_le_refl clock_le_trans clock_modify.

Lemma clock_time_time : steps clock_le time_time.
Proof. intros w. apply clock_le_refl. Qed.
Lemma clock_time_sleep n : steps clock_le (time_sleep n).
Proof. unfold time_sleep. clock_tac. Qed.
Lemma clock_waitpid_nohang p : steps clock_le (waitpid_nohang p).
Proof. unfold waitpid_nohang. clock_tac. Qed.
Lemma clock_waitpid_block p : steps clock_le (waitpid_block p).
Proof. unfold waitpid_block. clock_tac. Qed.
Lemma clock_os_kill p sig : steps clock_le (os_kill p sig).
Proof. unfold os_kill. clock_tac. Qed.
Lemma clock_file_read f : steps clock_le (file_read f).
Proof. unfold file_read. clock_tac. Qed.
Lemma clock_file_readlines f : steps clock_le (file_readlines f).
Proof. unfold file_readlines. clock_tac. apply clock_file_read. Qed.
Lemma clock_file_fileno f : steps clock_le (file_fileno f).
Proof. unfold file_fileno. clock_tac. Qed.
Lemma clock_select_block f : steps clock_le (select_block f).
Proof. unfold select_block. clock_tac. Qed.
Lemma clock_select_now f : steps clock_le (select_now f).
Proof. unfold select_now. clock_tac. Qed.
Lemma clock_getself self : steps clock_le (getself self).
Proof. unfold getself. clock_tac. Qed.
Lemma clock_raise_with {A} etype value : steps clock_le (@raise_with A etype value).
Proof. unfold raise_with. clock_tac. Qed.

Lemma clock__kill_loop fuel p e : steps clock_le (_CommandHandle._kill_loop fuel p e).
Proof.
  induction fuel as [|fuel IH]; rewrite _kill_loop_unfold.
  - steps_with clock_le_refl clock_le_trans ltac:(apply clock_time_time).
  - steps_with clock_le_refl clock_le_trans
      ltac:(first [apply clock_time_time | apply clock_waitpid_nohang
                  | apply clock_time_sleep | apply IH]).
Qed.

Lemma clock__kill self : steps clock_le (_CommandHandle._kill self).
Proof.
  unfold _CommandHandle._kill. cbv zeta.
  steps_with clock_le_refl clock_le_trans
    ltac:(first [apply clock_time_time | apply clock_waitpid_nohang | apply clock_getself
                | apply clock_os_kill | apply clock__kill_loop]).
Qed.

Ltac clock_atom :=
  idtac;
  lazymatch goal with
  | |- steps clock_le time_time => apply clock_time_time
  | |- steps clock_le (time_sleep _) => apply clock_time_sleep
  | |- steps clock_le (waitpid_nohang _) => apply clock_waitpid_nohang
  | |- steps clock_le (waitpid_block _) => apply clock_waitpid_block
  | |- steps clock_le (os_kill _ _) => apply clock_os_kill
  | |- steps clock_le (file_read _) => apply clock_file_read
  | |- steps clock_le (file_readlines _) => apply clock_file_readlines
  | |- steps clock_le (file_fileno _) => apply clock_file_fileno
  | |- steps clock_le (select_block _) => apply clock_select_block
  | |- steps clock_le (select_now _) => apply clock_select_now
  | |- steps clock_le (getself _) => apply clock_getself
  | |- steps clock_le (raise_with _ _) => apply clock_raise_with
  | |- steps clock_le (_CommandHandle._kill _) => apply clock__kill
  | |- steps clock_le (modify _) => clock_modify
  end.

(** *** The other handles *)

Lemma frame_refl self w : frame self w w.
Proof. unfold frame. repeat split; first [done | lia]. Qed.

Lemma frame_trans self w1 w2 w3 : frame self w1 w2 → frame self w2 w3 → frame self w1 w3.
Proof.
  intros (Hn1 & Ht1 & Hh1) (Hn2 & Ht2 & Hh2).
  split; [congruence |]. split; [lia |].
  intros h Hne. by rewrite Hh2, Hh1.
Qed.

Lemma frame_os {A} self (m : M A) : os_call m → steps clock_le m → steps (frame self) m.
Proof.
  intros Hos Hclock w. destruct (Hos w) as (Hh & _ & Hn & _).
  split; [done |]. split; [apply Hclock | by rewrite Hh].
Qed.

Lemma frame_setattr self f : steps (frame self) (setattr self f).
Proof.
  intros w. split; [done |]. split; [simpl; lia |].
  intros h Hne. simpl. by rewrite lookup_alter_ne.
Qed.

Lemma frame_unregister self h : steps (frame self) (unregister h).
Proof. intros w. rewrite unregister_spec. repeat split; simpl; first [done | lia]. Qed.

Ltac frame_atom :=
  idtac;
  lazymatch goal with
  | |- steps (frame _) (setattr _ _) => apply frame_setattr
  | |- steps (frame _) (unregister _) => apply frame_unregister
  | |- steps (frame _) _ => apply frame_os; [os_atom | clock_atom]
  end.
Ltac frame_tac self := steps_with (frame_refl self) (frame_trans self) frame_atom.

Lemma frame__cleanup_child `{Codec} self :
  steps (frame self) (_CommandHandle._cleanup_child self).
Proof. unfold _CommandHandle._cleanup_child. frame_tac self. Qed.

Lemma frame_wait `{Codec} self : steps (frame self) (_CommandHandle.wait self).
Proof.
  unfold _CommandHandle.wait, _CommandHandle.fileno.
  steps_with (frame_refl self) (frame_trans self)
    ltac:(first [apply frame__cleanup_child | frame_atom]).
Qed.

Lemma frame_poll `{Codec} self : steps (frame self) (_CommandHandle.poll self).
Proof.
  unfold _CommandHandle.poll, _CommandHandle.fileno.
  steps_with (frame_refl self) (frame_trans self)
    ltac:(first [apply frame__cleanup_child | frame_atom]).
Qed.

Lemma frame_read `{Codec} self : steps (frame self) (_CommandHandle.read self).
Proof.
  unfold _CommandHandle.read.
  steps_with (frame_refl self) (frame_trans self) ltac:(first [apply frame_wait | frame_atom]).
Qed.

Lemma frame_readline `{Codec} self : steps (frame self) (_CommandHandle.readline self).
Proof.
  unfold _CommandHandle.readline.
  steps_with (frame_refl self) (frame_trans self) ltac:(first [apply frame_wait | frame_atom]).
Qed.

Lemma frame_readlines `{Codec} self : steps (frame self) (_CommandHandle.readlines self).
Proof.
  unfold _CommandHandle.readlines.
  steps_with (frame_refl self) (frame_trans self) ltac:(first [apply frame_wait | frame_atom]).
Qed.

Lemma frame_pickle_read `{Codec} ph :
  steps (frame (_cmd_handle ph)) (_PickleHandle.read ph).
Proof.
  unfold _PickleHandle.read.
  steps_with (frame_refl (_cmd_handle ph)) (frame_trans (_cmd_handle ph))
    ltac:(first [apply frame_read | frame_atom]).
Qed.

Lemma frame_elapsed self : steps (frame self) (_CommandHandle.elapsed self).
Proof. unfold _CommandHandle.elapsed. frame_tac self. Qed.

Lemma frame_fileno self : steps (frame self) (_CommandHandle.fileno self).
Proof. unfold _CommandHandle.fileno. frame_tac self. Qed.

Lemma frame_close self : steps (frame self) (_CommandHandle.close self).
Proof. unfold _CommandHandle.close. frame_tac self. Qed.

(** *** The handle itself *)

Lemma ages_refl t o : ages t o o.
Proof. unfold ages. repeat split; try done. congruence. Qed.

Lemma self_step_same self w w' :
  heap w' = heap w → _active w' = _active w → self_step self w w'.
Proof.
  intros Hh Ha. unfold self_step. rewrite Hh, Ha.
  destruct (heap w !! self) as [o|]; [| done].
  exists o. split; [done |]. split; [apply ages_refl | by left].
Qed.

Lemma self_step_alter self w w' o F :
  heap w !! self = Some o → heap w' = alter F self (heap w) →
  ages (now w') o (F o) →
  (_done (F o) = _done o ∧ _closed (F o) = _closed o ∧ _active w' = _active w)
  ∨ _active w' = list_remove_first self (_active w) →
  self_step self w w'.
Proof.
  intros Ho Hh Hages Hact. unfold self_step. rewrite Ho, Hh, lookup_alter_eq, Ho.
  by exists (F o).
Qed.

Ltac ages_tac :=
  unfold ages; simpl; repeat split; first [done | congruence].

(** Close a branch of [_cleanup_child self]: the heap is the initial one
    with [self] altered. *)
Ltac branch_done Ho Hh1 Ha1 :=
  eapply (self_step_alter _ _ _ _ _ Ho);
  [ simpl; rewrite ?Hh1; rewrite ?alter_alter_eq; reflexivity
  | ages_tac
  | simpl; rewrite ?Ha1; first [by left | by right] ].

Ltac run_suffix Ho Hh1 Ha1 :=
  rewrite unregister_spec;
  lazymatch goal with
  | |- context [waitpid_block ?p ?W] =>
      let Hs := fresh "Hs" in
      let Hhw := fresh "Hhw" in
      let Haw := fresh "Haw" in
      pose proof (os_call_waitpid_block p W) as Hs;
      destruct (waitpid_block p W) as [[? | ? |] ?];
      destruct Hs as (Hhw & Haw & _); simpl in Hhw, Haw;
      rewrite ?Hh1 in Hhw; rewrite ?Ha1 in Haw;
      unfold time_time;
      branch_done Ho Hhw Haw
  end.

Lemma _cleanup_child_self `{Codec} self w :
  self_step self w (_CommandHandle._cleanup_child self w).2.
Proof.
  unfold _CommandHandle._cleanup_child, getself. unmonad.
  destruct (heap w !! self) as [o|] eqn:Ho; [| by apply self_step_same].
  destruct (_done o) eqn:Hd; [by apply self_step_same |].
  pose proof (os_call_file_readlines (_cread o) w) as Hs1.
  destruct (file_readlines (_cread o) w) as [[lines|e|] w1];
    destruct Hs1 as (Hh1 & Ha1 & _); simpl in Hh1, Ha1; [| by apply self_step_same..].
  unfold setattr. unmonad.
  destruct (_errread o) as [f|] eqn:He.
  - lazymatch goal with
    | |- context [file_read f ?W] =>
        pose proof (os_call_file_read f W) as Hs3;
        destruct (file_read f W) as [[error|e|] w3];
        destruct Hs3 as (Hh3 & Ha3 & _); simpl in Hh3, Ha3;
        rewrite Hh1 in Hh3; rewrite Ha1 in Ha3
    end.
    + case_bool_decide.
      * destruct (loads error) as [e|v]; [branch_done Ho Hh3 Ha3 |].
        destruct (unpack3 v) as [e|[[etype value] tb]]; [branch_done Ho Hh3 Ha3 |].
        unfold raise_with. destruct etype; unmonad; branch_done Ho Hh3 Ha3.
      * run_suffix Ho Hh3 Ha3.
    + branch_done Ho Hh3 Ha3.
    + branch_done Ho Hh3 Ha3.
  - run_suffix Ho Hh1 Ha1.
Qed.

Lemma self_step_os {A} self (m : M A) : os_call m → steps (self_step self) m.
Proof. intros Hos w. destruct (Hos w) as (Hh & Ha & _). by apply self_step_same. Qed.

(** System calls first, then a step of [self]. *)
Lemma self_step_os_bind {A B} self (m : M A) (k : A → M B) :
  os_call m → (∀ a, steps (self_step self) (k a)) → steps (self_step self) (m ≫= k).
Proof.
  intros Hos Hk w. unmonad. destruct (Hos w) as (Hh & Ha & _).
  destruct (m w) as [[a| |] w1]; simpl in *; [| by apply self_step_same..].
  specialize (Hk a w1). unfold self_step in *. by rewrite Hh, Ha in Hk.
Qed.

Lemma self_step_output self w w1 l :
  self_step self w w1 → self_step self w (set_heap (alter (with_output l) self) w1).
Proof.
  unfold self_step. simpl. rewrite lookup_alter_eq.
  destruct (heap w !! self) as [o|].
  - intros (o' & -> & Hages & Hact). exists (with_output l o'). by split.
  - by intros [-> ?].
Qed.

(** A step of [self], then at most an assignment to its buffer. *)
Lemma self_step_bind_output {A B} self (m : M A) (k : A → M B) :
  steps (self_step self) m →
  (∀ a w, (k a w).2 = w ∨ ∃ l, (k a w).2 = set_heap (alter (with_output l) self) w) →
  steps (self_step self) (m ≫= k).
Proof.
  intros Hm Hk w. unmonad. specialize (Hm w).
  destruct (m w) as [[a| |] w1]; simpl in *; [| done..].
  destruct (Hk a w1) as [->|[l ->]]; [done | by apply self_step_output].
Qed.

Lemma self_wait `{Codec} self : steps (self_step self) (_CommandHandle.wait self).
Proof.
  unfold _CommandHandle.wait, _CommandHandle.fileno.
  apply self_step_os_bind; [os_atom |]. intros o.
  destruct (_done o); [apply self_step_os; os_atom |].
  apply self_step_os_bind; [apply os_call_bind; [os_atom | intros ?; os_atom] |]. intros _.
  apply self_step_os_bind; [os_atom |]. intros _.
  intros w. apply _cleanup_child_self.
Qed.

Lemma self_poll `{Codec} self : steps (self_step self) (_CommandHandle.poll self).
Proof.
  unfold _CommandHandle.poll, _CommandHandle.fileno.
  apply self_step_os_bind; [os_atom |]. intros o.
  destruct (_done o); [apply self_step_os; os_atom |].
  apply self_step_os_bind; [apply os_call_bind; [os_atom | intros ?; os_atom] |]. intros _.
  apply self_step_os_bind; [os_atom |]. intros r.
  apply self_step_bind_output.
  - destruct r; [intros w; apply _cleanup_child_self | apply self_step_os; os_atom].
  - intros _ w. left. unfold getself. unmonad. by destruct (heap w !! self).
Qed.

Lemma self_read `{Codec} self : steps (self_step self) (_CommandHandle.read self).
Proof.
  unfold _CommandHandle.read. apply self_step_bind_output; [apply self_wait |].
  intros _ w. unfold getself, setattr. unmonad.
  destruct (heap w !! self); [right; by eexists | by left].
Qed.

Lemma self_readlines `{Codec} self : steps (self_step self) (_CommandHandle.readlines self).
Proof.
  unfold _CommandHandle.readlines. apply self_step_bind_output; [apply self_wait |].
  intros _ w. unfold getself, setattr. unmonad.
  destruct (heap w !! self); [right; by eexists | by left].
Qed.

Lemma self_readline `{Codec} self : steps (self_step self) (_CommandHandle.readline self).
Proof.
  unfold _CommandHandle.readline. apply self_step_bind_output; [apply self_wait |].
  intros _ w. unfold getself, setattr. unmonad.
  destruct (heap w !! self) as [o|]; [| by left].
  destruct (_output o); [by left | right; by eexists].
Qed.

Lemma self_pickle_read `{Codec} ph :
  steps (self_step (_cmd_handle ph)) (_PickleHandle.read ph).
Proof.
  unfold _PickleHandle.read. apply self_step_bind_output; [apply self_read |].
  intros r w. left. case_bool_decide; [done |]. by destruct (loads r).
Qed.

Lemma self_elapsed self : steps (self_step self) (_CommandHandle.elapsed self).
Proof.
  unfold _CommandHandle.elapsed. apply self_step_os.
  repeat first [os_atom | apply os_call_bind; [| intros ?]
               | lazymatch goal with
                 | |- os_call (match ?x with _ => _ end) => destruct x
                 end].
Qed.

Lemma self_fileno self : steps (self_step self) (_CommandHandle.fileno self).
Proof.
  unfold _CommandHandle.fileno. apply self_step_os.
  apply os_call_bind; [os_atom | intros ?; os_atom].
Qed.

Lemma self_close self : steps (self_step self) (_CommandHandle.close self).
Proof.
  intros w. unfold self_step.
  destruct (heap w !! self) as [o|] eqn:Ho; [| by rewrite close_unborn].
  destruct (_closed o) eqn:Hc.
  { rewrite (close_closed self w o) by done. simpl. rewrite Ho.
    exists o. split; [done |]. split; [apply ages_refl | by left]. }
  destruct (close_open self w o Ho Hc) as (w' & -> & Hh & Ha & _). simpl.
  rewrite Hh, lookup_insert_eq. eexists. split; [done |]. split; [| by right].
  unfold closed_handle. destruct (_done o) eqn:Hd; ages_tac.
Qed.

(** ** The life cycle, call by call *)

Lemma older_refl o : older o o.
Proof. by repeat split. Qed.

Lemma older_trans o1 o2 o3 : older o1 o2 → older o2 o3 → older o1 o3.
Proof.
  intros (Hp1 & Hs1 & Hc1 & Hd1) (Hp2 & Hs2 & Hc2 & Hd2).
  split; [congruence |]. split; [congruence |]. split; [by auto |].
  intros Hd. destruct (Hd1 Hd) as (Hd' & ? & ? & ?). destruct (Hd2 Hd') as (? & ? & ? & ?).
  repeat split; congruence.
Qed.

Lemma ages_older t o o' : ages t o o' → older o o'.
Proof. intros (? & ? & ? & ? & _). unfold older. auto. Qed.

Lemma grows_refl w : grows w w.
Proof. split; [lia |]. intros h o Ho. exists o. split; [done | apply older_refl]. Qed.

Lemma grows_trans w1 w2 w3 : grows w1 w2 → grows w2 w3 → grows w1 w3.
Proof.
  intros [Hn1 Hh1] [Hn2 Hh2]. split; [lia |]. intros h o Ho.
  destruct (Hh1 h o Ho) as (o2 & Ho2 & Hold2). destruct (Hh2 h o2 Ho2) as (o3 & Ho3 & Hold3).
  exists o3. split; [done | by eapply older_trans].
Qed.

(** A method of [self] keeps the invariant and makes the world grow. *)
Lemma method_grows self w w' : frame self w w' → self_step self w w' → grows w w'.
Proof.
  intros (Hn & Ht & Hfr) Hself. split; [done |]. intros h o Ho.
  destruct (decide (h = self)) as [->|Hne].
  - unfold self_step in Hself. rewrite Ho in Hself.
    destruct Hself as (o' & Ho' & Hages & _). exists o'. split; [done |].
    by eapply ages_older.
  - exists o. rewrite Hfr by done. split; [done | apply older_refl].
Qed.

Lemma method_inv self w w' :
  frame self w w' → self_step self w w' → lifecycle_inv w → lifecycle_inv w'.
Proof.
  intros (Hn & Ht & Hfr) Hself (Hnd & Hreg & Hheap). unfold self_step in Hself.
  assert (_active w' = _active w ∨ _active w' = list_remove_first self (_active w)) as Hact.
  { destruct (heap w !! self) as [o|]; [| by left; apply Hself].
    destruct Hself as (o' & _ & _ & [(_ & _ & ?)|?]); [by left | by right]. }
  assert (NoDup (_active w')) as Hnd'.
  { destruct Hact as [->| ->]; [done | by apply list_remove_first_NoDup]. }
  assert (∀ h, h ∈ _active w' → h ∈ _active w) as Hsub.
  { intros h. destruct Hact as [->| ->]; [done | apply list_remove_first_subseteq]. }
  split; [done |]. split.
  - intros h Hin. destruct (Hreg h (Hsub h Hin)) as (o & Ho & Hd).
    destruct (decide (h = self)) as [->|Hne]; [| exists o; by rewrite Hfr].
    rewrite Ho in Hself. destruct Hself as (o' & Ho' & Hages & [(Hd' & _ & _)|Hrm]).
    + exists o'. split; [done | congruence].
    + rewrite Hrm in Hin. by apply list_remove_first_gone in Hin.
  - intros h o' Ho'. rewrite Hn.
    destruct (decide (h = self)) as [->|Hne].
    + destruct (heap w !! self) as [o|] eqn:Ho; [| destruct Hself; congruence].
      destruct Hself as (o'' & Ho'' & Hages & _).
      assert (o'' = o') as -> by congruence.
      destruct (Hheap self o Ho) as (Hlt & Hcd & Hst & Hend & Hfl).
      destruct Hages as (Hp & Hs & Hc & Hdone & Hrun & Hnew).
      split; [done |].
      destruct (_done o) eqn:Hd.
      * destruct (Hdone eq_refl) as (Hd' & Hst' & Hk' & He'). rewrite Hd', He', Hs.
        repeat split; try done; try lia.
        all: match goal with Heq : _end _ = Some _ |- _ => specialize (Hend _ Heq); lia end.
      * destruct (_done o') eqn:Hd'.
        -- rewrite (Hnew eq_refl eq_refl), Hs.
           repeat split; try done; try lia.
           all: match goal with Heq : Some _ = Some _ |- _ => injection Heq as <-; lia end.
        -- destruct (Hrun eq_refl) as (Hc' & Hst' & Hk' & He').
           destruct Hfl as (? & ? & Hnone). rewrite Hc', Hst', Hk', He', Hs, Hnone.
           repeat split; try done; try lia.
    + rewrite Hfr in Ho' by done.
      destruct (Hheap h o' Ho') as (Hlt & Hcd & Hst & Hend & Hfl).
      repeat split; try done; try lia.
      all: match goal with Heq : _end _ = Some _ |- _ => specialize (Hend _ Heq); lia end.
Qed.

(** Worlds that differ only on the operating-system side, and later. *)
Lemma lifecycle_inv_ext w w' :
  heap w' = heap w → _active w' = _active w → next_id w' = next_id w →
  (now w ≤ now w')%nat → lifecycle_inv w → lifecycle_inv w'.
Proof.
  intros Hh Ha Hn Ht (Hnd & Hreg & Hheap). unfold lifecycle_inv. rewrite Hh, Ha, Hn.
  split; [done |]. split; [done |]. intros h o Ho.
  destruct (Hheap h o Ho) as (Hlt & Hcd & Hst & Hend & Hfl).
  repeat split; try done; try lia.
  all: match goal with Heq : _end _ = Some _ |- _ => specialize (Hend _ Heq); lia end.
Qed.

Lemma grows_ext w w' : heap w' = heap w → (now w ≤ now w')%nat → grows w w'.
Proof.
  intros Hh Ht. split; [done |]. intros h o Ho. exists o. rewrite Hh.
  split; [done | apply older_refl].
Qed.

(** Spawning: one new handle, registered, with the next identity. *)
Lemma spawn_effect (p : nat) cread errread w :
  let w' := (_CommandHandle.__init__ p cread errread w).2 in
  heap w' = <[next_id w := Handle p None None (now w) None cread errread [] false false]>
              (heap w)
  ∧ _active w' = (_active w ++ [next_id w])%list
  ∧ next_id w' = S (next_id w) ∧ now w' = now w.
Proof. by unfold _CommandHandle.__init__, time_time. Qed.

Lemma init_inv p cread errread w :
  lifecycle_inv w → lifecycle_inv (_CommandHandle.__init__ p cread errread w).2.
Proof.
  intros (Hnd & Hreg & Hheap).
  destruct (spawn_effect p cread errread w) as (Hh & Ha & Hn & Ht).
  assert (heap w !! next_id w = None) as Hfresh.
  { destruct (heap w !! next_id w) as [o|] eqn:Ho; [| done].
    destruct (Hheap _ o Ho) as [Hlt _]. lia. }
  unfold lifecycle_inv. rewrite Hh, Ha, Hn, Ht. split; [| split].
  - apply NoDup_app. repeat split; [done | | apply NoDup_singleton].
    intros h Hin ->%list_elem_of_singleton.
    destruct (Hreg _ Hin) as (o & Ho & _). congruence.
  - intros h [Hin| ->%list_elem_of_singleton]%elem_of_app.
    + destruct (Hreg _ Hin) as (o & Ho & Hd). exists o. split; [| done].
      rewrite lookup_insert_ne; [done |]. intros <-. congruence.
    + eexists. by rewrite lookup_insert_eq.
  - intros h o. destruct (decide (next_id w = h)) as [<-|Hne].
    + rewrite lookup_insert_eq. intros [= <-]. simpl.
      repeat split; try done; lia.
    + rewrite lookup_insert_ne by done. intros Ho.
      destruct (Hheap h o Ho) as (Hlt & Hrest). split; [lia | done].
Qed.

Lemma init_grows p cread errread w :
  lifecycle_inv w → grows w (_CommandHandle.__init__ p cread errread w).2.
Proof.
  intros (_ & _ & Hheap).
  destruct (spawn_effect p cread errread w) as (Hh & _ & _ & Ht).
  split; [lia |]. intros h o Ho. exists o. split; [| apply older_refl].
  rewrite Hh, lookup_insert_ne; [done |]. intros <-.
  destruct (Hheap _ o Ho) as [Hlt _]. lia.
Qed.

Lemma copen_sys_inv image syscmd args w :
  lifecycle_inv w →
  lifecycle_inv (copen_sys image syscmd args w).2 ∧ grows w (copen_sys image syscmd args w).2.
Proof.
  intros Hinv. unfold copen_sys, os_pipe, os_fork. cbv zeta. unmonad.
  set (w3 := set_procs _ _).
  assert (lifecycle_inv w3) as Hinv3.
  { destruct Hinv as (Hnd & Hreg & Hheap). split; [done |]. split; [done |].
    intros h o Ho. destruct (Hheap h o Ho) as (Hlt & Hrest). split; [simpl; lia | done]. }
  assert (grows w w3) as Hg by (by apply grows_ext).
  split; [by apply init_inv | eapply grows_trans; [exact Hg | by apply init_grows]].
Qed.

Lemma copen_fn_inv `{Codec} func w :
  lifecycle_inv w →
  lifecycle_inv (copen_fn func w).2 ∧ grows w (copen_fn func w).2.
Proof.
  intros Hinv. unfold copen_fn, _PickleHandle.__init__, os_pipe, os_fork. cbv zeta. unmonad.
  set (w3 := set_procs _ _).
  assert (lifecycle_inv w3) as Hinv3.
  { destruct Hinv as (Hnd & Hreg & Hheap). split; [done |]. split; [done |].
    intros h o Ho. destruct (Hheap h o Ho) as (Hlt & Hrest). split; [simpl; lia | done]. }
  assert (grows w w3) as Hg by (by apply grows_ext).
  split; [by apply init_inv | eapply grows_trans; [exact Hg | by apply init_grows]].
Qed.

Lemma close_inv self w :
  lifecycle_inv w →
  lifecycle_inv (_CommandHandle.close self w).2 ∧ grows w (_CommandHandle.close self w).2.
Proof.
  intros Hinv. pose proof (frame_close self w) as Hfr. pose proof (self_close self w) as Hs.
  split; [by eapply method_inv | by eapply method_grows].
Qed.

Lemma for_each_close_inv l : ∀ w,
  lifecycle_inv w →
  lifecycle_inv (for_each l _CommandHandle.close w).2
  ∧ grows w (for_each l _CommandHandle.close w).2.
Proof.
  induction l as [|x l IH]; intros w Hinv; simpl.
  - split; [done | apply grows_refl].
  - destruct (close_inv x w Hinv) as [Hi Hg]. unmonad.
    destruct (_CommandHandle.close x w) as [[[]| |] w1]; simpl in *; [| done..].
    destruct (IH w1 Hi) as [Hi' Hg']. split; [done | by eapply grows_trans].
Qed.

Lemma receive_SIGTERM_inv w :
  lifecycle_inv w →
  lifecycle_inv (receive_SIGTERM w).2 ∧ grows w (receive_SIGTERM w).2.
Proof.
  intros Hinv.
  assert (∀ e, lifecycle_inv (log e w) ∧ grows w (log e w)) as Hlog.
  { intros e. split; [by apply (lifecycle_inv_ext w) | by apply grows_ext]. }
  unfold receive_SIGTERM, run_handler. unmonad.
  destruct (sigterm_disp w) as [[| | |]|]; simpl; try apply Hlog.
  unfold _handle_sigterm, _cleanup, signal_signal. unmonad.
  destruct (Hlog (EvCall Handle_sigterm SIGTERM)) as [Hi0 Hg0].
  destruct (for_each_close_inv (_active (log (EvCall Handle_sigterm SIGTERM) w)) _ Hi0)
    as [Hi Hg].
  destruct (for_each _ _ _) as [[[]| |] w1]; simpl in *.
  all: assert (grows w w1) as Hg1 by (eapply grows_trans; [exact Hg0 | exact Hg]).
  all: try done.
  destruct (_PREV_SIGTERM w1); simpl; [| done].
  split; [by apply (lifecycle_inv_ext w1) |].
  eapply grows_trans; [exact Hg1 |]. by apply grows_ext.
Qed.

Lemma run_op_inv `{Codec} o w :
  lifecycle_inv w → lifecycle_inv (run_op o w) ∧ grows w (run_op o w).
Proof.
  intros Hinv.
  assert (∀ self w', frame self w w' → self_step self w w' →
                     lifecycle_inv w' ∧ grows w w') as Hm.
  { intros self w' Hfr Hs. split; [by eapply method_inv | by eapply method_grows]. }
  destruct o; simpl.
  - unfold import_copen, signal_getsignal, signal_signal. unmonad. simpl.
    split; [by apply (lifecycle_inv_ext w) | by apply grows_ext].
  - by apply copen_sys_inv.
  - by apply copen_fn_inv.
  - by apply close_inv.
  - apply (Hm h); [apply frame_wait | apply self_wait].
  - apply (Hm h); [apply frame_poll | apply self_poll].
  - apply (Hm h); [apply frame_read | apply self_read].
  - apply (Hm h); [apply frame_readline | apply self_readline].
  - apply (Hm h); [apply frame_readlines | apply self_readlines].
  - apply (Hm h); [apply frame_elapsed | apply self_elapsed].
  - apply (Hm h); [apply frame_fileno | apply self_fileno].
  - apply (Hm h); [apply (frame_pickle_read (PickleHandleObj h))
                  | apply (self_pickle_read (PickleHandleObj h))].
  - by apply receive_SIGTERM_inv.
  - split; [apply (lifecycle_inv_ext w); simpl; first [done | lia]
           | apply grows_ext; simpl; first [done | lia]].
Qed.

Lemma run_inv `{Codec} ops : ∀ w,
  lifecycle_inv w → lifecycle_inv (run ops w) ∧ grows w (run ops w).
Proof.
  unfold run. induction ops as [|o ops IH]; intros w Hinv; simpl.
  - split; [done | apply grows_refl].
  - destruct (run_op_inv o w Hinv) as [Hi Hg]. destruct (IH _ Hi) as [Hi' Hg'].
    split; [done | by eapply grows_trans].
Qed.

Lemma lifecycle_inv_boot h0 : lifecycle_inv (boot h0).
Proof.
  split; [apply NoDup_nil_2 |]. split; [by intros h ?%elem_of_nil |].
  intros h o Ho. simpl in Ho. by rewrite lookup_empty in Ho.
Qed.

Lemma lifecycle_inv_reachable `{Codec} w : reachable w → lifecycle_inv w.
Proof. intros (h0 & ops & ->). apply run_inv, lifecycle_inv_boot. Qed.

(** ** What holds in every world the program can reach *)

(** X13. In every world the program can reach, no handle is registered
    twice, and every registered handle is an existing handle that is
    neither Done nor Closed and has no status, signal or end time yet. *)
Theorem registered_handles_are_running `{Codec} w :
  reachable w →
  NoDup (_active w)
  ∧ ∀ h, h ∈ _active w →
         ∃ o, heap w !! h = Some o ∧ _done o = false ∧ _closed o = false
              ∧ status o = None ∧ killsig o = None ∧ _end o = None.
Proof.
  intros (Hnd & Hreg & Hheap)%lifecycle_inv_reachable. split; [done |].
  intros h Hin. destruct (Hreg h Hin) as (o & Ho & Hd). exists o.
  destruct (Hheap h o Ho) as (_ & Hcd & _ & _ & Hfl). rewrite Hd in Hfl.
  destruct Hfl as (? & ? & ?). repeat split; try done.
  destruct (_closed o); [| done]. by rewrite Hcd in Hd.
Qed.

Lemma registered_handles_are_running_witness :
  let w := run (H := RefCodec.codec)
               [Import; Copen_sys (image_of echo) "echo" ["abc"];
                Copen_sys (image_of stubborn) "sleep" ["1000"]; Tick 30; Wait 6]
               (boot (Some app_handler)) in
  _active w = [12%nat]
  ∧ ∃ o, heap w !! 12%nat = Some o ∧ _done o = false ∧ _closed o = false
         ∧ status o = None ∧ killsig o = None ∧ _end o = None.
Proof.
  intros w.
  assert (reachable (H := RefCodec.codec) w) as Hw by (by eexists _, _).
  assert (_active w = [12%nat]) as Ha by (by vm_compute).
  split; [done |].
  apply (proj2 (registered_handles_are_running w Hw)). rewrite Ha. by left.
Defined.

(** X14. From a world the program can reach, whatever it does next: the
    clock does not go back, no handle disappears, a handle keeps its
    child and its start time, Closed stays Closed, and a handle that is
    Done stays Done with the same status, signal and end time. *)
Theorem completion_is_final `{Codec} w ops :
  reachable w →
  (now w ≤ now (run ops w))%nat
  ∧ ∀ h o, heap w !! h = Some o →
      ∃ o', heap (run ops w) !! h = Some o'
            ∧ pid o' = pid o ∧ _start o' = _start o
            ∧ (_closed o = true → _closed o' = true)
            ∧ (_done o = true →
               _done o' = true ∧ status o' = status o ∧ killsig o' = killsig o
               ∧ _end o' = _end o).
Proof.
  intros Hinv%lifecycle_inv_reachable. destruct (run_inv ops w Hinv) as [_ Hg]. exact Hg.
Qed.

Lemma completion_is_final_witness :
  let w := run (H := RefCodec.codec)
               [Import; Copen_sys (image_of echo) "echo" ["abc"]; Wait 6]
               (boot (Some app_handler)) in
  let w' := run (H := RefCodec.codec) [Tick 100; Read 6; Close 6; Sigterm] w in
  ∃ o', heap w' !! 6%nat = Some o'
        ∧ _done o' = true ∧ status o' = Some 0 ∧ killsig o' = Some 0
        ∧ _end o' = Some 20%nat.
Proof.
  intros w w'.
  assert (reachable (H := RefCodec.codec) w) as Hw by (by eexists _, _).
  destruct (proj2 (completion_is_final (H := RefCodec.codec) w
                     [Tick 100; Read 6; Close 6; Sigterm] Hw) 6%nat
              (Handle 5 (Some 0) (Some 0) 0 (Some 20%nat) (File 1 5 Stdout true)
                      (Some (File 3 5 Stderr true))
                      ["abc" ++ String newline ""; "de"] true false))
    as (o' & Ho' & _ & _ & _ & Hd); [by vm_compute |].
  destruct (Hd eq_refl) as (? & ? & ? & ?). by exists o'.
Defined.

(** X15. In every world the program can reach, [elapsed()] of an
    existing handle changes nothing and returns the time from the start to
    now while no end is recorded, and the difference of the two recorded
    times once there is one.  On a clock that is never set back, which is
    the clock of this development ([time.time()] only moves forward, by
    sleeping, blocking and passing time), that time is not negative.  Once
    the handle is Done, at a time other than zero, [elapsed()] returns the
    same value whatever the program does next. *)
Theorem elapsed_is_not_negative_and_settles `{Codec} w h o :
  reachable w → heap w !! h = Some o →
  ∃ t, _CommandHandle.elapsed h w = (Ret t, w)
       ∧ (_end o = None → t = Z.of_nat (now w) - Z.of_nat (_start o))
       ∧ (∀ e, _end o = Some e → e ≠ 0%nat → t = Z.of_nat e - Z.of_nat (_start o))
       ∧ (0 ≤ t)%Z
       ∧ (_done o = true → _end o ≠ Some 0%nat →
          ∀ ops, _CommandHandle.elapsed h (run ops w) = (Ret t, run ops w)).
Proof.
  intros Hinv%lifecycle_inv_reachable Ho.
  pose proof Hinv as (_ & _ & Hheap).
  destruct (Hheap h o Ho) as (_ & _ & Hst & Hend & Hfl).
  assert (∀ w1 o1, heap w1 !! h = Some o1 →
            _CommandHandle.elapsed h w1
            = (Ret (match _end o1 with
                    | Some e => if bool_decide (e ≠ 0%nat)
                                then Z.of_nat e - Z.of_nat (_start o1)
                                else Z.of_nat (now w1) - Z.of_nat (_start o1)
                    | None => Z.of_nat (now w1) - Z.of_nat (_start o1)
                    end), w1)) as Helapsed.
  { intros w1 o1 Ho1. unfold _CommandHandle.elapsed, getself, time_time. unmonad.
    rewrite Ho1. destruct (_end o1) as [e|]; [| done]. by case_bool_decide. }
  eexists. split; [by apply Helapsed |].
  split; [by intros -> |].
  split; [intros e -> Hne; by rewrite bool_decide_true |]. split.
  - destruct (_end o) as [e|]; [| lia].
    specialize (Hend e eq_refl). case_bool_decide; lia.
  - intros Hd Hnz ops. destruct (run_inv ops w Hinv) as [_ [_ Hg]].
    destruct (Hg h o Ho) as (o' & Ho' & _ & Hs' & _ & Hdone).
    destruct (Hdone Hd) as (_ & _ & _ & He').
    rewrite (Helapsed _ o' Ho'), He', Hs'. rewrite Hd in Hfl.
    destruct Hfl as [e He]. rewrite He in *.
    rewrite bool_decide_true; [done |]. intros ->. by apply Hnz.
Qed.

Lemma elapsed_is_not_negative_and_settles_witness :
  let w := run (H := RefCodec.codec)
               [Import; Copen_sys (image_of echo) "echo" ["abc"]; Wait 6]
               (boot (Some app_handler)) in
  _CommandHandle.elapsed 6 w = (Ret 20, w)
  ∧ _CommandHandle.elapsed 6 (run (H := RefCodec.codec) [Tick 100; Close 6] w)
    = (Ret 20, run (H := RefCodec.codec) [Tick 100; Close 6] w).
Proof.
  intros w.
  assert (reachable (H := RefCodec.codec) w) as Hw by (by eexists _, _).
  destruct (elapsed_is_not_negative_and_settles (H := RefCodec.codec) w 6
              (Handle 5 (Some 0) (Some 0) 0 (Some 20%nat) (File 1 5 Stdout true)
                      (Some (File 3 5 Stderr true))
                      ["abc" ++ String newline ""; "de"] true false) Hw)
    as (t & Ht & _ & _ & _ & Hsettles); [by vm_compute |].
  assert (t = 20) as ->.
  { assert (_CommandHandle.elapsed 6 w = (Ret 20, w)) as Hc by (by vm_compute).
    rewrite Hc in Ht. by injection Ht as <-. }
  split; [done |]. by apply Hsettles.
Defined.

(** ** The SIGTERM hook and the registry *)

Lemma list_remove_first_other x h l : h ∈ l → h ≠ x → h ∈ list_remove_first x l.
Proof.
  induction l as [|y l IH]; [by intros ?%elem_of_nil |]. simpl.
  intros [->|Hin]%elem_of_cons Hne.
  - rewrite bool_decide_false by done. by left.
  - case_bool_decide; [done |]. right. by apply IH.
Qed.

Lemma foldl_remove_self l :
  foldl (λ a h, list_remove_first h a) l l = [].
Proof.
  induction l as [|x l IH]; [done |]. simpl. by rewrite bool_decide_true.
Qed.

(** Closing the registered handles one after the other takes each of them
    out of the registry. *)
Lemma for_each_close_registry l : ∀ w,
  lifecycle_inv w → NoDup l → (∀ h, h ∈ l → h ∈ _active w) →
  _active (for_each l _CommandHandle.close w).2
  = foldl (λ a h, list_remove_first h a) (_active w) l.
Proof.
  induction l as [|x l IH]; intros w Hinv Hnd Hsub; [done |].
  apply NoDup_cons in Hnd as [Hx Hnd].
  pose proof Hinv as (_ & Hreg & Hheap).
  destruct (Hreg x (Hsub x ltac:(left))) as (o & Ho & Hd).
  assert (_closed o = false) as Hc.
  { destruct (Hheap x o Ho) as (_ & Hcd & _). destruct (_closed o); [| done].
    by rewrite Hcd in Hd. }
  destruct (close_inv x w Hinv) as [Hinv1 _].
  destruct (close_open x w o Ho Hc) as (w1 & Hclose & _ & Ha1 & _).
  rewrite Hclose in Hinv1. simpl in Hinv1.
  simpl. unmonad. rewrite Hclose. rewrite <- Ha1. apply IH; [done | done |].
  intros h Hin. rewrite Ha1. apply list_remove_first_other; [apply Hsub; by right |].
  intros ->. done.
Qed.

Lemma _handle_sigterm_registry signum w :
  lifecycle_inv w →
  ∃ w', _handle_sigterm signum w = (Ret tt, w')
        ∧ _active w' = []
        ∧ (∀ h, h ∈ _active w → is_closed w' h).
Proof.
  intros Hinv.
  pose proof Hinv as (Hnd & Hreg & _).
  destruct (_handle_sigterm_effect signum w) as (w' & Hrun & Hclosed & _).
  exists w'. split; [done |]. split.
  - pose proof (for_each_close_registry (_active w) w Hinv Hnd ltac:(done)) as Hact.
    rewrite foldl_remove_self in Hact.
    revert Hrun. unfold _handle_sigterm, _cleanup, signal_signal. unmonad.
    destruct (for_each (_active w) _CommandHandle.close w) as [[[]| |] w1]; simpl in *;
      [| done..].
    destruct (_PREV_SIGTERM w1); intros [= <-]; simpl; done.
  - intros h Hin. apply Hclosed; [done |].
    destruct (Hreg h Hin) as (o & -> & _). by eexists.
Qed.



(** ** The recorded status *)

Lemma wait_status_exit code : wait_status (exit_ind code) = code `mod` 256.
Proof.
  unfold wait_status, exit_ind. rewrite Z.shiftr_shiftl_l by lia. simpl.
  change 255 with (Z.ones 8). by rewrite Z.land_ones by lia.
Qed.

Lemma wait_signal_exit code : wait_signal (exit_ind code) = 0.
Proof.
  unfold wait_signal, exit_ind. change 255 with (Z.ones 8).
  rewrite (Z.land_ones (Z.shiftl _ _)) by lia. rewrite Z.shiftl_mul_pow2 by lia.
  by rewrite Z.mod_mul by lia.
Qed.

(** X17. [wait()] on a child that has ended without writing to its stderr
    splits the wait status as [ind >> 8] and [ind & 0xff]: for a child
    that left through [os._exit(code)], the status is the code modulo 256
    and [killsig] is 0; for a child ended by a signal, the status is 0 and
    [killsig] is the low byte of the wait status: the signal, and the
    signal plus 128 when the child dumped core. *)
Theorem wait_records_exit_code `{Codec} self w o c te ind :
  pending w self o c → c_end c = Some (te, ind) → c_err c = "" →
  ∃ w' o',
    _CommandHandle.wait self w = (Ret tt, w')
    ∧ heap w' !! self = Some o'
    ∧ status o' = Some (Z.shiftr ind 8) ∧ killsig o' = Some (Z.land ind 255)
    ∧ (∀ code, ind = exit_ind code →
               status o' = Some (code `mod` 256) ∧ killsig o' = Some 0)
    ∧ (∀ sig core, 0 < sig < 128 → ind = signal_ind sig core →
                   status o' = Some 0
                   ∧ killsig o' = Some (if core then sig + 128 else sig)).
Proof.
  intros Hp Hend Herr. rewrite (wait_done self w o c te ind) by done.
  eexists _, _. split; [done |]. simpl. rewrite lookup_insert_eq.
  split; [done |]. simpl. split; [done |]. split; [done |]. split.
  - intros code ->. by rewrite wait_status_exit, wait_signal_exit.
  - intros sig core Hsig ->. unfold wait_status, wait_signal, signal_ind.
    rewrite Z.shiftr_div_pow2 by lia. change 255 with (Z.ones 8).
    rewrite Z.land_ones by lia.
    destruct core; rewrite Z.div_small, Z.mod_small by (simpl; lia);
      split; try done; f_equal; lia.
Qed.

Lemma w_segfault_pending :
  pending w_segfault 6 (new_handle 5 1 3 0) (forked segfault 0).
Proof. repeat split; try by vm_compute. all: by eexists. Qed.

Lemma wait_records_exit_code_witness :
  (∃ w' o',
     _CommandHandle.wait (H := RefCodec.codec) 6 w_echo = (Ret tt, w')
     ∧ heap w' !! 6%nat = Some o'
     ∧ status o' = Some 0 ∧ killsig o' = Some 0)
  ∧ (∃ w' o',
       _CommandHandle.wait (H := RefCodec.codec) 6 w_segfault = (Ret tt, w')
       ∧ heap w' !! 6%nat = Some o'
       ∧ status o' = Some 0 ∧ killsig o' = Some 139).
Proof.
  split.
  - destruct (wait_records_exit_code (H := RefCodec.codec) 6 w_echo _ _ 20%nat (exit_ind 0)
                w_echo_pending eq_refl eq_refl)
      as (w' & o' & Hwait & Ho' & _ & _ & Hexit & _).
    exists w', o'. split; [done |]. split; [done |]. exact (Hexit 0 eq_refl).
  - destruct (wait_records_exit_code (H := RefCodec.codec) 6 w_segfault _ _ 20%nat
                (signal_ind 11 true) w_segfault_pending eq_refl eq_refl)
      as (w' & o' & Hwait & Ho' & _ & _ & _ & Hsig).
    exists w', o'. split; [done |]. split; [done |].
    exact (Hsig 11 true ltac:(lia) eq_refl).
Defined.

(** ** The hook runs once *)

Lemma handlers_kept_refl w : handlers_kept w w.
Proof. by split. Qed.

Lemma handlers_kept_trans w1 w2 w3 :
  handlers_kept w1 w2 → handlers_kept w2 w3 → handlers_kept w1 w3.
Proof. intros [? ?] [? ?]. split; congruence. Qed.

Lemma handlers_os {A} (m : M A) : os_call m → steps handlers_kept m.
Proof. intros Hos w. by destruct (Hos w) as (_ & _ & _ & ? & ? & _). Qed.

Ltac handlers_atom :=
  idtac;
  lazymatch goal with
  | |- steps handlers_kept (setattr _ _) => by intros ?
  | |- steps handlers_kept (unregister _) => intros ?; by rewrite unregister_spec
  | |- steps handlers_kept (modify bump_id) => by intros ?
  | |- steps handlers_kept (modify (set_active _)) => by intros ?
  | |- steps handlers_kept (modify (set_heap _)) => by intros ?
  | |- steps handlers_kept (modify (set_procs _)) => by intros ?
  | |- steps handlers_kept _ => apply handlers_os; os_atom
  end.
Ltac handlers_tac := steps_with handlers_kept_refl handlers_kept_trans handlers_atom.

Lemma handlers__cleanup_child `{Codec} self :
  steps handlers_kept (_CommandHandle._cleanup_child self).
Proof. unfold _CommandHandle._cleanup_child. handlers_tac. Qed.

Lemma handlers_wait `{Codec} self : steps handlers_kept (_CommandHandle.wait self).
Proof.
  unfold _CommandHandle.wait, _CommandHandle.fileno.
  steps_with handlers_kept_refl handlers_kept_trans
    ltac:(first [apply handlers__cleanup_child | handlers_atom]).
Qed.

Lemma handlers_close self : steps handlers_kept (_CommandHandle.close self).
Proof. intros w. by destruct (close_effect self w) as (w' & -> & _ & _ & _ & _ & ? & ?). Qed.

Lemma handlers_init p cread errread :
  steps handlers_kept (_CommandHandle.__init__ p cread errread).
Proof. unfold _CommandHandle.__init__. handlers_tac. Qed.

Lemma handlers_copen_sys image syscmd args :
  steps handlers_kept (copen_sys image syscmd args).
Proof.
  unfold copen_sys, os_pipe, os_fork. cbv zeta.
  steps_with handlers_kept_refl handlers_kept_trans
    ltac:(first [apply handlers_init | handlers_atom]).
Qed.

Lemma handlers_copen_fn `{Codec} func : steps handlers_kept (copen_fn func).
Proof.
  unfold copen_fn, _PickleHandle.__init__, os_pipe, os_fork. cbv zeta.
  steps_with handlers_kept_refl handlers_kept_trans
    ltac:(first [apply handlers_init | handlers_atom]).
Qed.

Lemma handlers_poll `{Codec} self : steps handlers_kept (_CommandHandle.poll self).
Proof.
  unfold _CommandHandle.poll, _CommandHandle.fileno.
  steps_with handlers_kept_refl handlers_kept_trans
    ltac:(first [apply handlers__cleanup_child | handlers_atom]).
Qed.

Lemma handlers_read `{Codec} self : steps handlers_kept (_CommandHandle.read self).
Proof.
  unfold _CommandHandle.read.
  steps_with handlers_kept_refl handlers_kept_trans
    ltac:(first [apply handlers_wait | handlers_atom]).
Qed.

Lemma handlers_readline `{Codec} self : steps handlers_kept (_CommandHandle.readline self).
Proof.
  unfold _CommandHandle.readline.
  steps_with handlers_kept_refl handlers_kept_trans
    ltac:(first [apply handlers_wait | handlers_atom]).
Qed.

Lemma handlers_readlines `{Codec} self :
  steps handlers_kept (_CommandHandle.readlines self).
Proof.
  unfold _CommandHandle.readlines.
  steps_with handlers_kept_refl handlers_kept_trans
    ltac:(first [apply handlers_wait | handlers_atom]).
Qed.

Lemma handlers_elapsed self : steps handlers_kept (_CommandHandle.elapsed self).
Proof. unfold _CommandHandle.elapsed. handlers_tac. Qed.

Lemma handlers_fileno self : steps handlers_kept (_CommandHandle.fileno self).
Proof. unfold _CommandHandle.fileno. handlers_tac. Qed.

Lemma handlers_pickle_read `{Codec} ph : steps handlers_kept (_PickleHandle.read ph).
Proof.
  unfold _PickleHandle.read.
  steps_with handlers_kept_refl handlers_kept_trans
    ltac:(first [apply handlers_read | handlers_atom]).
Qed.

Lemma run_op_handlers `{Codec} o w :
  o ≠ Import → sigterm_disp w ≠ Some Handle_sigterm → handlers_kept w (run_op o w).
Proof.
  intros Himport Hdisp.
  destruct o; simpl;
    [ done | apply handlers_copen_sys | apply handlers_copen_fn | apply handlers_close
    | apply handlers_wait | apply handlers_poll | apply handlers_read
    | apply handlers_readline | apply handlers_readlines | apply handlers_elapsed
    | apply handlers_fileno | apply handlers_pickle_read | | done ].
  unfold receive_SIGTERM, run_handler. unmonad.
  by destruct (sigterm_disp w) as [[| | |]|].
Qed.

(** X18. The hook runs once.  When the module was imported over a
    handler of the program, the first SIGTERM runs the hook, which puts
    that handler back; whatever the program does afterwards, short of
    importing the module again, a later SIGTERM runs only that handler:
    the handles opened in the meantime stay registered and their children
    are neither signalled nor reaped. *)
Theorem hook_runs_once `{Codec} w h ops :
  sigterm_disp w = Some Handle_sigterm → _PREV_SIGTERM w = Some h →
  h ≠ Handle_sigterm → Import ∉ ops →
  let w2 := run ops (receive_SIGTERM w).2 in
  sigterm_disp w2 = Some h
  ∧ receive_SIGTERM w2 = (Ret tt, log (EvCall h SIGTERM) w2).
Proof.
  intros Hdisp Hprev Hh Hops w2.
  assert (sigterm_disp (receive_SIGTERM w).2 = Some h) as Hd1.
  { unfold receive_SIGTERM, run_handler. unmonad. rewrite Hdisp.
    destruct (_handle_sigterm_effect SIGTERM (log (EvCall Handle_sigterm SIGTERM) w))
      as (w1 & -> & _ & _ & Hd1). simpl in *. by rewrite Hd1, Hprev. }
  assert (sigterm_disp w2 = Some h) as Hd2.
  { subst w2. revert Hd1 Hops. generalize (receive_SIGTERM w).2. unfold run.
    induction ops as [|o ops IH]; intros w1 Hd1 Hops; simpl; [done |].
    apply not_elem_of_cons in Hops as [Ho Hops]. apply IH; [| done].
    destruct (run_op_handlers o w1) as [-> _]; [done | | done].
    rewrite Hd1. by intros [= ->]. }
  split; [done |]. unfold receive_SIGTERM, run_handler. unmonad. rewrite Hd2.
  by destruct h.
Qed.

Lemma hook_runs_once_witness :
  let w2 := run (H := RefCodec.codec) [Copen_sys (image_of echo) "echo" ["abc"]]
                (receive_SIGTERM w_stubborn).2 in
  _active w2 = [12%nat]
  ∧ sigterm_disp w2 = Some app_handler
  ∧ receive_SIGTERM w2 = (Ret tt, log (EvCall app_handler SIGTERM) w2).
Proof.
  intros w2. split; [by vm_compute |].
  apply (hook_runs_once (H := RefCodec.codec) w_stubborn app_handler
           [Copen_sys (image_of echo) "echo" ["abc"]]); [done | done | done |].
  by intros [[=]|?%elem_of_nil]%elem_of_cons.
Defined.

(** ** A signal during close() *)

(** With nothing between the test and the removal, the two-statement
    [close] is [close]. *)
Lemma close_split_sequential self w :
  close_split (mret tt) self w = _CommandHandle.close self w.
Proof.
  unfold close_split, _CommandHandle.close, unregister_split, unregister, list_remove,
    getself.
  unmonad.
  destruct (heap w !! self) as [o|] eqn:Ho; [| done].
  destruct (_closed o); [done |].
  destruct (bool_decide (self ∈ _active w)) eqn:Hin;
    destruct (bool_decide (_active w ≠ [])); simpl; rewrite ?Hin; simpl; by rewrite Ho.
Qed.

(** C7.  [close()] raises when SIGTERM arrives inside it.  In every world
    the program can reach, take a registered handle while the hook of the
    module is installed.  Run without a signal, [close()] returns.  When
    SIGTERM arrives between the test [self in _active] and the call
    [_active.remove(self)], the hook closes the handle and empties the
    registry, and the resumed [remove] raises [ValueError] out of
    [close()]. *)
Theorem close_raises_when_hook_runs_inside `{Codec} w self :
  reachable w → self ∈ _active w → sigterm_disp w = Some Handle_sigterm →
  (_CommandHandle.close self w).1 = Ret tt
  ∧ close_split (mret tt) self w = _CommandHandle.close self w
  ∧ ∃ w', close_split receive_SIGTERM self w
          = (Exc (ValueError "list.remove(x): x not in list"), w')
          ∧ is_closed w' self ∧ _active w' = [].
Proof.
  intros Hinv%lifecycle_inv_reachable Hin Hdisp.
  pose proof Hinv as (Hnd & Hreg & Hheap).
  destruct (Hreg self Hin) as (o & Ho & Hd).
  assert (_closed o = false) as Hc.
  { destruct (Hheap self o Ho) as (_ & Hcd & _). destruct (_closed o); [| done].
    by rewrite Hcd in Hd. }
  split; [by destruct (close_open self w o Ho Hc) as (w1 & -> & _) |].
  split; [apply close_split_sequential |].
  assert (lifecycle_inv (log (EvCall Handle_sigterm SIGTERM) w)) as Hinv'
    by (by apply (lifecycle_inv_ext w)).
  destruct (_handle_sigterm_registry SIGTERM _ Hinv') as (w1 & Hrun & Hempty & Hclosed).
  unfold close_split, unregister_split. unmonad. rewrite Ho, Hc.
  rewrite (bool_decide_true (self ∈ _active w)) by done.
  rewrite bool_decide_true by (intros Hnil; rewrite Hnil in Hin; by apply elem_of_nil in Hin).
  simpl. unfold receive_SIGTERM, run_handler. unmonad. rewrite Hdisp. simpl.
  rewrite Hrun. unfold list_remove. unmonad. rewrite Hempty.
  rewrite bool_decide_false by (by intros ?%elem_of_nil).
  exists w1. split; [done |]. split; [by apply Hclosed | done].
Qed.

Lemma close_raises_when_hook_runs_inside_witness :
  (_CommandHandle.close 6 w_stubborn).1 = Ret tt
  ∧ ∃ w', close_split receive_SIGTERM 6 w_stubborn
          = (Exc (ValueError "list.remove(x): x not in list"), w')
          ∧ is_closed w' 6 ∧ _active w' = [].
Proof.
  assert (reachable (H := RefCodec.codec) w_stubborn) as Hw.
  { exists (Some app_handler), [Import; Copen_sys (image_of stubborn) "sleep" ["1000"]].
    reflexivity. }
  assert (_active w_stubborn = [6%nat]) as Ha by (by vm_compute).
  destruct (close_raises_when_hook_runs_inside (H := RefCodec.codec) w_stubborn 6 Hw)
    as (Hseq & _ & Hrace); [rewrite Ha; by left | by vm_compute |].
  by split.
Defined.
